(** * Least-squares Monte Carlo pricing of American puts

    A shallow embedding of [AmOption.ipynb]: the classes [Stock], [Option],
    [BSModel], [EurOption] and [AmOption], and in particular the backward
    induction of [AmOption.priceAmByLSMC] with its helpers
    [regressionFunction] and [getContinuationValue]; next to them the path
    simulation [BSModel.generateSamplePaths] and the two European prices
    [EurOption.priceByBSMC] and [EurOption.priceByBSAnalytic].

    Numbers.  The notebook computes with float64.  The embedding idealises
    them as real numbers ([R] of the Standard Library): [np.exp] is [exp],
    [np.maximum] is [Rmax], comparisons are the order of [R].  Rounding,
    infinities and NaN are outside the model: where numpy would return one
    ([np.sqrt] of a negative number, [np.log] of a number that is not
    positive, a mean over no rows), the statements about the values exclude
    the arguments.  An exponential that float64 cannot hold overflows to
    [inf] or underflows to [0.0]; the statements about simulated prices are
    equalities and bounds that are not strict, and are read up to that.

    Arrays.  A two-dimensional [np.ndarray] is a record of its column count
    and its rows; a one-dimensional one is a list.  Indexing outside the
    shape raises [IndexError] and an assignment whose right-hand side cannot
    be broadcast raises [ValueError], as numpy does; exceptions are the left
    summand of [result].

    State.  [priceAmByLSMC] allocates [payoffMatrix], [exerciseDecisionMatrix],
    [discountFactors] and [results_dict] and mutates them in place while it
    reads the caller's [samplePaths].  The embedding threads a [store] that
    holds all five, so that what is written where is explicit.

    Exceptions.  What Python raises is the left summand of [result]: the
    [ZeroDivisionError] of a division by a step count of 0, as in [getDt];
    the [KeyError] of [regFunc.params['const']] in [getContinuationValue]
    when the fitted model has no constant; the [ValueError] and
    [AttributeError] of the European pricers.

    Libraries.  [sm.add_constant] and [sm.OLS(y, X).fit()] belong to
    statsmodels, not to the notebook.  [add_constant] is embedded with its
    default [has_constant = 'skip']: it prepends the column of ones unless a
    column of the frame is already constant and other than 0, and then
    returns the frame as it is.  The fit is a parameter [fit] of the
    embedding, with one function for each of the two designs;
    [normal_equations_fit] below is an instance that solves the normal
    equations, by Cramer's rule for the design with its constant. *)

From Stdlib Require Import Reals Lra Lia ZArith String.
From stdpp Require Import base tactics option list strings.

Open Scope R_scope.

(** ** Exceptions and the result monad *)

(** The exceptions the notebook can end in: those numpy, pandas and the
    explicit [raise] statements raise, the one of a linear-algebra routine,
    and the two that plain Python raises for a division by the number 0 and
    for an attribute an object does not have. *)
Inductive exn : Type :=
  | IndexError
  | ValueError
  | KeyError
  | LinAlgError
  | ZeroDivisionError
  | AttributeError.

Abbreviation result := (sum exn).

#[global] Instance result_ret : MRet result := λ A x, inr x.
#[global] Instance result_bind : MBind result :=
  λ A B f m, match m with inl e => inl e | inr x => f x end.

#[global] Instance Rlt_decision (x y : R) : Decision (x < y) := Rlt_dec x y.
#[global] Instance R_eq_decision : EqDecision R := Req_dec_T.

(** [for x in xs: body], threading the state and stopping at an exception. *)
Fixpoint for_each {A : Type} (body : nat → A → result A) (xs : list nat) (σ : A)
    : result A :=
  match xs with
  | [] => inr σ
  | x :: xs' => σ' ← body x σ; for_each body xs' σ'
  end.

(** ** numpy arrays *)

Definition sumR (l : list R) : R := foldr Rplus 0 l.

Record ndarray : Type := NdArray { ncols : nat; rows : list (list R) }.

Definition nrows (a : ndarray) : nat := length (rows a).

(** The rows of [a] all have [ncols a] entries. *)
Definition rectangular (a : ndarray) : Prop :=
  Forall (λ row, length row = ncols a) (rows a).

(** [np.zeros((n, m))] *)
Definition zeros (n m : nat) : ndarray := NdArray m (replicate n (replicate m 0)).

(** [a[:, j]] for [0 <= j] *)
Definition col (a : ndarray) (j : nat) : result (list R) :=
  if decide (j < ncols a)%nat
  then inr ((λ row, default 0 (row !! j)) <$> rows a)
  else inl IndexError.

(** [a[:, -1]] *)
Definition last_col (a : ndarray) : result (list R) :=
  if decide (ncols a = 0)%nat then inl IndexError else col a (ncols a - 1).

(** numpy's broadcast of a one-dimensional value to length [n]. *)
Definition broadcast_to (n : nat) (v : list R) : result (list R) :=
  if decide (length v = n) then inr v
  else match v with
       | [x] => inr (replicate n x)
       | _ => inl ValueError
       end.

(** [a[:, j] = v] *)
Definition set_col (a : ndarray) (j : nat) (v : list R) : result ndarray :=
  if decide (j < ncols a)%nat
  then v' ← broadcast_to (nrows a) v;
       mret (NdArray (ncols a) (zip_with (λ row x, <[j:=x]> row) (rows a) v'))
  else inl IndexError.

(** [a[:, -1] = v] *)
Definition set_last_col (a : ndarray) (v : list R) : result ndarray :=
  if decide (ncols a = 0)%nat then inl IndexError else set_col a (ncols a - 1) v.

(** [a[:, k:]] *)
Definition cols_from (a : ndarray) (k : nat) : ndarray :=
  NdArray (ncols a - k) (drop k <$> rows a).

(** [a[condition, k:] = 0] *)
Definition zero_rows_from (a : ndarray) (condition : list bool) (k : nat)
    : result ndarray :=
  if decide (length condition = nrows a)
  then inr (NdArray (ncols a)
              (zip_with (λ row (c : bool),
                           if c then take k row ++ replicate (length row - k) 0
                           else row)
                        (rows a) condition))
  else inl IndexError.

(** An elementwise binary operation on one-dimensional arrays, with numpy's
    broadcasting of a length-one operand. *)
Definition broadcast2 {A B C : Type} (f : A → B → C) (a : list A) (b : list B)
    : result (list C) :=
  if decide (length a = length b) then inr (zip_with f a b)
  else match a, b with
       | [x], _ => inr (f x <$> b)
       | _, [y] => inr ((λ x, f x y) <$> a)
       | _, _ => inl ValueError
       end.

(** [np.where(v > 0, 1, 0)] *)
Definition where_positive (v : list R) : list R :=
  (λ x, if decide (0 < x) then 1 else 0) <$> v.

(** [-a] *)
Definition negated (a : ndarray) : ndarray :=
  NdArray (ncols a) ((λ row : list R, Ropp <$> row) <$> rows a).

(** [np.sum(a)] *)
Definition np_sum (a : ndarray) : R := sumR (concat (rows a)).

(** [np.sum(A * B * dfs, axis = 1)] for two-dimensional [A], [B] and
    one-dimensional [dfs]: the products broadcast along the last axis. *)
Definition row_product_sum (dfs prow erow : list R) : result R :=
  pe ← broadcast2 Rmult prow erow;
  ped ← broadcast2 Rmult pe dfs;
  mret (sumR ped).

Fixpoint row_product_sums (dfs : list R) (prows erows : list (list R))
    : result (list R) :=
  match prows, erows with
  | prow :: prows', erow :: erows' =>
      y ← row_product_sum dfs prow erow;
      ys ← row_product_sums dfs prows' erows';
      mret (y :: ys)
  | _, _ => inr []
  end.

(** ** The classes of the notebook *)

Module Stock.
Record t : Type := Build { s0 : R; sigma : R; r : R }.
End Stock.

Module Option.
Record t : Type := Build { timeToExpiry : R; nSteps : nat; strike : R }.
End Option.

Module BSModel.
Record t : Type := Build
  { stockObj : Stock.t; opnObj : Option.t; numberOfPaths : nat; nSteps : nat }.

(** The body of the simulation loop: column [t] from column [t - 1] and the
    draws of column [t - 1].  The growth factor is the exponential of the
    reals.  [np.exp] on float64 rounds it, and returns [0.0] for an argument
    below about -745 and [inf] above about 709: a statement about this
    function is read up to that, and none below says that a price differs
    from 0. *)
Definition gbm_step (self : t) (dt : R) (randomNumbersMatrix : ndarray) (t : nat)
    (samplePaths : ndarray) : result ndarray :=
  z ← col randomNumbersMatrix (t - 1);
  let dW := (λ z, sqrt dt * z) <$> z in
  prev ← col samplePaths (t - 1);
  let growth :=
    (λ w, exp ((Stock.r (stockObj self) - 0.5 * Stock.sigma (stockObj self) ^ 2) * dt
               + Stock.sigma (stockObj self) * w)) <$> dW in
  next ← broadcast2 Rmult prev growth;
  set_col samplePaths t next.

(** The step count and the expiry are those of [opnObj]; the division of two
    Python numbers raises when the step count is 0. *)
Definition generateSamplePaths (self : t) (randomNumbersMatrix : ndarray)
    : result ndarray :=
  if decide (Option.nSteps (opnObj self) = 0%nat) then inl ZeroDivisionError
  else
    let dt := Option.timeToExpiry (opnObj self) / INR (Option.nSteps (opnObj self)) in
    let samplePaths := zeros (numberOfPaths self) (Option.nSteps (opnObj self) + 1) in
    samplePaths ← set_col samplePaths 0 [Stock.s0 (stockObj self)];
    for_each (gbm_step self dt randomNumbersMatrix)
      (seq 1 (Option.nSteps (opnObj self))) samplePaths.
End BSModel.

(** ** pandas and statsmodels *)

(** The coefficients of a regression on the columns [const, X, X_Squared]. *)
Record params : Type := Params { const : R; coef_X : R; coef_X_Squared : R }.

(** [model.params], a Series indexed by the columns of the design matrix: by
    [const, X, X_Squared], or by [X, X_Squared] alone where the design has no
    column [const]. *)
Inductive series : Type :=
  | WithConst (β : params)
  | NoConst (b : R * R).

(** [params['const']]: pandas raises [KeyError] for a label the index lacks. *)
Definition series_const (s : series) : result R :=
  match s with
  | WithConst β => inr (const β)
  | NoConst _ => inl KeyError
  end.

(** [params['X']] and [params['X_Squared']], labels of either index. *)
Definition series_X (s : series) : R :=
  match s with
  | WithConst β => coef_X β
  | NoConst b => b.1
  end.

Definition series_X_Squared (s : series) : R :=
  match s with
  | WithConst β => coef_X_Squared β
  | NoConst b => b.2
  end.

(** A design matrix: rows over the columns [const, X, X_Squared], or over
    [X, X_Squared]. *)
Inductive design : Type :=
  | WithConstant (X : list (R * R * R))
  | WithoutConstant (X : list (R * R)).

(** [np.ptp] of a column with first entry [x]: its maximum minus its minimum. *)
Definition np_ptp (x : R) (s : list R) : R := foldr Rmax x s - foldr Rmin x s.

(** The test of statsmodels for a column that is a constant other than 0,
    [np.ptp(s) == 0.0 and np.any(s != 0.0)].  On a column without entries
    [np.ptp] raises, which the test catches and answers with [False]. *)
Definition is_nonzero_const (s : list R) : bool :=
  match s with
  | [] => false
  | x :: s' => bool_decide (np_ptp x s' = 0) && bool_decide (Exists (λ v, v ≠ 0) s)
  end.

(** [sm.add_constant(X)] on a frame with the columns [X, X_Squared], with
    its default [has_constant='skip']: a column [const] of ones is put in
    front, unless one of the columns is a nonzero constant already; then the
    frame is returned as it is. *)
Definition add_constant (X : list (R * R)) : design :=
  if is_nonzero_const X.*1 || is_nonzero_const X.*2
  then WithoutConstant X
  else WithConstant ((λ row, (1, row.1, row.2)) <$> X).

(** [sm.OLS(y, X).fit()], a parameter of the embedding: a routine for the
    design with the columns [const, X, X_Squared], which is the one applied
    where a [fitter] is used as a function, and one for the design without
    [const]. *)
Record fitter : Type := Fitter
  { ols :> list R → list (R * R * R) → result params;
    ols_no_const : list R → list (R * R) → result (R * R) }.

Definition OLS_fit (fit : fitter) (y : list R) (X : design) : result series :=
  match X with
  | WithConstant X => β ← fit y X; mret (WithConst β)
  | WithoutConstant X => b ← ols_no_const fit y X; mret (NoConst b)
  end.

Module EurOption.
Record t : Type := Build { stockObj : Stock.t; optionObj : Option.t }.

(** [norm.cdf] belongs to scipy and is a parameter.  [d1] and [d2] are
    computed before the branch on [optionType], and the quotient
    [s0 / strike] of two Python numbers raises when the strike is 0.  The
    branch of a call reads [self.stockObj.T], an attribute no [Stock] has. *)
Definition priceByBSAnalytic (norm_cdf : R → R) (self : t) (optionType : string)
    : result R :=
  let s0 := Stock.s0 (stockObj self) in
  let sigma := Stock.sigma (stockObj self) in
  let r := Stock.r (stockObj self) in
  let strike := Option.strike (optionObj self) in
  let timeToExpiry := Option.timeToExpiry (optionObj self) in
  if decide (strike = 0) then inl ZeroDivisionError
  else
    let d1 := (ln (s0 / strike) + (r + 0.5 * sigma ^ 2) * timeToExpiry)
              / (sigma * sqrt timeToExpiry) in
    let d2 := d1 - sigma * sqrt timeToExpiry in
    if decide (optionType = "call") then inl AttributeError
    else if decide (optionType = "put")
    then inr (strike * exp (- r * timeToExpiry) * norm_cdf (- d2) - s0 * norm_cdf (- d1))
    else inl ValueError.

Definition priceByBSMC (self : t) (samplePaths : ndarray) (optionType : string)
    : result R :=
  payoff ←
    (if decide (optionType = "call")
     then last ← last_col samplePaths;
          mret ((λ x, Rmax (x - Option.strike (optionObj self)) 0) <$> last)
     else if decide (optionType = "put")
     then last ← last_col samplePaths;
          mret ((λ x, Rmax (Option.strike (optionObj self) - x) 0) <$> last)
     else inl ValueError);
  let payoff :=
    (λ p, p * exp (- Stock.r (stockObj self) * Option.timeToExpiry (optionObj self)))
      <$> payoff in
  mret (sumR payoff / INR (length payoff)).
End EurOption.

Module AmOption.
Record t : Type := Build
  { stockObj : Stock.t; optionObj : Option.t; modelObj : BSModel.t }.

Definition payOff (self : t) (pathCrossSection : list R) : list R :=
  (λ x, Rmax (Option.strike (optionObj self) - x) 0) <$> pathCrossSection.

(** The quotient of two Python numbers, which raises when the step count
    is 0. *)
Definition getDt (self : t) : result R :=
  if decide (Option.nSteps (optionObj self) = 0%nat) then inl ZeroDivisionError
  else inr (Option.timeToExpiry (optionObj self) / INR (Option.nSteps (optionObj self))).

(** The data frame [regression] after the filter: one row [(Y, X, X_Squared)]
    per path with [X < strike]. *)
Definition regression_frame (self : t) (Y X : list R) : list (R * R * R) :=
  (λ yx, (yx.1, yx.2, yx.2 ^ 2))
    <$> filter (λ yx, yx.2 < Option.strike (optionObj self)) (zip Y X).

(** The model that is returned is represented by its [params]. *)
Definition regressionFunction (fit : fitter) (self : t)
    (pathCrossSectionPayOff pathCrossSectionTminus1 exerciseD : ndarray)
    (dfs : list R) : result (series * list (R * R * R)) :=
  (* dt = self.getDt() *)
  dt ← getDt self;
  (* regression['Y'] = np.sum(pathCrossSectionPayOff * exerciseD * dfs, axis = 1) *)
  Y ← row_product_sums dfs (rows pathCrossSectionPayOff) (rows exerciseD);
  (* regression['X'] = pathCrossSectionTminus1[:, 0]; pandas raises ValueError
     unless the column is as long as the frame's index *)
  X ← col pathCrossSectionTminus1 0;
  _ ← (if decide (length X = length Y) then inr () else inl ValueError);
  let regression := regression_frame self Y X in
  (* X = sm.add_constant(regression[['X', 'X_Squared']]); y = regression['Y'] *)
  let X := add_constant ((λ row, (row.1.2, row.2)) <$> regression) in
  let y := (λ row, row.1.1) <$> regression in
  model ← OLS_fit fit y X;
  mret (model, regression).

Definition getContinuationValue (self : t) (regFunc : series)
    (pathCrossSectionTminus1 immediatePayoff : list R) : result (list R) :=
  intercept ← series_const regFunc;
  let coefficient_X := series_X regFunc in
  let coefficient_X_squared := series_X_Squared regFunc in
  mret ((λ x, intercept + coefficient_X * x + coefficient_X_squared * x ^ 2)
          <$> pathCrossSectionTminus1).

(** The caller's array and the objects [priceAmByLSMC] allocates. *)
Record store : Type := Store
  { samplePaths : ndarray;
    payoffMatrix : ndarray;
    exerciseDecisionMatrix : ndarray;
    discountFactors : list R;
    results_dict : list (nat * series) }.

(** Lines 198-210: the matrices, the terminal column, the empty sequences. *)
Definition initialize (self : t) (samplePaths : ndarray) : result store :=
  let exerciseDecisionMatrix :=
    zeros (BSModel.numberOfPaths (modelObj self)) (BSModel.nSteps (modelObj self)) in
  let payoffMatrix :=
    zeros (BSModel.numberOfPaths (modelObj self)) (BSModel.nSteps (modelObj self)) in
  last ← last_col samplePaths;
  payoffMatrix ← set_last_col payoffMatrix (payOff self last);
  plast ← last_col payoffMatrix;
  exerciseDecisionMatrix ← set_last_col exerciseDecisionMatrix (where_positive plast);
  mret (Store samplePaths payoffMatrix exerciseDecisionMatrix [] []).

(** Lines 214-219 of the loop body: the immediate payoff in column [t] and the
    new discount factor. *)
Definition immediate_payoff (self : t) (dt : R) (t : nat) (σ : store) : result store :=
  x ← col (samplePaths σ) (t + 1);
  pm ← set_col (payoffMatrix σ) t (payOff self x);
  pt ← col pm t;
  em ← set_col (exerciseDecisionMatrix σ) t (where_positive pt);
  let discountFactor :=
    exp (- Stock.r (BSModel.stockObj (modelObj self)) * dt
         * IZR (Z.of_nat (BSModel.nSteps (modelObj self)) - Z.of_nat t - 1)) in
  mret (Store (samplePaths σ) pm em (discountFactors σ ++ [discountFactor])
          (results_dict σ)).

(** Lines 224-231: the regression over the columns after [t], logged under
    the key of step [t]. *)
Definition regression_step (fit : fitter) (self : t) (t : nat) (σ : store)
    : result (series * store) :=
  reg ← regressionFunction fit self
          (cols_from (payoffMatrix σ) (t + 1))
          (cols_from (samplePaths σ) (t + 1))
          (cols_from (exerciseDecisionMatrix σ) (t + 1))
          (discountFactors σ);
  mret (reg.1,
        Store (samplePaths σ) (payoffMatrix σ) (exerciseDecisionMatrix σ)
          (discountFactors σ) (results_dict σ ++ [(t, reg.1)])).

(** Lines 235-246: the exercise decision and the update of both matrices. *)
Definition exercise_decision (self : t) (t : nat) (regFunction : series) (σ : store)
    : result store :=
  x ← col (samplePaths σ) (t + 1);
  pt ← col (payoffMatrix σ) t;
  contValue ← getContinuationValue self regFunction x pt;
  above ← broadcast2 (λ p c, bool_decide (c < p)) pt contValue;
  condition ← broadcast2 andb above ((λ p, bool_decide (0 < p)) <$> pt);
  kept ← broadcast2 (λ (c : bool) p, if c then p else 0) condition pt;
  pm ← set_col (payoffMatrix σ) t kept;
  em ← set_col (exerciseDecisionMatrix σ) t
         ((λ c : bool, if c then 1 else 0) <$> condition);
  pm ← zero_rows_from pm condition (t + 1);
  em ← zero_rows_from em condition (t + 1);
  mret (Store (samplePaths σ) pm em (discountFactors σ) (results_dict σ)).

Definition loop_body (fit : fitter) (self : t) (dt : R) (t : nat) (σ : store)
    : result store :=
  σ1 ← immediate_payoff self dt t σ;
  r2 ← regression_step fit self t σ1;
  exercise_decision self t r2.1 r2.2.

(** [range(nSteps - 2, -1, -1)] *)
Definition backward_range (nSteps : nat) : list nat := reverse (seq 0 (nSteps - 1)).

(** Lines 253-254: the body of the discounting loop. *)
Definition discount_column (self : t) (dt : R) (i : nat) (σ : store) : result store :=
  c ← col (payoffMatrix σ) i;
  pm ← set_col (payoffMatrix σ) i
         ((λ p, p * exp (- Stock.r (stockObj self) * dt * IZR (Z.of_nat i + 1))) <$> c);
  mret (Store (samplePaths σ) pm (exerciseDecisionMatrix σ) (discountFactors σ)
          (results_dict σ)).

(** The whole run, up to the last assignment: the value [V] and the store. *)
Definition run (fit : fitter) (self : t) (samplePaths : ndarray) (dt : R)
    : result (R * store) :=
  σ ← initialize self samplePaths;
  σ ← for_each (loop_body fit self dt)
        (backward_range (BSModel.nSteps (modelObj self))) σ;
  σ ← for_each (discount_column self dt) (seq 0 (Option.nSteps (optionObj self))) σ;
  let V := np_sum (payoffMatrix σ) / INR (BSModel.numberOfPaths (modelObj self)) in
  mret (V, σ).

Definition priceAmByLSMC (fit : fitter) (self : t) (samplePaths : ndarray) (dt : R)
    : result (R * ndarray * ndarray * list (nat * series)) :=
  out ← run fit self samplePaths dt;
  mret (out.1, payoffMatrix out.2, exerciseDecisionMatrix out.2, results_dict out.2).
End AmOption.

(** ** Ordinary least squares on a three-column design *)

(** The value a coefficient vector predicts on a design row. *)
Definition predict (β : params) (row : R * R * R) : R :=
  const β * row.1.1 + coef_X β * row.1.2 + coef_X_Squared β * row.2.

(** The fitted polynomial [const + X·x + X_Squared·x²]. *)
Definition fitted (β : params) (x : R) : R :=
  const β + coef_X β * x + coef_X_Squared β * x ^ 2.



(** The moments [Σ residual · column]; the normal equations say all three vanish. *)
Definition residual_moment (k : R * R * R → R) (y : list R) (X : list (R * R * R))
    (β : params) : R :=
  sumR (zip_with (λ yi row, (yi - predict β row) * k row) y X).

Definition normal_equations (y : list R) (X : list (R * R * R)) (β : params) : Prop :=
  residual_moment (λ row, row.1.1) y X β = 0
  ∧ residual_moment (λ row, row.1.2) y X β = 0
  ∧ residual_moment (λ row, row.2) y X β = 0.

(** Entries of the Gram matrix [XᵀX] and of [Xᵀy]. *)
Definition gram (f g : R * R * R → R) (X : list (R * R * R)) : R :=
  sumR ((λ row, f row * g row) <$> X).

Definition moment (f : R * R * R → R) (y : list R) (X : list (R * R * R)) : R :=
  sumR (zip_with (λ yi row, yi * f row) y X).

Definition det3 (a11 a12 a13 a21 a22 a23 a31 a32 a33 : R) : R :=
  a11 * (a22 * a33 - a23 * a32)
  - a12 * (a21 * a33 - a23 * a31)
  + a13 * (a21 * a32 - a22 * a31).

Definition gram_det (X : list (R * R * R)) : R :=
  let c := λ row : R * R * R, row.1.1 in
  let x := λ row : R * R * R, row.1.2 in
  let q := λ row : R * R * R, row.2 in
  det3 (gram c c X) (gram c x X) (gram c q X)
       (gram x c X) (gram x x X) (gram x q X)
       (gram q c X) (gram q x X) (gram q q X).

(** The normal equations [XᵀX β = Xᵀy] of a design with the columns
    [const, X, X_Squared], solved by Cramer's rule; a singular Gram matrix is
    rejected. *)
Definition cramer_fit (y : list R) (X : list (R * R * R)) : result params :=
  let c := λ row : R * R * R, row.1.1 in
  let x := λ row : R * R * R, row.1.2 in
  let q := λ row : R * R * R, row.2 in
  let d := gram_det X in
  if decide (d = 0) then inl LinAlgError
  else inr (Params
    (det3 (moment c y X) (gram c x X) (gram c q X)
          (moment x y X) (gram x x X) (gram x q X)
          (moment q y X) (gram q x X) (gram q q X) / d)
    (det3 (gram c c X) (moment c y X) (gram c q X)
          (gram x c X) (moment x y X) (gram x q X)
          (gram q c X) (moment q y X) (gram q q X) / d)
    (det3 (gram c c X) (gram c x X) (moment c y X)
          (gram x c X) (gram x x X) (moment x y X)
          (gram q c X) (gram q x X) (moment q y X) / d)).

(** The least-squares solution of minimum norm on a design with the columns
    [X, X_Squared], the one statsmodels computes with the pseudo-inverse: with
    [G = XᵀX] and [m = Xᵀy] it is [G⁻¹ m] where [G] is regular, [G m / (tr G)²]
    where [G] has rank 1, and 0 where [G = 0].  It never raises. *)
Definition pinv_fit (y : list R) (X : list (R * R)) : result (R * R) :=
  let g11 := sumR ((λ row, row.1 * row.1) <$> X) in
  let g12 := sumR ((λ row, row.1 * row.2) <$> X) in
  let g22 := sumR ((λ row, row.2 * row.2) <$> X) in
  let m1 := sumR (zip_with (λ yi row, yi * row.1) y X) in
  let m2 := sumR (zip_with (λ yi row, yi * row.2) y X) in
  let d := g11 * g22 - g12 * g12 in
  let t := g11 + g22 in
  if decide (d ≠ 0)
  then inr ((g22 * m1 - g12 * m2) / d, (g11 * m2 - g12 * m1) / d)
  else if decide (t = 0) then inr (0, 0)
  else inr ((g11 * m1 + g12 * m2) / (t * t), (g12 * m1 + g22 * m2) / (t * t)).

(** An OLS routine made of the two. *)
Definition normal_equations_fit : fitter := Fitter cramer_fit pinv_fit.

(** What the theorems assume of an OLS routine, where they assume anything:
    coefficients it returns solve the normal equations. *)
Definition solves_least_squares (fit : fitter) : Prop :=
  ∀ y X β, length y = length X → fit y X = inr β → normal_equations y X β.

(** It returns coefficients whenever the Gram matrix is regular. *)
Definition total_on_full_rank (fit : fitter) : Prop :=
  ∀ y X, length y = length X → gram_det X ≠ 0 → ∃ β, fit y X = inr β.

(** ** Notions the statements use *)

(** Entry [(p, i)] of an array (0 outside its shape). *)
Definition entry (a : ndarray) (p i : nat) : R :=
  default 0 (rows a !! p ≫= (.!! i)).

(** A row with at most one nonzero entry. *)
Definition at_most_one_nonzero (row : list R) : Prop :=
  ∀ i j x y, row !! i = Some x → row !! j = Some y → x ≠ 0 → y ≠ 0 → i = j.

(** The exercise-once invariant of a matrix. *)
Definition once_per_row (a : ndarray) : Prop :=
  Forall at_most_one_nonzero (rows a).

(** Shape [(n, m)]. *)
Definition shaped (n m : nat) (a : ndarray) : Prop :=
  ncols a = m ∧ nrows a = n ∧ rectangular a.

(** Intrinsic payoff of a put at price [x]. *)
Definition intrinsic (self : AmOption.t) (x : R) : R :=
  Rmax (Option.strike (AmOption.optionObj self) - x) 0.

(** The exercise condition of line 238 for one path at price [x]. *)
Definition exercises (self : AmOption.t) (β : params) (x : R) : bool :=
  bool_decide (fitted β x < intrinsic self x) && bool_decide (0 < intrinsic self x).

Import AmOption.

(** ** One iteration of the backward loop, row by row *)

(** Row [row] after the decision of step [t]: [v] in column [t], and zeros
    after it when the path exercises. *)
Definition row_after_decision (t : nat) (exercise : bool) (v : R) (row : list R)
    : list R :=
  if exercise then take (t + 1) (<[t:=v]> row) ++ replicate (length row - (t + 1)) 0
  else <[t:=v]> row.

(** The row of [payoffMatrix] of a path at price [x] after step [t]. *)
Definition payoff_row (self : AmOption.t) (t : nat) (β : params) (row : list R) (x : R)
    : list R :=
  row_after_decision t (exercises self β x)
    (if exercises self β x then intrinsic self x else 0) row.

(** Its row of [exerciseDecisionMatrix]. *)
Definition exercise_row (self : AmOption.t) (t : nat) (β : params) (row : list R) (x : R)
    : list R :=
  row_after_decision t (exercises self β x)
    (if exercises self β x then 1 else 0) row.

(** The discount factor line 217 appends at step [t]. *)
Definition discount_factor (self : AmOption.t) (dt : R) (t : nat) : R :=
  exp (- Stock.r (BSModel.stockObj (AmOption.modelObj self)) * dt
       * IZR (Z.of_nat (BSModel.nSteps (AmOption.modelObj self)) - Z.of_nat t - 1)).

(** The store after the iteration of step [t], given the column [x] of prices
    and the coefficients [β] of the fit. *)
Definition store_after_step (self : AmOption.t) (dt : R) (t : nat) (σ : AmOption.store)
    (x : list R) (β : params) : AmOption.store :=
  AmOption.Store (AmOption.samplePaths σ)
    (NdArray (ncols (AmOption.payoffMatrix σ))
       (zip_with (payoff_row self t β) (rows (AmOption.payoffMatrix σ)) x))
    (NdArray (ncols (AmOption.exerciseDecisionMatrix σ))
       (zip_with (exercise_row self t β) (rows (AmOption.exerciseDecisionMatrix σ)) x))
    (AmOption.discountFactors σ ++ [discount_factor self dt t])
    (AmOption.results_dict σ ++ [(t, WithConst β)]).

(** ** Invariants of the backward loop *)

(** The relation between a row of [payoffMatrix] and the same row of
    [exerciseDecisionMatrix] once the columns from [k] on are decided. *)
Record row_inv (m k : nat) (prow erow : list R) : Prop := RowInv
  { row_inv_plen : length prow = m;
    row_inv_elen : length erow = m;
    row_inv_zero : ∀ i, (i < k)%nat → prow !! i = Some 0;
    row_inv_once : at_most_one_nonzero prow;
    row_inv_nonneg : ∀ i v, prow !! i = Some v → 0 <= v;
    row_inv_indicator : ∀ i v, prow !! i = Some v →
                               erow !! i = Some (if decide (0 < v) then 1 else 0) }.

Abbreviation N self := (BSModel.numberOfPaths (modelObj self)).

Abbreviation M self := (BSModel.nSteps (modelObj self)).

(** Row [p] of a fresh matrix with [v] written into its last column. *)
Definition terminal_row (m : nat) (v : R) : list R := <[(m - 1)%nat:=v]> (replicate m 0).

(** The invariant of the store once the columns from [k] on are decided. *)
Record store_inv (self : t) (dt : R) (paths : ndarray) (k : nat) (σ : store) : Prop :=
  StoreInv
  { inv_paths : samplePaths σ = paths;
    inv_pcols : ncols (payoffMatrix σ) = M self;
    inv_ecols : ncols (exerciseDecisionMatrix σ) = M self;
    inv_prows : nrows (payoffMatrix σ) = N self;
    inv_rows : Forall2 (row_inv (M self) k)
                 (rows (payoffMatrix σ)) (rows (exerciseDecisionMatrix σ));
    inv_dfs : discountFactors σ =
                (λ i : nat, exp (- Stock.r (BSModel.stockObj (modelObj self)) * dt
                                 * INR (i + 1)))
                  <$> seq 0 (M self - 1 - k);
    inv_keys : (results_dict σ).*1 = reverse (seq k (M self - 1 - k)) }.

(** ** The final discounting *)

(** The discount factor line 254 applies to column [i]. *)
Definition final_discount (self : t) (dt : R) (i : nat) : R :=
  exp (- Stock.r (stockObj self) * dt * INR (i + 1)).

(** [Σ_p Σ_i a[p, i] · w i] over the shape [(n, m)]. *)
Definition weighted_total (w : nat → R) (n m : nat) (a : ndarray) : R :=
  sumR ((λ p, sumR ((λ i, entry a p i * w i) <$> seq 0 m)) <$> seq 0 n).

(** A row whose first [j] entries are discounted. *)
Definition discounted_prefix (w : nat → R) (j : nat) (row : list R) : list R :=
  imap (λ i v, if decide (i < j)%nat then v * w i else v) row.

(** The store with the rows of [payoffMatrix] replaced. *)
Definition with_payoff (σ : store) (rs : list (list R)) : store :=
  Store (samplePaths σ) (NdArray (ncols (payoffMatrix σ)) rs)
    (exerciseDecisionMatrix σ) (discountFactors σ) (results_dict σ).

(** ** The regression data *)

(** The regression's dependent variable for path [p] at step [k], in the
    words of the specification: the cash flows of the later steps [s], each
    multiplied by its exercise indicator and discounted over [s - k] periods. *)
Definition future_cash_flow (self : t) (dt : R) (σ : store) (k p : nat) : R :=
  sumR ((λ s, entry (payoffMatrix σ) p s * entry (exerciseDecisionMatrix σ) p s
              * exp (- Stock.r (BSModel.stockObj (modelObj self)) * dt * INR (s - k)))
          <$> seq (k + 1) (BSModel.nSteps (modelObj self) - (k + 1))).

(** The paths in the money at the decision column of step [k]. *)
Definition in_the_money (self : t) (paths : ndarray) (k : nat) : list nat :=
  filter (λ p, entry paths p (k + 1) < Option.strike (optionObj self))
    (seq 0 (BSModel.numberOfPaths (modelObj self))).

(** The dependent variable and the design matrix over the basis {1, X, X²},
    one row per in-the-money path. *)
Definition regression_y (self : t) (dt : R) (σ : store) (k : nat) : list R :=
  future_cash_flow self dt σ k <$> in_the_money self (samplePaths σ) k.

Definition regression_design (self : t) (σ : store) (k : nat) : list (R * R * R) :=
  (λ p, (1, entry (samplePaths σ) p (k + 1), entry (samplePaths σ) p (k + 1) ^ 2))
    <$> in_the_money self (samplePaths σ) k.

(** The data frame of step [k], one row per in-the-money path. *)
Definition regression_rows (self : t) (dt : R) (σ : store) (k : nat)
    : list (R * R * R) :=
  (λ p, (future_cash_flow self dt σ k p, entry (samplePaths σ) p (k + 1),
         entry (samplePaths σ) p (k + 1) ^ 2))
    <$> in_the_money self (samplePaths σ) k.

(** The regressors [X, X_Squared] of step [k] before [sm.add_constant]. *)
Definition regression_X (self : t) (σ : store) (k : nat) : list (R * R) :=
  (λ p, (entry (samplePaths σ) p (k + 1), entry (samplePaths σ) p (k + 1) ^ 2))
    <$> in_the_money self (samplePaths σ) k.

(** The prices of the in-the-money paths of step [k]. *)
Definition in_the_money_prices (self : t) (paths : ndarray) (k : nat) : list R :=
  (λ p, entry paths p (k + 1)) <$> in_the_money self paths k.

(** Whether [sm.add_constant] leaves the design of step [k] without a column
    [const]: the in-the-money prices, or their squares, are all one number
    other than 0. *)
Definition constant_skipped (self : t) (paths : ndarray) (k : nat) : bool :=
  is_nonzero_const (in_the_money_prices self paths k)
  || is_nonzero_const ((λ x, x ^ 2) <$> in_the_money_prices self paths k).

(** ** The value of a path *)

(** The discounted value of path [p] in a payoff matrix. *)
Definition row_value (self : t) (dt : R) (a : ndarray) (p : nat) : R :=
  sumR ((λ i, entry a p i * final_discount self dt i)
          <$> seq 0 (BSModel.nSteps (modelObj self))).

(** ** Examples *)

(** The worked example: eight paths, three exercise dates, strike 1.1, r = 6%. *)
Definition lsm_stock : Stock.t := Stock.Build 1 0.4 0.06.

Definition lsm_option : Option.t := Option.Build 3 3 1.1.

Definition lsm_model : BSModel.t := BSModel.Build lsm_stock lsm_option 8 3.

Definition lsm_am : AmOption.t := AmOption.Build lsm_stock lsm_option lsm_model.

Definition lsm_eur : EurOption.t := EurOption.Build lsm_stock lsm_option.

Definition lsm_paths : ndarray :=
  NdArray 4
    [ [1.00; 1.09; 1.08; 1.34];
      [1.00; 1.16; 1.26; 1.54];
      [1.00; 1.22; 1.07; 1.03];
      [1.00; 0.93; 0.97; 0.92];
      [1.00; 1.11; 1.56; 1.52];
      [1.00; 0.76; 0.77; 0.90];
      [1.00; 0.92; 0.84; 1.01];
      [1.00; 0.88; 1.22; 1.34] ].

(** One period's discount factor [exp(-r·dt)]. *)
Definition lsm_d : R := exp (- 0.06 * 1).

(** The stores after the initialization and after the steps 1 and 0, with
    the design matrices and the coefficients of the two regressions. *)
Definition lsm_σ0 : store :=
  Store lsm_paths
    (NdArray 3 [ [0; 0; 0]; [0; 0; 0]; [0; 0; 0.07]; [0; 0; 0.18];
                 [0; 0; 0]; [0; 0; 0.20]; [0; 0; 0.09]; [0; 0; 0] ])
    (NdArray 3 [ [0; 0; 0]; [0; 0; 0]; [0; 0; 1]; [0; 0; 1];
                 [0; 0; 0]; [0; 0; 1]; [0; 0; 1]; [0; 0; 0] ])
    [] [].

Definition lsm_X1 : list (R * R * R) :=
  [ (1, 1.08, 1.08 ^ 2); (1, 1.07, 1.07 ^ 2); (1, 0.97, 0.97 ^ 2);
    (1, 0.77, 0.77 ^ 2); (1, 0.84, 0.84 ^ 2) ].

Definition lsm_β1 : params :=
  Params (- 2246419497 / 1977217400 * lsm_d) (31318080 / 9886087 * lsm_d)
    (- 19037850 / 9886087 * lsm_d).

Definition lsm_σ1 : store :=
  Store lsm_paths
    (NdArray 3 [ [0; 0; 0]; [0; 0; 0]; [0; 0; 0.07]; [0; 0.13; 0];
                 [0; 0; 0]; [0; 0.33; 0]; [0; 0.26; 0]; [0; 0; 0] ])
    (NdArray 3 [ [0; 0; 0]; [0; 0; 0]; [0; 0; 1]; [0; 1; 0];
                 [0; 0; 0]; [0; 1; 0]; [0; 1; 0]; [0; 0; 0] ])
    [discount_factor lsm_am 1 1] [(1%nat, WithConst lsm_β1)].

Definition lsm_X0 : list (R * R * R) :=
  [ (1, 1.09, 1.09 ^ 2); (1, 0.93, 0.93 ^ 2); (1, 0.76, 0.76 ^ 2);
    (1, 0.92, 0.92 ^ 2); (1, 0.88, 0.88 ^ 2) ].

Definition lsm_β0 : params :=
  Params (266982367 / 123402700 * lsm_d) (- 34964385 / 9872216 * lsm_d)
    (3554825 / 2468054 * lsm_d).

Definition lsm_σ2 : store :=
  Store lsm_paths
    (NdArray 3 [ [0; 0; 0]; [0; 0; 0]; [0; 0; 0.07]; [0.17; 0; 0];
                 [0; 0; 0]; [0.34; 0; 0]; [0.18; 0; 0]; [0.22; 0; 0] ])
    (NdArray 3 [ [0; 0; 0]; [0; 0; 0]; [0; 0; 1]; [1; 0; 0];
                 [0; 0; 0]; [1; 0; 0]; [1; 0; 0]; [1; 0; 0] ])
    [discount_factor lsm_am 1 1; discount_factor lsm_am 1 0]
    [(1%nat, WithConst lsm_β1); (0%nat, WithConst lsm_β0)].

(** Three paths deep in the money that keep falling: holding is worth more
    than exercising on each of them. *)
Definition hold_stock : Stock.t := Stock.Build 10 0.2 0.06.

Definition hold_option : Option.t := Option.Build 2 2 10.

Definition hold_model : BSModel.t := BSModel.Build hold_stock hold_option 3 2.

Definition hold_am : AmOption.t := AmOption.Build hold_stock hold_option hold_model.

Definition hold_paths : ndarray := NdArray 3 [ [10; 9; 5]; [10; 8; 4]; [10; 7; 3] ].

Definition hold_σ0 : store :=
  Store hold_paths (NdArray 2 [ [0; 5]; [0; 6]; [0; 7] ])
    (NdArray 2 [ [0; 1]; [0; 1]; [0; 1] ]) [] [].

Definition hold_X : list (R * R * R) := [ (1, 9, 9 ^ 2); (1, 8, 8 ^ 2); (1, 7, 7 ^ 2) ].

Definition hold_β : params := Params (14 * lsm_d) (- 1 * lsm_d) (0 * lsm_d).

Definition hold_σ1 : store :=
  Store hold_paths (NdArray 2 [ [0; 5]; [0; 6]; [0; 7] ])
    (NdArray 2 [ [0; 1]; [0; 1]; [0; 1] ])
    [discount_factor hold_am 1 0] [(0%nat, WithConst hold_β)].

(** Three in-the-money paths, the middle one recovering to 9.5 at expiry:
    exercising it at the first date pays 2 instead of 0.5. *)
Definition pays_paths : ndarray := NdArray 3 [ [10; 9; 5]; [10; 8; 9.5]; [10; 7; 3] ].

Definition pays_σ0 : store :=
  Store pays_paths (NdArray 2 [ [0; 5]; [0; 0.5]; [0; 7] ])
    (NdArray 2 [ [0; 1]; [0; 1]; [0; 1] ]) [] [].

Definition pays_β : params := Params (721 / 2 * lsm_d) (- 89 * lsm_d) (11 / 2 * lsm_d).

Definition pays_σ1 : store :=
  Store pays_paths (NdArray 2 [ [0; 5]; [2; 0]; [0; 7] ])
    (NdArray 2 [ [0; 1]; [1; 0]; [0; 1] ])
    [discount_factor hold_am 1 0] [(0%nat, WithConst pays_β)].

(** Two paths, both in the money at the first date: a regression on two rows. *)
Definition two_model : BSModel.t := BSModel.Build hold_stock hold_option 2 2.

Definition two_am : AmOption.t := AmOption.Build hold_stock hold_option two_model.

Definition two_paths : ndarray := NdArray 3 [ [10; 9; 5]; [10; 8; 10] ].

Definition two_σ0 : store :=
  Store two_paths (NdArray 2 [ [0; 5]; [0; 0] ]) (NdArray 2 [ [0; 1]; [0; 0] ]) [] [].

Definition two_X : list (R * R * R) := [ (1, 9, 9 ^ 2); (1, 8, 8 ^ 2) ].

(** The line through the two rows: one of their least-squares solutions. *)
Definition two_β : params := Params (- 40 * lsm_d) (5 * lsm_d) 0.

(** Four in-the-money paths at a zero rate.  The fitted continuation value of
    the last one, 0.9905, is below the 1 it pays now and below the 1.02 it pays
    at expiry. *)
Definition dip_stock : Stock.t := Stock.Build 10 0.2 0.

Definition dip_model : BSModel.t := BSModel.Build dip_stock hold_option 4 2.

Definition dip_am : AmOption.t := AmOption.Build dip_stock hold_option dip_model.

Definition dip_eur : EurOption.t := EurOption.Build dip_stock hold_option.

Definition dip_paths : ndarray :=
  NdArray 3 [ [10; 6; 6]; [10; 7; 6.81]; [10; 8; 8]; [10; 9; 8.98] ].

Definition dip_σ0 : store :=
  Store dip_paths (NdArray 2 [ [0; 4]; [0; 3.19]; [0; 2]; [0; 1.02] ])
    (NdArray 2 [ [0; 1]; [0; 1]; [0; 1]; [0; 1] ]) [] [].

Definition dip_X : list (R * R * R) :=
  [ (1, 6, 6 ^ 2); (1, 7, 7 ^ 2); (1, 8, 8 ^ 2); (1, 9, 9 ^ 2) ].

Definition dip_β : params := Params (125 / 16) (- 751 / 2000) (- 17 / 400).

Definition dip_σ1 : store :=
  Store dip_paths (NdArray 2 [ [0; 4]; [0; 3.19]; [0; 2]; [1; 0] ])
    (NdArray 2 [ [0; 1]; [0; 1]; [0; 1]; [1; 0] ])
    [discount_factor dip_am 1 0] [(0%nat, WithConst dip_β)].








(** Two paths of which only the first is in the money at the first date. *)
Definition lone_paths : ndarray := NdArray 3 [ [10; 9; 5]; [10; 11; 10] ].

Definition lone_σ0 : store :=
  Store lone_paths (NdArray 2 [ [0; 5]; [0; 0] ]) (NdArray 2 [ [0; 1]; [0; 0] ]) [] [].

(** An option whose step count is 0, in an object whose model has two steps. *)
Definition stepless_option : Option.t := Option.Build 2 0 10.

Definition stepless_am : AmOption.t := AmOption.Build hold_stock stepless_option hold_model.

(** ** The simulation in closed form *)

(** The time step of the simulation. *)
Definition gbm_dt (self : BSModel.t) : R :=
  Option.timeToExpiry (BSModel.opnObj self) / INR (Option.nSteps (BSModel.opnObj self)).

(** The price of path [p] at date [t] in closed form: the drift over [t]
    steps and the volatility times the sum of the first [t] Brownian
    increments of the path. *)
Definition gbm_price (self : BSModel.t) (Z : ndarray) (p t : nat) : R :=
  Stock.s0 (BSModel.stockObj self)
  * exp ((Stock.r (BSModel.stockObj self)
          - 0.5 * Stock.sigma (BSModel.stockObj self) ^ 2) * gbm_dt self * INR t
         + Stock.sigma (BSModel.stockObj self) * sqrt (gbm_dt self)
           * sumR ((λ u, entry Z p u) <$> seq 0 t)).

(** Row [p] of the matrix once the columns up to [j] are simulated. *)
Definition gbm_row (self : BSModel.t) (Z : ndarray) (j p : nat) : list R :=
  (λ t, if decide (t ≤ j)%nat then gbm_price self Z p t else 0)
    <$> seq 0 (Option.nSteps (BSModel.opnObj self) + 1).

(** The matrix of [numberOfPaths] such rows. *)
Definition gbm_paths (self : BSModel.t) (Z : ndarray) (j : nat) : ndarray :=
  NdArray (Option.nSteps (BSModel.opnObj self) + 1)
    (gbm_row self Z j <$> seq 0 (BSModel.numberOfPaths self)).

(** ** Notions of the further statements *)

(** The mean of the prices in the last column. *)
Definition terminal_mean (paths : ndarray) : R :=
  sumR ((λ p, entry paths p (ncols paths - 1)) <$> seq 0 (nrows paths))
  / INR (nrows paths).

(** What the iteration of step [k] can raise on a matrix of the right shape:
    where [sm.add_constant] leaves the design without a constant, the
    exception of the OLS routine on that design or else the [KeyError] of
    [getContinuationValue]; where the design has its constant, the exception
    of the OLS routine. *)
Definition raised_at (fit : fitter) (self : t) (paths : ndarray) (k : nat) (e : exn)
    : Prop :=
  if constant_skipped self paths k
  then e = KeyError ∨ ∃ y X, length y = length X ∧ ols_no_const fit y X = inl e
  else ∃ y X, length y = length X ∧ fit y X = inl e.

(** What the backward loop can raise: the [ZeroDivisionError] of [getDt] for
    an option whose step count is 0, or what the iteration of a step raises. *)
Definition raised_in_loop (fit : fitter) (self : t) (paths : ndarray) (e : exn) : Prop :=
  (e = ZeroDivisionError ∧ Option.nSteps (optionObj self) = 0%nat)
  ∨ ∃ k, (k + 1 < BSModel.nSteps (modelObj self))%nat ∧ raised_at fit self paths k e.

(** The factor the loop of line 253 applies to column [i]: it ranges over
    [optionObj.nSteps] columns. *)
Definition applied_discount (self : t) (dt : R) (i : nat) : R :=
  if decide (i < Option.nSteps (optionObj self))%nat then final_discount self dt i else 1.

(** ** Further example data *)

(** Draws for three paths of two steps, and draws for two paths only. *)
Definition draws : ndarray := NdArray 2 [ [0.1; - 0.2]; [0; 0.3]; [- 0.1; 0.1] ].
Definition few_draws : ndarray := NdArray 2 [ [0.1; 0.2]; [0; 0] ].

(** A stock without volatility. *)
Definition calm_stock : Stock.t := Stock.Build 10 0 0.06.
Definition calm_model : BSModel.t := BSModel.Build calm_stock hold_option 3 2.

(** A put struck above every price of the stock without volatility. *)
Definition deep_option : Option.t := Option.Build 2 2 12.
Definition deep_model : BSModel.t := BSModel.Build calm_stock deep_option 3 2.
Definition deep_am : AmOption.t := AmOption.Build calm_stock deep_option deep_model.

(** An option with a single exercise date. *)
Definition one_option : Option.t := Option.Build 1 1 10.
Definition one_model : BSModel.t := BSModel.Build hold_stock one_option 3 1.
Definition one_am : AmOption.t := AmOption.Build hold_stock one_option one_model.

(** The European option on the stock of the run without early exercise. *)
Definition hold_eur : EurOption.t := EurOption.Build hold_stock hold_option.

(** The distribution function of the logistic law, which stands in for
    [norm.cdf] where a concrete function is needed. *)
Definition logistic (x : R) : R := 1 / (1 + exp (- x)).

(** * Basic facts about the result monad and the array operations *)

Lemma bind_inr {A B : Type} (m : result A) (f : A → result B) (b : B) :
  m ≫= f = inr b → ∃ a, m = inr a ∧ f a = inr b.
Proof. destruct m as [e|a]; simpl; [discriminate | eauto]. Qed.

Ltac inv_bind H :=
  let a := fresh "a" in
  let Ha := fresh "Ha" in
  apply bind_inr in H as (a & Ha & H).

Lemma col_inr (a : ndarray) (j : nat) (v : list R) :
  col a j = inr v →
  (j < ncols a)%nat ∧ v = (λ row, default 0 (row !! j)) <$> rows a.
Proof. unfold col. case_decide; naive_solver. Qed.

Lemma col_length (a : ndarray) (j : nat) (v : list R) :
  col a j = inr v → length v = nrows a.
Proof. intros [_ ->]%col_inr. by rewrite length_fmap. Qed.

Lemma last_col_inr (a : ndarray) (v : list R) :
  last_col a = inr v → (0 < ncols a)%nat ∧ col a (ncols a - 1) = inr v.
Proof. unfold last_col. case_decide; [discriminate|]. intros. split; [lia|done]. Qed.

Lemma broadcast_to_inr (n : nat) (v v' : list R) :
  broadcast_to n v = inr v' →
  length v' = n ∧ (v' = v ∨ ∃ x, v = [x] ∧ v' = replicate n x).
Proof.
  unfold broadcast_to. case_decide as Hn.
  - intros [= <-]. auto.
  - destruct v as [|x [|]]; try discriminate. intros [= <-].
    rewrite length_replicate. eauto.
Qed.

Lemma broadcast_to_same (n : nat) (v : list R) :
  length v = n → broadcast_to n v = inr v.
Proof. intros. unfold broadcast_to. by rewrite decide_True. Qed.

Lemma set_col_inr (a a' : ndarray) (j : nat) (v : list R) :
  set_col a j v = inr a' →
  (j < ncols a)%nat ∧
  ∃ v', broadcast_to (nrows a) v = inr v'
        ∧ a' = NdArray (ncols a) (zip_with (λ row x, <[j:=x]> row) (rows a) v').
Proof.
  unfold set_col. case_decide; [|discriminate]. intros H'.
  inv_bind H'. injection H' as <-. eauto.
Qed.

Lemma zip_with_insert_rectangular (m j : nat) (rs : list (list R)) (v : list R) :
  Forall (λ row, length row = m) rs →
  Forall (λ row, length row = m) (zip_with (λ row x, <[j:=x]> row) rs v).
Proof.
  intros Hrs. revert v. induction Hrs as [|row rs Hrow _ IH]; intros [|x v]; simpl;
    try constructor; auto. by rewrite length_insert.
Qed.

Lemma set_col_shaped (n m : nat) (a a' : ndarray) (j : nat) (v : list R) :
  shaped n m a → set_col a j v = inr a' → shaped n m a'.
Proof.
  intros (Hc & Hr & Hrect) (Hj & v' & Hb & ->)%set_col_inr.
  apply broadcast_to_inr in Hb as [Hlen _].
  repeat split; simpl; auto.
  - unfold nrows in *. simpl. rewrite length_zip_with. lia.
  - unfold rectangular in *. simpl. by apply zip_with_insert_rectangular.
Qed.

Lemma zeros_shaped (n m : nat) : shaped n m (zeros n m).
Proof.
  repeat split; simpl.
  - unfold nrows. simpl. by rewrite length_replicate.
  - unfold rectangular. simpl. apply Forall_replicate. by rewrite length_replicate.
Qed.

Lemma zero_rows_from_inr (a a' : ndarray) (c : list bool) (k : nat) :
  zero_rows_from a c k = inr a' →
  length c = nrows a ∧
  a' = NdArray (ncols a)
         (zip_with (λ row (b : bool),
                      if b then take k row ++ replicate (length row - k) 0 else row)
                   (rows a) c).
Proof. unfold zero_rows_from. case_decide; naive_solver. Qed.

Lemma zero_rows_from_shaped (n m : nat) (a a' : ndarray) (c : list bool) (k : nat) :
  shaped n m a → zero_rows_from a c k = inr a' → shaped n m a'.
Proof.
  intros (Hc & Hr & Hrect) [Hlen ->]%zero_rows_from_inr.
  repeat split; simpl; auto.
  - unfold nrows in *. simpl. rewrite length_zip_with. lia.
  - unfold rectangular in *. simpl. clear Hr Hlen. revert c.
    induction Hrect as [|row rs Hrow _ IH]; intros [|b c]; simpl; try constructor; auto.
    destruct b; [|done]. rewrite length_app, length_take, length_replicate. lia.
Qed.

Lemma broadcast2_same {A B C : Type} (f : A → B → C) (a : list A) (b : list B) :
  length a = length b → broadcast2 f a b = inr (zip_with f a b).
Proof. intros. unfold broadcast2. by rewrite decide_True. Qed.

(** Reading back the column that was just written. *)
Lemma col_zip_with_insert (m j : nat) (rs : list (list R)) (v : list R) :
  (j < m)%nat → Forall (λ row, length row = m) rs → length v = length rs →
  (λ row, default 0 (row !! j)) <$> zip_with (λ row x, <[j:=x]> row) rs v = v.
Proof.
  intros Hj Hrs. revert v. induction Hrs as [|row rs Hrow _ IH]; intros [|x v] Hlen;
    simpl in *; try done.
  rewrite list_lookup_insert_eq by lia. simpl. f_equal. apply IH. lia.
Qed.

Lemma col_set_col (n m : nat) (a a' : ndarray) (j : nat) (v : list R) :
  shaped n m a → set_col a j v = inr a' →
  ∃ v', broadcast_to n v = inr v' ∧ col a' j = inr v'.
Proof.
  intros (Hc & Hr & Hrect) (Hj & v' & Hb & ->)%set_col_inr.
  rewrite Hr in Hb. exists v'. split; [done|].
  unfold col. simpl. rewrite decide_True by done. f_equal.
  apply broadcast_to_inr in Hb as [Hlen _].
  eapply col_zip_with_insert; eauto. unfold nrows in Hr. lia.
Qed.

(** * One iteration of the backward loop, row by row *)

Section list_facts.

Context {A B C D E : Type}.

Lemma zip_with_zip_with_fmap (g : C → D → E) (h : A → B → C) (k : B → D)
    (l : list A) (x : list B) :
  zip_with g (zip_with h l x) (k <$> x) = zip_with (λ a b, g (h a b) (k b)) l x.
Proof.
  revert x. induction l as [|a l IH]; intros [|b x]; simpl; try done.
  f_equal. apply IH.
Qed.

Lemma zip_with_fmap_same (g : C → D → E) (h : B → C) (k : B → D) (x : list B) :
  zip_with g (h <$> x) (k <$> x) = (λ b, g (h b) (k b)) <$> x.
Proof. induction x as [|b x IH]; simpl; [done|]. f_equal. apply IH. Qed.

Lemma zip_with_fmap_r' (g : A → D → E) (k : B → D) (l : list A) (x : list B) :
  zip_with g l (k <$> x) = zip_with (λ a b, g a (k b)) l x.
Proof.
  revert x. induction l as [|a l IH]; intros [|b x]; simpl; try done.
  f_equal. apply IH.
Qed.

End list_facts.

Lemma broadcast_to_eq (n : nat) (v v' : list R) :
  broadcast_to n v = inr v' → length v = n → v' = v.
Proof. unfold broadcast_to. intros H Hn. rewrite decide_True in H by done. congruence. Qed.

Lemma cols_from_set_col_rows (j k : nat) (rs : list (list R)) (v : list R) :
  (j < k)%nat → length v = length rs →
  drop k <$> zip_with (λ row x, <[j:=x]> row) rs v = drop k <$> rs.
Proof.
  intros Hjk. revert v. induction rs as [|row rs IH]; intros [|x v] Hlen; simpl in *;
    try done.
  rewrite drop_insert_lt by lia. f_equal. apply IH. lia.
Qed.

Lemma row_product_sums_length (dfs : list R) (ps es : list (list R)) (Y : list R) :
  row_product_sums dfs ps es = inr Y → length Y = Nat.min (length ps) (length es).
Proof.
  revert es Y. induction ps as [|p ps IH]; intros [|e es] Y; simpl;
    try (intros [= <-]; done).
  intros H. inv_bind H. inv_bind H. injection H as <-. simpl. f_equal. eauto.
Qed.

Lemma regressionFunction_lengths (fit : fitter) (self : AmOption.t)
    (P X E : ndarray) (dfs : list R) out :
  AmOption.regressionFunction fit self P X E dfs = inr out →
  nrows X = Nat.min (nrows P) (nrows E).
Proof.
  unfold AmOption.regressionFunction. intros H.
  inv_bind H. inv_bind H. inv_bind H. inv_bind H. case_decide as Hlen; [|discriminate].
  apply row_product_sums_length in Ha0. apply col_length in Ha1. unfold nrows in *. lia.
Qed.

(** With a constant among the coefficients the continuation value is the
    fitted polynomial; without one the lookup of [const] raises. *)
Lemma getContinuationValue_const (self : AmOption.t) (β : params) (x imm : list R) :
  AmOption.getContinuationValue self (WithConst β) x imm = inr (fitted β <$> x).
Proof. reflexivity. Qed.

Lemma getContinuationValue_no_const (self : AmOption.t) (b : R * R) (x imm : list R) :
  AmOption.getContinuationValue self (NoConst b) x imm = inl KeyError.
Proof. reflexivity. Qed.

Lemma exercise_condition (self : AmOption.t) (β : params) (x : list R) :
  zip_with andb
    (zip_with (λ p c, bool_decide (c < p)) (AmOption.payOff self x) (fitted β <$> x))
    ((λ p, bool_decide (0 < p)) <$> AmOption.payOff self x)
  = exercises self β <$> x.
Proof.
  unfold AmOption.payOff.
  rewrite zip_with_fmap_same, <- !list_fmap_compose, zip_with_fmap_same.
  apply list_fmap_ext. intros _ xp _. reflexivity.
Qed.

Lemma payOff_length self x : length (payOff self x) = length x.
Proof. unfold payOff. by rewrite length_fmap. Qed.

Lemma set_col_eq (n m : nat) (a : ndarray) (j : nat) (v : list R) :
  shaped n m a → (j < m)%nat → length v = n →
  set_col a j v = inr (NdArray m (zip_with (λ row x, <[j:=x]> row) (rows a) v)).
Proof.
  intros (Hc & Hr & _) Hj Hv. unfold set_col.
  rewrite decide_True by lia. rewrite broadcast_to_same by lia. simpl. by rewrite Hc.
Qed.

Lemma col_eq (a : ndarray) (j : nat) :
  (j < ncols a)%nat → col a j = inr ((λ row, default 0 (row !! j)) <$> rows a).
Proof. intros. unfold col. by rewrite decide_True. Qed.

Lemma immediate_payoff_eq (self : t) (dt : R) (k : nat) (σ : store)
    (n m : nat) (x : list R) :
  shaped n m (payoffMatrix σ) → shaped n m (exerciseDecisionMatrix σ) →
  (k < m)%nat → col (samplePaths σ) (k + 1) = inr x → length x = n →
  immediate_payoff self dt k σ =
    inr (Store (samplePaths σ)
           (NdArray m (zip_with (λ row v, <[k:=v]> row) (rows (payoffMatrix σ))
                         (payOff self x)))
           (NdArray m (zip_with (λ row v, <[k:=v]> row) (rows (exerciseDecisionMatrix σ))
                         (where_positive (payOff self x))))
           (discountFactors σ ++ [discount_factor self dt k])
           (results_dict σ)).
Proof.
  intros HP HE Hk Hx Hlen. unfold immediate_payoff. rewrite Hx. simpl.
  rewrite (set_col_eq n m) by (rewrite ?payOff_length; done). simpl.
  rewrite col_eq by done. simpl.
  destruct HP as (HPc & HPr & HPrect).
  rewrite (col_zip_with_insert m); [|done|..].
  - rewrite (set_col_eq n m); [done..|].
    unfold where_positive. by rewrite length_fmap, payOff_length.
  - unfold rectangular in HPrect. by rewrite HPc in HPrect.
  - rewrite payOff_length. unfold nrows in HPr. lia.
Qed.

Lemma zip_with_insert_length (j : nat) (rs : list (list R)) (v : list R) :
  length v = length rs →
  length (zip_with (λ row x, <[j:=x]> row) rs v) = length rs.
Proof. intros. rewrite length_zip_with. lia. Qed.

Lemma insert_shaped (n m j : nat) (rs : list (list R)) (v : list R) :
  length rs = n → Forall (λ row, length row = m) rs → length v = n →
  shaped n m (NdArray m (zip_with (λ row x, <[j:=x]> row) rs v)).
Proof.
  intros Hn Hrs Hv. repeat split; simpl.
  - unfold nrows. simpl. rewrite zip_with_insert_length; lia.
  - unfold rectangular. simpl. by apply zip_with_insert_rectangular.
Qed.

Lemma exercise_decision_eq (self : t) (k : nat) (β : params)
    (paths : ndarray) (rowsP rowsE : list (list R)) (dfs : list R)
    (rd : list (nat * series)) (n m : nat) (x : list R) :
  length rowsP = n → Forall (λ row, length row = m) rowsP →
  length rowsE = n → Forall (λ row, length row = m) rowsE →
  (k < m)%nat → col paths (k + 1) = inr x → length x = n →
  exercise_decision self k (WithConst β)
    (Store paths
       (NdArray m (zip_with (λ row v, <[k:=v]> row) rowsP (payOff self x)))
       (NdArray m (zip_with (λ row v, <[k:=v]> row) rowsE
                     (where_positive (payOff self x))))
       dfs rd)
  = inr (Store paths
           (NdArray m (zip_with (payoff_row self k β) rowsP x))
           (NdArray m (zip_with (exercise_row self k β) rowsE x))
           dfs rd).
Proof.
  intros HPn HPm HEn HEm Hk Hx Hlen.
  assert (Hpo : length (payOff self x) = n) by by rewrite payOff_length.
  assert (Hwp : length (where_positive (payOff self x)) = n)
    by (unfold where_positive; by rewrite length_fmap).
  unfold exercise_decision. simpl. rewrite Hx. simpl.
  rewrite col_eq by done. simpl.
  rewrite (col_zip_with_insert m) by (done || lia).
  change (λ x0 : R, const β + coef_X β * x0 + coef_X_Squared β * (x0 * (x0 * 1)))
    with (fitted β).
  rewrite broadcast2_same by (rewrite length_fmap, payOff_length; done).
  simpl.
  rewrite broadcast2_same
    by (rewrite length_zip_with, !length_fmap, payOff_length; lia).
  simpl. rewrite exercise_condition.
  rewrite broadcast2_same by (rewrite length_fmap, payOff_length; done).
  simpl.
  pose proof (insert_shaped n m k rowsP (payOff self x) HPn HPm Hpo) as HP1.
  pose proof (insert_shaped n m k rowsE _ HEn HEm Hwp) as HE1.
  rewrite (set_col_eq n m _ _ _ HP1 Hk)
    by (rewrite length_zip_with, length_fmap, payOff_length; lia).
  simpl.
  rewrite (set_col_eq n m _ _ _ HE1 Hk) by (rewrite !length_fmap; lia).
  simpl. unfold zero_rows_from, nrows. simpl.
  rewrite !decide_True
    by (rewrite length_fmap, !length_zip_with, ?length_fmap, ?payOff_length; lia).
  simpl. f_equal. unfold payOff, where_positive.
  rewrite zip_with_fmap_same, <- !list_fmap_compose.
  rewrite (zip_with_fmap_r' _ _ rowsP), (zip_with_fmap_r' _ _ rowsE).
  rewrite !zip_with_zip_with_fmap.
  f_equal; f_equal; apply zip_with_ext; try done.
  - intros row xp. unfold payoff_row, row_after_decision. simpl.
    rewrite list_insert_insert_eq, length_insert. done.
  - intros row xp. unfold exercise_row, row_after_decision. simpl.
    rewrite list_insert_insert_eq, length_insert. done.
Qed.

Lemma cols_from_nrows (a : ndarray) (k : nat) : nrows (cols_from a k) = nrows a.
Proof. unfold nrows, cols_from. simpl. by rewrite length_fmap. Qed.

Lemma cols_from_insert (m j k : nat) (a : ndarray) (v : list R) :
  ncols a = m → (j < k)%nat → length v = nrows a →
  cols_from (NdArray m (zip_with (λ row x, <[j:=x]> row) (rows a) v)) k = cols_from a k.
Proof.
  intros Hm Hjk Hv. unfold cols_from. simpl. rewrite Hm. f_equal.
  by apply cols_from_set_col_rows.
Qed.

(** Without a constant among the coefficients the exercise decision ends in
    the [KeyError] of [getContinuationValue], once its arguments are read. *)
Lemma exercise_decision_no_const (self : t) (k : nat) (b : R * R) (σ : store)
    (x : list R) :
  col (samplePaths σ) (k + 1) = inr x → (k < ncols (payoffMatrix σ))%nat →
  exercise_decision self k (NoConst b) σ = inl KeyError.
Proof.
  intros Hx Hk. unfold exercise_decision. rewrite Hx. cbn [mbind result_bind].
  by rewrite col_eq by done.
Qed.

Lemma loop_body_eq (fit : fitter) (self : t) (dt : R) (k : nat) (σ : store)
    (n m : nat) (x : list R) :
  shaped n m (payoffMatrix σ) → shaped n m (exerciseDecisionMatrix σ) →
  (k < m)%nat → col (samplePaths σ) (k + 1) = inr x → length x = n →
  loop_body fit self dt k σ =
    reg ← regressionFunction fit self
            (cols_from (payoffMatrix σ) (k + 1))
            (cols_from (samplePaths σ) (k + 1))
            (cols_from (exerciseDecisionMatrix σ) (k + 1))
            (discountFactors σ ++ [discount_factor self dt k]);
    match reg.1 with
    | WithConst β => inr (store_after_step self dt k σ x β)
    | NoConst _ => inl KeyError
    end.
Proof.
  intros HP HE Hk Hx Hlen. unfold loop_body.
  rewrite (immediate_payoff_eq self dt k σ n m x) by done. simpl.
  unfold regression_step. simpl.
  destruct HP as (HPc & HPr & HPrect), HE as (HEc & HEr & HErect).
  rewrite !cols_from_insert
    by (done || lia || (unfold where_positive; rewrite ?length_fmap, payOff_length; lia)).
  destruct (regressionFunction _ _ _ _ _ _) as [e|[[β|b] frame]];
    cbn [mbind result_bind mret result_ret fst snd]; [done| |].
  - unfold rectangular in *. rewrite HPc in HPrect. rewrite HEc in HErect.
    rewrite (exercise_decision_eq self k β _ _ _ _ _ n m x) by done.
    unfold store_after_step. by rewrite HPc, HEc.
  - by apply (exercise_decision_no_const self k b _ x).
Qed.

Lemma loop_body_inr (fit : fitter) (self : t) (dt : R) (k : nat) (σ σ' : store)
    (n m : nat) :
  shaped n m (payoffMatrix σ) → shaped n m (exerciseDecisionMatrix σ) →
  loop_body fit self dt k σ = inr σ' →
  ∃ x β frame,
    (k < m)%nat ∧ col (samplePaths σ) (k + 1) = inr x ∧ length x = n
    ∧ regressionFunction fit self
        (cols_from (payoffMatrix σ) (k + 1))
        (cols_from (samplePaths σ) (k + 1))
        (cols_from (exerciseDecisionMatrix σ) (k + 1))
        (discountFactors σ ++ [discount_factor self dt k]) = inr (WithConst β, frame)
    ∧ σ' = store_after_step self dt k σ x β.
Proof.
  intros HP HE Hrun.
  assert (∃ x, (k < m)%nat ∧ col (samplePaths σ) (k + 1) = inr x ∧ length x = n)
    as (x & Hk & Hx & Hlen).
  { unfold loop_body in Hrun. inv_bind Hrun. rename a into σ1.
    inv_bind Hrun. rename a into r2.
    unfold immediate_payoff in Ha. inv_bind Ha. rename a into x.
    inv_bind Ha. rename a into pm1. inv_bind Ha. rename a into pt.
    inv_bind Ha. rename a into em1. injection Ha as <-.
    pose proof (set_col_shaped _ _ _ _ _ _ HP Ha2) as HP1.
    pose proof (set_col_shaped _ _ _ _ _ _ HE Ha4) as HE1.
    apply set_col_inr in Ha2 as [Hk _]. destruct HP as [HPc _].
    exists x. split; [lia|]. split; [done|].
    unfold regression_step in Ha0. simpl in Ha0. inv_bind Ha0.
    apply regressionFunction_lengths in Ha. rewrite !cols_from_nrows in Ha.
    destruct HP1 as (_ & HP1r & _), HE1 as (_ & HE1r & _).
    rewrite HP1r, HE1r in Ha. apply col_length in Ha1. lia. }
  exists x. rewrite (loop_body_eq fit self dt k σ n m x) in Hrun by done.
  inv_bind Hrun. destruct a as [[β|b] frame]; [|discriminate]. injection Hrun as <-.
  exists β, frame. done.
Qed.

(** * The invariant of a row *)

Lemma row_after_decision_length (k : nat) (c : bool) (v : R) (row : list R) :
  (k < length row)%nat → length (row_after_decision k c v row) = length row.
Proof.
  intros Hk. unfold row_after_decision. destruct c.
  - rewrite length_app, length_take, length_replicate, length_insert. lia.
  - by rewrite length_insert.
Qed.

Lemma row_after_exercise_lookup (k : nat) (v : R) (row : list R) (i : nat) :
  (k < length row)%nat →
  row_after_decision k true v row !! i =
    if decide (i < k)%nat then row !! i
    else if decide (i = k) then Some v
    else if decide (i < length row)%nat then Some 0 else None.
Proof.
  intros Hk. unfold row_after_decision.
  assert (length (take (k + 1) (<[k:=v]> row)) = (k + 1)%nat) as Htake
    by (rewrite length_take, length_insert; lia).
  repeat case_decide; subst.
  - rewrite lookup_app_l by lia. rewrite lookup_take_lt by lia.
    by rewrite list_lookup_insert_ne by lia.
  - rewrite lookup_app_l by lia. rewrite lookup_take_lt by lia.
    by rewrite list_lookup_insert_eq by lia.
  - rewrite lookup_app_r by lia. apply lookup_replicate_2. lia.
  - apply lookup_ge_None. rewrite length_app, length_replicate. lia.
Qed.

Lemma row_after_no_exercise (k : nat) (row : list R) :
  row !! k = Some 0 → row_after_decision k false 0 row = row.
Proof. intros. unfold row_after_decision. by apply list_insert_id. Qed.

Lemma intrinsic_nonneg (self : t) (x : R) : 0 <= intrinsic self x.
Proof. unfold intrinsic. apply Rmax_r. Qed.

Lemma exercises_positive (self : t) (β : params) (x : R) :
  exercises self β x = true → 0 < intrinsic self x ∧ fitted β x < intrinsic self x.
Proof.
  unfold exercises. intros [H1 H2]%andb_prop.
  apply bool_decide_eq_true in H1, H2. done.
Qed.

Lemma row_inv_once_exercise (m k : nat) (prow erow : list R) :
  row_inv m k prow erow → at_most_one_nonzero erow.
Proof.
  intros [Hpl Hel _ Honce _ Hind] i j x y Hi Hj Hx Hy.
  destruct (prow !! i) as [vi|] eqn:Hpi.
  2: { apply lookup_ge_None in Hpi. apply lookup_lt_Some in Hi. lia. }
  destruct (prow !! j) as [vj|] eqn:Hpj.
  2: { apply lookup_ge_None in Hpj. apply lookup_lt_Some in Hj. lia. }
  apply Hind in Hpi as Hei, Hpj as Hej. rewrite Hi in Hei. rewrite Hj in Hej.
  apply (Honce i j vi vj); auto.
  - intros ->. injection Hei as ->. rewrite decide_False in Hx by lra. done.
  - intros ->. injection Hej as ->. rewrite decide_False in Hy by lra. done.
Qed.

Lemma row_inv_step (self : t) (β : params) (x : R) (m k : nat) (prow erow : list R) :
  (k < m)%nat → row_inv m (k + 1) prow erow →
  row_inv m k (payoff_row self k β prow x) (exercise_row self k β erow x).
Proof.
  intros Hk [Hpl Hel Hzero Honce Hnn Hind].
  assert (prow !! k = Some 0) as Hpk by (apply Hzero; lia).
  assert (erow !! k = Some 0) as Hek.
  { apply Hind in Hpk. by rewrite decide_False in Hpk by lra. }
  unfold payoff_row, exercise_row.
  destruct (exercises self β x) eqn:Hex.
  - apply exercises_positive in Hex as [Hpos _].
    split.
    + rewrite row_after_decision_length; lia.
    + rewrite row_after_decision_length; lia.
    + intros i Hi. rewrite row_after_exercise_lookup by lia.
      rewrite decide_True by lia. apply Hzero. lia.
    + intros i j vi vj. rewrite !row_after_exercise_lookup by lia.
      intros Hi Hj Hvi Hvj.
      assert (∀ i v, (if decide (i < k)%nat then prow !! i
                      else if decide (i = k) then Some (intrinsic self x)
                      else if decide (i < length prow)%nat then Some 0 else None)
                     = Some v → v ≠ 0 → i = k) as Hone.
      { clear -Hzero. intros i v Hi Hv. repeat case_decide; try done.
        - rewrite Hzero in Hi by lia. congruence.
        - congruence. }
      rewrite (Hone i vi), (Hone j vj); done.
    + intros i v. rewrite row_after_exercise_lookup by lia.
      repeat case_decide; try done.
      * apply Hnn.
      * intros [= <-]. lra.
      * intros [= <-]. lra.
    + intros i v. rewrite !row_after_exercise_lookup by lia.
      rewrite Hpl, Hel.
      destruct (decide (i < k)%nat); [apply Hind|].
      destruct (decide (i = k)); [intros [= <-]; by rewrite decide_True|].
      destruct (decide (i < m)%nat); [|done].
      intros [= <-]. by rewrite decide_False by lra.
  - rewrite !row_after_no_exercise by done.
    split; auto. intros i Hi. apply Hzero. lia.
Qed.

Lemma row_inv_unchanged (self : t) (β : params) (x : R) (m k : nat) (prow erow : list R) :
  row_inv m (k + 1) prow erow → exercises self β x = false →
  payoff_row self k β prow x = prow ∧ exercise_row self k β erow x = erow.
Proof.
  intros [Hpl Hel Hzero Honce Hnn Hind] Hex.
  assert (prow !! k = Some 0) as Hpk by (apply Hzero; lia).
  assert (erow !! k = Some 0) as Hek.
  { apply Hind in Hpk. by rewrite decide_False in Hpk by lra. }
  unfold payoff_row, exercise_row. rewrite Hex.
  by rewrite !row_after_no_exercise.
Qed.

(** * The invariant of the store *)

Lemma for_each_app {A : Type} (body : nat → A → result A) (xs ys : list nat) (σ : A) :
  for_each body (xs ++ ys) σ = for_each body xs σ ≫= for_each body ys.
Proof.
  revert σ. induction xs as [|x xs IH]; intros σ; simpl; [done|].
  destruct (body x σ) as [e|σ']; simpl; [done|]. apply IH.
Qed.

Lemma initialize_inr (self : t) (paths : ndarray) (σ0 : store) :
  initialize self paths = inr σ0 →
  ∃ last e,
    last_col paths = inr last ∧ (0 < M self)%nat
    ∧ broadcast_to (N self) (payOff self last) = inr e
    ∧ σ0 = Store paths
             (NdArray (M self) (terminal_row (M self) <$> e))
             (NdArray (M self)
                ((λ v, terminal_row (M self) (if decide (0 < v) then 1 else 0)) <$> e))
             [] [].
Proof.
  unfold initialize. intros H.
  inv_bind H. rename a into last. inv_bind H. rename a into pm.
  inv_bind H. rename a into plast. inv_bind H. rename a into em.
  injection H as <-.
  unfold set_last_col in Ha0, Ha2. simpl in *.
  case_decide as HM; [discriminate|].
  pose proof (zeros_shaped (N self) (M self)) as Hz.
  destruct (col_set_col _ _ _ _ _ _ Hz Ha0) as (e & He & Hcol).
  apply set_col_inr in Ha0 as (_ & e' & He' & ->). simpl in *.
  unfold nrows in He'. simpl in He'. rewrite length_replicate in He'.
  assert (e' = e) as -> by congruence.
  apply broadcast_to_inr in He' as [Hlen _].
  unfold last_col in Ha1. simpl in Ha1. rewrite decide_False in Ha1 by done.
  assert (plast = e) as -> by congruence.
  apply set_col_inr in Ha2 as (_ & w & Hw & ->). simpl in *.
  unfold nrows in Hw. simpl in Hw. rewrite length_replicate in Hw.
  apply broadcast_to_eq in Hw;
    [|unfold where_positive; by rewrite length_fmap].
  subst w. exists last, e. split; [exact Ha|]. split; [lia|]. split; [exact He|].
  rewrite zip_with_replicate_l by lia.
  unfold where_positive. rewrite zip_with_fmap_r'.
  rewrite zip_with_replicate_l by lia. done.
Qed.

Lemma payOff_nonneg (self : t) (x : list R) : Forall (λ v, 0 <= v) (payOff self x).
Proof. unfold payOff. apply Forall_fmap, Forall_true. intros v. apply Rmax_r. Qed.

Lemma broadcast_to_Forall (P : R → Prop) (n : nat) (v v' : list R) :
  broadcast_to n v = inr v' → Forall P v → Forall P v'.
Proof.
  intros [_ [->|(x & -> & ->)]]%broadcast_to_inr Hv; [done|].
  apply Forall_replicate. by apply Forall_inv in Hv.
Qed.

Lemma terminal_row_inv (m : nat) (v : R) :
  (0 < m)%nat → 0 <= v →
  row_inv m (m - 1) (terminal_row m v)
    (terminal_row m (if decide (0 < v) then 1 else 0)).
Proof.
  intros Hm Hv. unfold terminal_row.
  assert (∀ (w : R) i u, <[(m - 1)%nat:=w]> (replicate m 0) !! i = Some u →
            (i = (m - 1)%nat ∧ u = w) ∨ (i ≠ (m - 1)%nat ∧ u = 0)) as Hlk.
  { intros w i u. destruct (decide (i = (m - 1)%nat)) as [->|Hne].
    - rewrite list_lookup_insert_eq by (rewrite length_replicate; lia). naive_solver.
    - rewrite list_lookup_insert_ne by done. intros [-> _]%lookup_replicate_1. auto. }
  split.
  - by rewrite length_insert, length_replicate.
  - by rewrite length_insert, length_replicate.
  - intros i Hi. rewrite list_lookup_insert_ne by lia. apply lookup_replicate_2. lia.
  - intros i j x y Hi Hj Hx Hy.
    apply Hlk in Hi as [[-> _]|[_ ->]]; [|done].
    apply Hlk in Hj as [[-> _]|[_ ->]]; done.
  - intros i u [[_ ->]|[_ ->]]%Hlk; lra.
  - intros i u Hi. pose proof (lookup_lt_Some _ _ _ Hi) as Hlt.
    rewrite length_insert, length_replicate in Hlt.
    apply Hlk in Hi as [[-> ->]|[Hne ->]].
    + by rewrite list_lookup_insert_eq by (rewrite length_replicate; lia).
    + rewrite list_lookup_insert_ne by done.
      rewrite decide_False by lra. apply lookup_replicate_2. lia.
Qed.

Lemma store_inv_shaped (self : t) (dt : R) (paths : ndarray) (k : nat) (σ : store) :
  store_inv self dt paths k σ →
  shaped (N self) (M self) (payoffMatrix σ)
  ∧ shaped (N self) (M self) (exerciseDecisionMatrix σ).
Proof.
  intros [_ Hpc Hec Hpr Hrows _ _].
  pose proof (Forall2_length _ _ _ Hrows) as Hlen.
  unfold shaped, rectangular, nrows in *. rewrite Hpc, Hec.
  repeat split; try lia.
  - eapply Forall2_Forall_l; [done|]. apply Forall_true. by intros ?? [].
  - eapply Forall2_Forall_r; [done|]. apply Forall_true. by intros ?? [].
Qed.

Lemma initialize_inv (self : t) (dt : R) (paths : ndarray) (σ0 : store) :
  initialize self paths = inr σ0 → store_inv self dt paths (M self - 1) σ0.
Proof.
  intros (last & e & Hlast & HM & He & ->)%initialize_inr.
  pose proof (broadcast_to_Forall _ _ _ _ He (payOff_nonneg self last)) as Hnn.
  apply broadcast_to_inr in He as [Hlen _].
  split; simpl; try done.
  - unfold nrows. simpl. by rewrite length_fmap.
  - apply Forall2_fmap, Forall_Forall2_diag.
    eapply Forall_impl; [done|]. intros v Hv. simpl. by apply terminal_row_inv.
  - by replace (M self - 1 - (M self - 1))%nat with 0%nat by lia.
  - by replace (M self - 1 - (M self - 1))%nat with 0%nat by lia.
Qed.

Lemma rows_inv_step (self : t) (β : params) (m k : nat)
    (rowsP rowsE : list (list R)) (x : list R) :
  (k < m)%nat → Forall2 (row_inv m (k + 1)) rowsP rowsE → length x = length rowsP →
  Forall2 (row_inv m k)
    (zip_with (payoff_row self k β) rowsP x)
    (zip_with (exercise_row self k β) rowsE x).
Proof.
  intros Hk Hrows. revert x.
  induction Hrows as [|prow erow rowsP rowsE Hrow _ IH]; intros [|xp x] Hlen;
    simpl in *; try done; try constructor.
  - by apply row_inv_step.
  - apply IH. lia.
Qed.

Lemma discount_factor_INR (self : t) (dt : R) (k : nat) :
  (k + 1 < M self)%nat →
  discount_factor self dt k =
    exp (- Stock.r (BSModel.stockObj (modelObj self)) * dt
         * INR (M self - 2 - k + 1)).
Proof.
  intros Hk. unfold discount_factor. rewrite INR_IZR_INZ. do 3 f_equal. lia.
Qed.

Lemma backward_range_lookup (m j : nat) :
  (j < m - 1)%nat → backward_range m !! j = Some (m - 2 - j)%nat.
Proof.
  intros Hj. unfold backward_range.
  rewrite reverse_lookup by (rewrite length_seq; lia).
  rewrite length_seq. rewrite lookup_seq_lt by lia. f_equal. lia.
Qed.

Lemma backward_range_length (m : nat) : length (backward_range m) = (m - 1)%nat.
Proof. unfold backward_range. by rewrite length_reverse, length_seq. Qed.

Lemma loop_body_inv (fit : fitter) (self : t) (dt : R) (paths : ndarray) (k : nat)
    (σ σ' : store) :
  (k + 1 < M self)%nat → store_inv self dt paths (k + 1) σ →
  loop_body fit self dt k σ = inr σ' → store_inv self dt paths k σ'.
Proof.
  intros Hk Hinv Hrun.
  destruct (store_inv_shaped _ _ _ _ _ Hinv) as [HP HE].
  destruct (loop_body_inr _ _ _ _ _ _ _ _ HP HE Hrun)
    as (x & β & frame & _ & Hx & Hlen & _ & ->).
  destruct Hinv as [Hpaths Hpc Hec Hpr Hrows Hdfs Hkeys].
  unfold store_after_step. split; simpl; try done.
  - unfold nrows in *. simpl. rewrite length_zip_with. lia.
  - apply rows_inv_step; [lia|done|]. unfold nrows in Hpr. lia.
  - rewrite Hdfs. replace (M self - 1 - k)%nat with (S (M self - 1 - (k + 1))) by lia.
    rewrite seq_S, fmap_app. simpl. do 2 f_equal.
    rewrite discount_factor_INR by done. do 3 f_equal. lia.
  - rewrite fmap_app, Hkeys. simpl.
    replace (M self - 1 - k)%nat with (S (M self - 1 - (k + 1))) by lia.
    rewrite <- cons_seq, reverse_cons. by replace (S k) with (k + 1)%nat by lia.
Qed.

(** After [j] iterations of the backward loop the columns from
    [nSteps - 1 - j] on are decided. *)
Lemma backward_prefix_inv (fit : fitter) (self : t) (dt : R) (paths : ndarray)
    (σ0 σ : store) (j : nat) :
  initialize self paths = inr σ0 → (j ≤ M self - 1)%nat →
  for_each (loop_body fit self dt) (take j (backward_range (M self))) σ0 = inr σ →
  store_inv self dt paths (M self - 1 - j) σ.
Proof.
  intros Hinit. revert σ. induction j as [|j IH]; intros σ Hj Hrun.
  - simpl in Hrun. injection Hrun as <-.
    replace (M self - 1 - 0)%nat with (M self - 1)%nat by lia.
    by apply initialize_inv.
  - rewrite (take_S_r _ _ (M self - 2 - j)%nat) in Hrun
      by (apply backward_range_lookup; lia).
    rewrite for_each_app in Hrun. inv_bind Hrun. rename a into σ1.
    simpl in Hrun. inv_bind Hrun. injection Hrun as <-.
    specialize (IH σ1 ltac:(lia) Ha).
    replace (M self - 1 - S j)%nat with (M self - 2 - j)%nat by lia.
    eapply loop_body_inv; [| |done]; [lia|].
    by replace (M self - 2 - j + 1)%nat with (M self - 1 - j)%nat by lia.
Qed.

Lemma backward_loop_inv (fit : fitter) (self : t) (dt : R) (paths : ndarray)
    (σ0 σ : store) :
  initialize self paths = inr σ0 →
  for_each (loop_body fit self dt) (backward_range (M self)) σ0 = inr σ →
  store_inv self dt paths 0 σ.
Proof.
  intros Hinit Hrun.
  replace 0%nat with (M self - 1 - (M self - 1))%nat by lia.
  eapply backward_prefix_inv; [done|lia|].
  rewrite take_ge; [done|]. by rewrite backward_range_length.
Qed.

(** * Exercise at most once per path *)

Lemma store_inv_once (self : t) (dt : R) (paths : ndarray) (k : nat) (σ : store) :
  store_inv self dt paths k σ →
  once_per_row (payoffMatrix σ) ∧ once_per_row (exerciseDecisionMatrix σ).
Proof.
  intros [_ _ _ _ Hrows _ _]. unfold once_per_row. split.
  - eapply Forall2_Forall_l; [done|]. apply Forall_true. by intros ?? [].
  - eapply Forall2_Forall_r; [done|]. apply Forall_true.
    intros ??. apply row_inv_once_exercise.
Qed.

(** C1.  Exercise-once invariant: after the terminal-column initialization
    ([j = 0]) and after each further iteration of the backward loop of
    [priceAmByLSMC] ([j] iterations done), every row of [payoffMatrix] and every
    row of [exerciseDecisionMatrix] has at most one nonzero entry. *)
Theorem exercise_once_after_every_step (fit : fitter) (self : t) (dt : R)
    (paths : ndarray) (σ0 σ : store) (j : nat) :
  initialize self paths = inr σ0 →
  for_each (loop_body fit self dt)
    (take j (backward_range (BSModel.nSteps (modelObj self)))) σ0 = inr σ →
  once_per_row (payoffMatrix σ) ∧ once_per_row (exerciseDecisionMatrix σ).
Proof.
  intros Hinit Hrun.
  destruct (decide (j ≤ M self - 1)%nat) as [Hj|Hj].
  - eapply store_inv_once, backward_prefix_inv; eauto.
  - rewrite take_ge in Hrun by (rewrite backward_range_length; lia).
    eapply store_inv_once, backward_loop_inv; eauto.
Qed.

(** * The frame of the run *)

Lemma immediate_payoff_paths (self : t) (dt : R) (k : nat) (σ σ' : store) :
  immediate_payoff self dt k σ = inr σ' → samplePaths σ' = samplePaths σ.
Proof.
  unfold immediate_payoff. intros H. repeat inv_bind H. by injection H as <-.
Qed.

Lemma regression_step_paths (fit : fitter) (self : t) (k : nat) (σ : store) out :
  regression_step fit self k σ = inr out → samplePaths out.2 = samplePaths σ.
Proof.
  unfold regression_step. intros H. inv_bind H. by injection H as <-.
Qed.

Lemma exercise_decision_paths (self : t) (k : nat) (β : series) (σ σ' : store) :
  exercise_decision self k β σ = inr σ' → samplePaths σ' = samplePaths σ.
Proof.
  unfold exercise_decision. intros H. repeat inv_bind H. by injection H as <-.
Qed.

Lemma loop_body_paths (fit : fitter) (self : t) (dt : R) (k : nat) (σ σ' : store) :
  loop_body fit self dt k σ = inr σ' → samplePaths σ' = samplePaths σ.
Proof.
  unfold loop_body. intros H. inv_bind H. inv_bind H.
  apply exercise_decision_paths in H. apply regression_step_paths in Ha0.
  apply immediate_payoff_paths in Ha. congruence.
Qed.

Lemma discount_column_paths (self : t) (dt : R) (i : nat) (σ σ' : store) :
  discount_column self dt i σ = inr σ' → samplePaths σ' = samplePaths σ.
Proof.
  unfold discount_column. intros H. repeat inv_bind H. by injection H as <-.
Qed.

Lemma for_each_preserves {A B : Type} (f : A → B) (body : nat → A → result A)
    (xs : list nat) (σ σ' : A) :
  (∀ x s s', body x s = inr s' → f s' = f s) →
  for_each body xs σ = inr σ' → f σ' = f σ.
Proof.
  intros Hbody. revert σ. induction xs as [|x xs IH]; intros σ H; simpl in H.
  - by injection H as <-.
  - inv_bind H. apply IH in H. apply Hbody in Ha. congruence.
Qed.

Lemma initialize_paths (self : t) (paths : ndarray) (σ0 : store) :
  initialize self paths = inr σ0 → samplePaths σ0 = paths.
Proof. by intros (? & ? & _ & _ & _ & ->)%initialize_inr. Qed.

(** C9.  The sample-path matrix is read-only: when [priceAmByLSMC] returns,
    the caller's [samplePaths] array holds what it held at the call; the calls
    to [regressionFunction] and [getContinuationValue] only read it. *)
Theorem samplePaths_read_only (fit : fitter) (self : t) (paths : ndarray) (dt : R)
    (V : R) (σ : store) :
  run fit self paths dt = inr (V, σ) → samplePaths σ = paths.
Proof.
  unfold run. intros H. inv_bind H. rename a into σ0.
  inv_bind H. rename a into σ1. inv_bind H. rename a into σ2.
  injection H as _ <-.
  apply initialize_paths in Ha.
  apply (for_each_preserves samplePaths) in Ha0;
    [|intros ???; apply loop_body_paths].
  apply (for_each_preserves samplePaths) in Ha1;
    [|intros ???; apply discount_column_paths].
  congruence.
Qed.

(** * The exercise decision *)

Lemma entry_rows (a : ndarray) (p s : nat) (row : list R) :
  rows a !! p = Some row → entry a p s = default 0 (row !! s).
Proof. intros H. unfold entry. by rewrite H. Qed.

Lemma col_lookup (a : ndarray) (j p : nat) (x : list R) :
  col a j = inr x → (p < nrows a)%nat → x !! p = Some (entry a p j).
Proof.
  intros [_ ->]%col_inr Hp. rewrite list_lookup_fmap. unfold entry, nrows in *.
  destruct (rows a !! p) as [row|] eqn:Hrow; [done|].
  apply lookup_ge_None in Hrow. lia.
Qed.

Lemma exercises_true (self : t) (β : params) (x : R) :
  exercises self β x = true ↔ fitted β x < intrinsic self x ∧ 0 < intrinsic self x.
Proof.
  unfold exercises. rewrite andb_true_iff, !bool_decide_eq_true. done.
Qed.

Lemma row_after_decision_later (k s : nat) (c : bool) (v : R) (row : list R) :
  (k < length row)%nat → (k < s)%nat →
  default 0 (row_after_decision k c v row !! s) =
    if c then 0 else default 0 (row !! s).
Proof.
  intros Hk Hs. destruct c.
  - rewrite row_after_exercise_lookup by done.
    rewrite decide_False, decide_False by lia. by case_decide.
  - unfold row_after_decision. by rewrite list_lookup_insert_ne by lia.
Qed.

Lemma row_after_decision_at (k : nat) (c : bool) (v : R) (row : list R) :
  (k < length row)%nat → default 0 (row_after_decision k c v row !! k) = v.
Proof.
  intros Hk. destruct c.
  - rewrite row_after_exercise_lookup by done.
    by rewrite decide_False, decide_True by lia.
  - unfold row_after_decision. by rewrite list_lookup_insert_eq by lia.
Qed.

(** What one iteration does to path [p], read off [store_after_step]. *)
Lemma store_after_step_entries (self : t) (dt : R) (k : nat) (σ : store)
    (x : list R) (β : params) (n m p : nat) :
  shaped n m (payoffMatrix σ) → shaped n m (exerciseDecisionMatrix σ) →
  (k < m)%nat → col (samplePaths σ) (k + 1) = inr x → length x = n → (p < n)%nat →
  let σ' := store_after_step self dt k σ x β in
  let c := exercises self β (entry (samplePaths σ) p (k + 1)) in
  let e := intrinsic self (entry (samplePaths σ) p (k + 1)) in
  entry (payoffMatrix σ') p k = (if c then e else 0)
  ∧ entry (exerciseDecisionMatrix σ') p k = (if c then 1 else 0)
  ∧ ∀ s, (k < s)%nat →
      entry (payoffMatrix σ') p s = (if c then 0 else entry (payoffMatrix σ) p s)
      ∧ entry (exerciseDecisionMatrix σ') p s =
          (if c then 0 else entry (exerciseDecisionMatrix σ) p s).
Proof.
  intros (HPc & HPr & HPrect) (HEc & HEr & HErect) Hk Hx Hlen Hp. simpl.
  assert (x !! p = Some (entry (samplePaths σ) p (k + 1))) as Hxp.
  { apply col_lookup; [done|]. apply col_length in Hx. lia. }
  unfold nrows in *.
  destruct (lookup_lt_is_Some_2 (rows (payoffMatrix σ)) p ltac:(lia)) as [prow Hprow].
  destruct (lookup_lt_is_Some_2 (rows (exerciseDecisionMatrix σ)) p ltac:(lia))
    as [erow Herow].
  assert (length prow = m) as Hpl.
  { unfold rectangular in HPrect. rewrite Forall_lookup in HPrect.
    rewrite <- HPc. by eapply HPrect. }
  assert (length erow = m) as Hel.
  { unfold rectangular in HErect. rewrite Forall_lookup in HErect.
    rewrite <- HEc. by eapply HErect. }
  assert (∀ s, entry (payoffMatrix (store_after_step self dt k σ x β)) p s =
               default 0 (payoff_row self k β prow (entry (samplePaths σ) p (k + 1)) !! s))
    as HP'.
  { intros s. apply entry_rows. simpl. apply lookup_zip_with_Some. eauto. }
  assert (∀ s, entry (exerciseDecisionMatrix (store_after_step self dt k σ x β)) p s =
               default 0 (exercise_row self k β erow (entry (samplePaths σ) p (k + 1)) !! s))
    as HE'.
  { intros s. apply entry_rows. simpl. apply lookup_zip_with_Some. eauto. }
  rewrite HP', HE'. unfold payoff_row, exercise_row.
  rewrite !row_after_decision_at by lia.
  split; [done|]. split; [done|]. intros s Hs.
  rewrite HP', HE'. unfold payoff_row, exercise_row.
  rewrite !row_after_decision_later by lia.
  by rewrite (entry_rows _ _ _ _ Hprow), (entry_rows _ _ _ _ Herow).
Qed.

(** C2.  Exercise decision rule.  At each backward step [k] of a run, with [β]
    the coefficients [regressionFunction] fitted at that step, every path [p]
    is treated by its price [x = samplePaths[p, k+1]], its intrinsic payoff [e]
    and the continuation value [c = const + X·x + X_Squared·x²]: the path is
    marked as exercising exactly when [c < e] and [0 < e]; then
    [payoffMatrix[p, k] = e], [exerciseDecisionMatrix[p, k] = 1] and all later
    columns of the row are zero; otherwise both entries are 0 and the later
    entries of the row are unchanged. *)
Theorem exercise_decision_rule (fit : fitter) (self : t) (dt : R) (paths : ndarray)
    (σ0 σ σ' : store) (j k : nat) :
  initialize self paths = inr σ0 →
  for_each (loop_body fit self dt)
    (take j (backward_range (BSModel.nSteps (modelObj self)))) σ0 = inr σ →
  backward_range (BSModel.nSteps (modelObj self)) !! j = Some k →
  loop_body fit self dt k σ = inr σ' →
  ∃ β frame,
    regressionFunction fit self
      (cols_from (payoffMatrix σ) (k + 1)) (cols_from paths (k + 1))
      (cols_from (exerciseDecisionMatrix σ) (k + 1))
      (discountFactors σ ++ [discount_factor self dt k]) = inr (WithConst β, frame)
    ∧ ∀ p, (p < BSModel.numberOfPaths (modelObj self))%nat →
        let x := entry paths p (k + 1) in
        let e := intrinsic self x in
        let c := const β + coef_X β * x + coef_X_Squared β * x ^ 2 in
        (entry (exerciseDecisionMatrix σ') p k ≠ 0 ↔ c < e ∧ 0 < e)
        ∧ (c < e ∧ 0 < e →
             entry (payoffMatrix σ') p k = e
             ∧ entry (exerciseDecisionMatrix σ') p k = 1
             ∧ ∀ s, (k < s)%nat →
                 entry (payoffMatrix σ') p s = 0
                 ∧ entry (exerciseDecisionMatrix σ') p s = 0)
        ∧ (¬ (c < e ∧ 0 < e) →
             entry (payoffMatrix σ') p k = 0
             ∧ entry (exerciseDecisionMatrix σ') p k = 0
             ∧ ∀ s, (k < s)%nat →
                 entry (payoffMatrix σ') p s = entry (payoffMatrix σ) p s
                 ∧ entry (exerciseDecisionMatrix σ') p s =
                     entry (exerciseDecisionMatrix σ) p s).
Proof.
  intros Hinit Hpre Hk Hstep.
  pose proof (lookup_lt_Some _ _ _ Hk) as Hj. rewrite backward_range_length in Hj.
  assert (store_inv self dt paths (M self - 1 - j) σ) as Hinv
    by (eapply backward_prefix_inv; [done|lia|done]).
  destruct (store_inv_shaped _ _ _ _ _ Hinv) as [HP HE].
  destruct (loop_body_inr _ _ _ _ _ _ _ _ HP HE Hstep)
    as (x & β & frame & Hkm & Hx & Hlen & Hreg & ->).
  pose proof (inv_paths _ _ _ _ _ Hinv) as Hpaths.
  exists β, frame. split; [by rewrite <- Hpaths|].
  intros p Hp.
  destruct (store_after_step_entries self dt k σ x β _ _ p HP HE Hkm Hx Hlen Hp)
    as (Hpk & Hek & Hlater).
  rewrite Hpaths in *. cbv zeta.
  pose proof (exercises_true self β (entry paths p (k + 1))) as Hex.
  unfold fitted in Hex.
  destruct (exercises self β (entry paths p (k + 1))).
  - assert (const β + coef_X β * entry paths p (k + 1)
            + coef_X_Squared β * entry paths p (k + 1) ^ 2
            < intrinsic self (entry paths p (k + 1))
            ∧ 0 < intrinsic self (entry paths p (k + 1))) as Hc by by apply Hex.
    split; [|split].
    + rewrite Hek. split; [done|]. intros _. lra.
    + intros _. split; [done|]. split; [done|]. intros s Hs.
      by destruct (Hlater s Hs).
    + intros Hn. done.
  - assert (¬ (const β + coef_X β * entry paths p (k + 1)
               + coef_X_Squared β * entry paths p (k + 1) ^ 2
               < intrinsic self (entry paths p (k + 1))
               ∧ 0 < intrinsic self (entry paths p (k + 1)))) as Hc.
    { intros Hc. apply Hex in Hc. done. }
    split; [|split].
    + rewrite Hek. split; [done|]. intros Hc'. done.
    + intros Hc'. done.
    + intros _. split; [done|]. split; [done|]. intros s Hs.
      by destruct (Hlater s Hs).
Qed.

(** * The final discounting *)

Lemma sumR_app (l1 l2 : list R) : sumR (l1 ++ l2) = sumR l1 + sumR l2.
Proof. unfold sumR. induction l1 as [|x l1 IH]; simpl; [lra|]. rewrite IH. lra. Qed.

Lemma sumR_concat (ls : list (list R)) : sumR (concat ls) = sumR (sumR <$> ls).
Proof.
  induction ls as [|l ls IH]; simpl; [done|].
  rewrite sumR_app, IH. done.
Qed.

Lemma sumR_imap_lookup (w : nat → R) (l : list R) :
  sumR (imap (λ i v, v * w i) l)
  = sumR ((λ i, default 0 (l !! i) * w i) <$> seq 0 (length l)).
Proof.
  revert w. induction l as [|x l IH]; intros w; simpl; [done|].
  f_equal. rewrite <- fmap_S_seq, <- list_fmap_compose.
  specialize (IH (w ∘ S)). unfold sumR in *. simpl in *.
  etrans; [|exact IH]. done.
Qed.

Lemma discounted_prefix_0 (w : nat → R) (row : list R) : discounted_prefix w 0 row = row.
Proof.
  unfold discounted_prefix. apply list_eq. intros i. rewrite list_lookup_imap.
  destruct (row !! i); simpl; done.
Qed.

Lemma discounted_prefix_S (w : nat → R) (j : nat) (row : list R) :
  <[j:=default 0 (discounted_prefix w j row !! j) * w j]> (discounted_prefix w j row)
  = discounted_prefix w (S j) row.
Proof.
  unfold discounted_prefix. apply list_eq. intros i.
  destruct (decide (i = j)) as [->|Hne].
  - rewrite !list_lookup_imap.
    destruct (row !! j) as [v|] eqn:Hv; simpl.
    + rewrite list_lookup_insert_eq
        by (rewrite length_imap; by apply lookup_lt_Some in Hv).
      rewrite decide_False, decide_True by lia. done.
    + rewrite list_insert_ge; [by rewrite list_lookup_imap, Hv|].
      rewrite length_imap. by apply lookup_ge_None.
  - rewrite list_lookup_insert_ne by done. rewrite !list_lookup_imap.
    destruct (row !! i); simpl; [|done].
    destruct (decide (i < j)%nat).
    + by rewrite decide_True by lia.
    + by rewrite decide_False by lia.
Qed.

Lemma discounted_prefix_all (w : nat → R) (j : nat) (row : list R) :
  (length row ≤ j)%nat → discounted_prefix w j row = imap (λ i v, v * w i) row.
Proof.
  intros Hj. unfold discounted_prefix. apply list_eq. intros i.
  rewrite !list_lookup_imap. destruct (row !! i) eqn:Hi; simpl; [|done].
  apply lookup_lt_Some in Hi. by rewrite decide_True by lia.
Qed.

Lemma discounted_prefix_length (w : nat → R) (j : nat) (row : list R) :
  length (discounted_prefix w j row) = length row.
Proof. unfold discounted_prefix. by rewrite length_imap. Qed.

Lemma discount_column_eq (self : t) (dt : R) (i n m : nat) (σ : store) :
  shaped n m (payoffMatrix σ) → (i < m)%nat →
  discount_column self dt i σ =
    inr (with_payoff σ
           ((λ row, <[i:=default 0 (row !! i) * final_discount self dt i]> row)
              <$> rows (payoffMatrix σ))).
Proof.
  intros (Hc & Hr & Hrect) Hi. unfold discount_column.
  rewrite col_eq by lia. simpl.
  rewrite (set_col_eq n m) by (done || by rewrite !length_fmap).
  simpl. unfold with_payoff. rewrite Hc. do 3 f_equal.
  rewrite <- list_fmap_compose, zip_with_fmap_r'.
  rewrite zip_with_diag. apply list_fmap_ext. intros _ row _.
  unfold final_discount. simpl. rewrite INR_IZR_INZ. do 5 f_equal. lia.
Qed.

Lemma discount_loop_eq (self : t) (dt : R) (n m j : nat) (σ : store) :
  shaped n m (payoffMatrix σ) → (j ≤ m)%nat →
  for_each (discount_column self dt) (seq 0 j) σ =
    inr (with_payoff σ
           (discounted_prefix (final_discount self dt) j <$> rows (payoffMatrix σ))).
Proof.
  intros HP. induction j as [|j IH]; intros Hj.
  - simpl. unfold with_payoff. destruct σ as [? [c rs] ? ? ?]. simpl. do 3 f_equal.
    rewrite <- (list_fmap_id rs) at 1. apply list_fmap_ext.
    intros ???. by rewrite discounted_prefix_0.
  - rewrite seq_S, for_each_app, IH by lia. simpl.
    destruct HP as (Hc & Hr & Hrect).
    rewrite (discount_column_eq self dt j n m).
    + simpl. unfold with_payoff. simpl. do 3 f_equal.
      rewrite <- list_fmap_compose. apply list_fmap_ext. intros _ row _. simpl.
      apply discounted_prefix_S.
    + unfold with_payoff. simpl. repeat split; simpl; [done|..].
      * unfold nrows in *. simpl. by rewrite length_fmap.
      * unfold rectangular in *. simpl. rewrite Hc. apply Forall_fmap.
        eapply Forall_impl; [done|]. intros row Hrow. simpl.
        rewrite discounted_prefix_length. simpl in Hrow. lia.
    + lia.
Qed.

Lemma weighted_total_rows (w : nat → R) (n m : nat) (a : ndarray) :
  shaped n m a →
  sumR (concat (imap (λ i v, v * w i) <$> rows a)) = weighted_total w n m a.
Proof.
  intros (Hc & Hr & Hrect). unfold weighted_total, rectangular, nrows in *.
  rewrite sumR_concat, <- list_fmap_compose. subst n m. f_equal.
  apply list_eq. intros p. rewrite !list_lookup_fmap.
  destruct (rows a !! p) as [row|] eqn:Hrow; simpl.
  - rewrite lookup_seq_lt by (by apply lookup_lt_Some in Hrow). simpl. f_equal.
    rewrite sumR_imap_lookup. rewrite Forall_lookup in Hrect.
    rewrite (Hrect _ _ Hrow). f_equal. apply list_fmap_ext. intros _ i _.
    by rewrite (entry_rows _ _ _ _ Hrow).
  - rewrite lookup_seq_ge; [done|]. by apply lookup_ge_None.
Qed.

Lemma run_eq (fit : fitter) (self : t) (paths : ndarray) (dt : R) (σ0 σ : store) :
  Option.nSteps (optionObj self) = BSModel.nSteps (modelObj self) →
  initialize self paths = inr σ0 →
  for_each (loop_body fit self dt) (backward_range (M self)) σ0 = inr σ →
  run fit self paths dt =
    inr (weighted_total (final_discount self dt) (N self) (M self) (payoffMatrix σ)
           / INR (N self),
         with_payoff σ (imap (λ i v, v * final_discount self dt i)
                          <$> rows (payoffMatrix σ))).
Proof.
  intros Hsteps Hinit Hloop. unfold run. rewrite Hinit. simpl. rewrite Hloop. simpl.
  pose proof (backward_loop_inv _ _ _ _ _ _ Hinit Hloop) as Hinv.
  destruct (store_inv_shaped _ _ _ _ _ Hinv) as [HP _].
  rewrite Hsteps, (discount_loop_eq self dt (N self) (M self)) by done. simpl.
  assert (discounted_prefix (final_discount self dt) (M self) <$> rows (payoffMatrix σ)
          = imap (λ i v, v * final_discount self dt i) <$> rows (payoffMatrix σ)) as ->.
  { destruct HP as (Hc & Hr & Hrect). unfold rectangular in Hrect.
    apply list_fmap_ext. intros i row Hrow. apply discounted_prefix_all.
    rewrite Forall_lookup in Hrect. rewrite (Hrect _ _ Hrow). lia. }
  do 3 f_equal. unfold np_sum. simpl. by apply weighted_total_rows.
Qed.

(** * Ordinary least squares *)

Section ols.
Implicit Types (y : list R) (X : list (R * R * R)) (β : params).

Lemma sumR_nonneg (l : list R) : Forall (λ v, 0 <= v) l → 0 <= sumR l.
Proof. unfold sumR. induction 1 as [|v l Hv _ IH]; simpl; lra. Qed.



(** The residual moments are the right-hand side minus the Gram row. *)
Lemma residual_moment_gram (k : R * R * R → R) y X β :
  length y = length X →
  residual_moment k y X β =
    moment k y X
    - (const β * gram (λ row, row.1.1) k X
       + coef_X β * gram (λ row, row.1.2) k X
       + coef_X_Squared β * gram (λ row, row.2) k X).
Proof.
  unfold residual_moment, moment, gram, sumR.
  revert X. induction y as [|yi y IH]; intros [|row X] Hlen;
    cbn [zip_with foldr fmap list_fmap length] in *; try lia; try lra.
  rewrite IH by lia. unfold predict. ring.
Qed.

Lemma gram_comm (f g : R * R * R → R) X : gram f g X = gram g f X.
Proof.
  unfold gram. f_equal. apply list_fmap_ext. intros _ row _. simpl. lra.
Qed.

Lemma cramer_solves (a11 a12 a13 a22 a23 a33 b1 b2 b3 : R) :
  let d := det3 a11 a12 a13 a12 a22 a23 a13 a23 a33 in
  d ≠ 0 →
  let u := det3 b1 a12 a13 b2 a22 a23 b3 a23 a33 / d in
  let v := det3 a11 b1 a13 a12 b2 a23 a13 b3 a33 / d in
  let w := det3 a11 a12 b1 a12 a22 b2 a13 a23 b3 / d in
  a11 * u + a12 * v + a13 * w = b1
  ∧ a12 * u + a22 * v + a23 * w = b2
  ∧ a13 * u + a23 * v + a33 * w = b3.
Proof.
  intros d Hd u v w. subst u v w d. unfold det3 in *. repeat split; field; exact Hd.
Qed.

Lemma cramer_unique (a11 a12 a13 a22 a23 a33 u v w : R) :
  det3 a11 a12 a13 a12 a22 a23 a13 a23 a33 ≠ 0 →
  a11 * u + a12 * v + a13 * w = 0 →
  a12 * u + a22 * v + a23 * w = 0 →
  a13 * u + a23 * v + a33 * w = 0 →
  u = 0 ∧ v = 0 ∧ w = 0.
Proof.
  intros Hd H1 H2 H3. unfold det3 in Hd.
  set (d := a11 * (a22 * a33 - a23 * a23) - a12 * (a12 * a33 - a23 * a13)
            + a13 * (a12 * a23 - a22 * a13)) in *.
  assert (d * u = 0) as Hu.
  { transitivity ((a22 * a33 - a23 * a23) * (a11 * u + a12 * v + a13 * w)
                  - (a12 * a33 - a13 * a23) * (a12 * u + a22 * v + a23 * w)
                  + (a12 * a23 - a13 * a22) * (a13 * u + a23 * v + a33 * w)).
    - unfold d. ring.
    - rewrite H1, H2, H3. ring. }
  assert (d * v = 0) as Hv.
  { transitivity (- (a12 * a33 - a23 * a13) * (a11 * u + a12 * v + a13 * w)
                  + (a11 * a33 - a13 * a13) * (a12 * u + a22 * v + a23 * w)
                  - (a11 * a23 - a13 * a12) * (a13 * u + a23 * v + a33 * w)).
    - unfold d. ring.
    - rewrite H1, H2, H3. ring. }
  assert (d * w = 0) as Hw.
  { transitivity ((a12 * a23 - a22 * a13) * (a11 * u + a12 * v + a13 * w)
                  - (a11 * a23 - a12 * a13) * (a12 * u + a22 * v + a23 * w)
                  + (a11 * a22 - a12 * a12) * (a13 * u + a23 * v + a33 * w)).
    - unfold d. ring.
    - rewrite H1, H2, H3. ring. }
  destruct (Rmult_integral _ _ Hu) as [?|?]; [done|].
  destruct (Rmult_integral _ _ Hv) as [?|?]; [done|].
  destruct (Rmult_integral _ _ Hw) as [?|?]; done.
Qed.

Lemma normal_equations_fit_solves : solves_least_squares normal_equations_fit.
Proof.
  intros y X β Hlen. unfold normal_equations_fit, ols, cramer_fit.
  case_decide as Hd; [discriminate|]. intros [= <-].
  unfold normal_equations. rewrite !residual_moment_gram by done. simpl.
  unfold gram_det in *.
  rewrite !(gram_comm (λ row, row.1.2) (λ row, row.1.1)) in *.
  rewrite !(gram_comm (λ row, row.2) (λ row, row.1.1)) in *.
  rewrite !(gram_comm (λ row, row.2) (λ row, row.1.2)) in *.
  pose proof (cramer_solves _ _ _ _ _ _
                (moment (λ row, row.1.1) y X) (moment (λ row, row.1.2) y X)
                (moment (λ row, row.2) y X) Hd) as (H1 & H2 & H3).
  simpl in H1, H2, H3. lra.
Qed.

Lemma normal_equations_fit_total : total_on_full_rank normal_equations_fit.
Proof.
  intros y X Hlen Hd. unfold normal_equations_fit, ols, cramer_fit.
  rewrite decide_False by done. eauto.
Qed.

Lemma normal_equations_unique y X β β' :
  length y = length X → gram_det X ≠ 0 →
  normal_equations y X β → normal_equations y X β' → β = β'.
Proof.
  intros Hlen Hd (H1 & H2 & H3) (H1' & H2' & H3').
  rewrite residual_moment_gram in H1, H2, H3, H1', H2', H3' by done.
  unfold gram_det in Hd.
  rewrite !(gram_comm (λ row, row.1.2) (λ row, row.1.1)) in *.
  rewrite !(gram_comm (λ row, row.2) (λ row, row.1.1)) in *.
  rewrite !(gram_comm (λ row, row.2) (λ row, row.1.2)) in *.
  destruct (cramer_unique _ _ _ _ _ _
              (const β - const β') (coef_X β - coef_X β')
              (coef_X_Squared β - coef_X_Squared β') Hd) as (Hu & Hv & Hw);
    [lra..|].
  destruct β, β'. simpl in *. f_equal; lra.
Qed.

(** An OLS routine with both properties returns the solution of the normal
    equations wherever the Gram matrix is regular. *)
Lemma fit_determined (fit : fitter) y X β :
  solves_least_squares fit → total_on_full_rank fit →
  length y = length X → gram_det X ≠ 0 → normal_equations y X β →
  fit y X = inr β.
Proof.
  intros Hsolves Htotal Hlen Hd Hβ.
  destruct (Htotal y X Hlen Hd) as [β' Hfit]. rewrite Hfit. f_equal.
  eapply normal_equations_unique; eauto.
Qed.

End ols.

(** * What [regressionFunction] fits *)

Lemma filter_fmap {A B : Type} (P : B → Prop) `{!∀ b, Decision (P b)}
    (f : A → B) (l : list A) :
  filter P (f <$> l) = f <$> filter (λ a, P (f a)) l.
Proof.
  induction l as [|a l IH]; [done|]. rewrite fmap_cons, !filter_cons.
  case_decide; by rewrite IH.
Qed.

Lemma row_product_sums_eq (g : list R → list R → R) (dfs : list R)
    (ps es : list (list R)) :
  Forall2 (λ prow erow, row_product_sum dfs prow erow = inr (g prow erow)) ps es →
  row_product_sums dfs ps es = inr (zip_with g ps es).
Proof.
  induction 1 as [|prow erow ps es Hrow _ IH]; simpl; [done|].
  by rewrite Hrow, IH.
Qed.

Lemma row_product_sum_eq (dfs prow erow : list R) :
  length prow = length dfs → length erow = length dfs →
  row_product_sum dfs prow erow =
    inr (sumR (zip_with Rmult (zip_with Rmult prow erow) dfs)).
Proof.
  intros Hp He. unfold row_product_sum.
  rewrite broadcast2_same by lia. simpl.
  rewrite broadcast2_same by (rewrite length_zip_with; lia). done.
Qed.

Lemma future_terms (d : nat → R) (m k : nat) (prow erow : list R) :
  length prow = m → length erow = m →
  zip_with Rmult (zip_with Rmult (drop (k + 1) prow) (drop (k + 1) erow))
    ((λ i : nat, d (i + 1)%nat) <$> seq 0 (m - 1 - k))
  = (λ s, default 0 (prow !! s) * default 0 (erow !! s) * d (s - k)%nat)
      <$> seq (k + 1) (m - (k + 1)).
Proof.
  intros Hp He. apply list_eq. intros i.
  rewrite !lookup_zip_with, !lookup_drop, !list_lookup_fmap.
  destruct (decide (i < m - 1 - k)%nat) as [Hi|Hi].
  - rewrite !lookup_seq_lt by lia. simpl.
    destruct (lookup_lt_is_Some_2 prow (k + 1 + i) ltac:(lia)) as [v ->].
    destruct (lookup_lt_is_Some_2 erow (k + 1 + i) ltac:(lia)) as [w ->].
    simpl. do 3 f_equal. lia.
  - rewrite !lookup_seq_ge by lia. simpl.
    rewrite (lookup_ge_None_2 prow) by lia. done.
Qed.

Lemma discount_factors_step (self : t) (dt : R) (paths : ndarray) (k : nat) (σ : store) :
  (k + 1 < M self)%nat → store_inv self dt paths (k + 1) σ →
  discountFactors σ ++ [discount_factor self dt k]
  = (λ i : nat, exp (- Stock.r (BSModel.stockObj (modelObj self)) * dt * INR (i + 1)))
      <$> seq 0 (M self - 1 - k).
Proof.
  intros Hk Hinv. rewrite (inv_dfs _ _ _ _ _ Hinv).
  replace (M self - 1 - k)%nat with (S (M self - 1 - (k + 1))) by lia.
  rewrite seq_S, fmap_app. simpl. do 2 f_equal.
  rewrite discount_factor_INR by done. do 3 f_equal. lia.
Qed.

(** The column [Y] that [regressionFunction] computes at step [k]. *)
Lemma regression_Y_eq (self : t) (dt : R) (paths : ndarray) (k : nat) (σ : store) :
  (k + 1 < M self)%nat → store_inv self dt paths (k + 1) σ →
  row_product_sums (discountFactors σ ++ [discount_factor self dt k])
    (rows (cols_from (payoffMatrix σ) (k + 1)))
    (rows (cols_from (exerciseDecisionMatrix σ) (k + 1)))
  = inr (future_cash_flow self dt σ k <$> seq 0 (N self)).
Proof.
  intros Hk Hinv. rewrite (discount_factors_step self dt paths) by done.
  destruct Hinv as [_ _ _ Hpr Hrows _ _]. simpl.
  set (d := λ i : nat, exp (- Stock.r (BSModel.stockObj (modelObj self)) * dt * INR i)).
  rewrite (row_product_sums_eq
             (λ prow erow, sumR (zip_with Rmult (zip_with Rmult prow erow)
                                   ((λ i : nat, d (i + 1)%nat) <$> seq 0 (M self - 1 - k))))).
  - f_equal. apply list_eq. intros p.
    rewrite lookup_zip_with, !list_lookup_fmap.
    pose proof (Forall2_length _ _ _ Hrows) as Hlen. unfold nrows in Hpr.
    destruct (decide (p < N self)%nat) as [Hp|Hp].
    + rewrite lookup_seq_lt by done.
      destruct (lookup_lt_is_Some_2 (rows (payoffMatrix σ)) p ltac:(lia)) as [prow Hprow].
      destruct (lookup_lt_is_Some_2 (rows (exerciseDecisionMatrix σ)) p ltac:(lia))
        as [erow Herow].
      rewrite Hprow, Herow. simpl. f_equal.
      destruct (Forall2_lookup_lr _ _ _ _ _ _ Hrows Hprow Herow) as [Hpl Hel _ _ _ _].
      rewrite (future_terms d (M self) k) by done.
      unfold future_cash_flow. f_equal. apply list_fmap_ext. intros _ s _.
      by rewrite (entry_rows _ _ _ _ Hprow), (entry_rows _ _ _ _ Herow).
    + rewrite lookup_seq_ge by lia.
      rewrite (lookup_ge_None_2 (rows (payoffMatrix σ))) by lia. done.
  - apply Forall2_fmap. eapply Forall2_impl; [done|].
    intros prow erow [Hpl Hel _ _ _ _]. simpl.
    apply row_product_sum_eq; rewrite length_drop, length_fmap, length_seq; lia.
Qed.

Lemma col_entries (a : ndarray) (j n : nat) (x : list R) :
  col a j = inr x → length x = n → x = (λ p, entry a p j) <$> seq 0 n.
Proof.
  intros Hx Hlen. pose proof (col_length _ _ _ Hx) as Hn.
  apply list_eq. intros p. rewrite list_lookup_fmap.
  destruct (decide (p < n)%nat) as [Hp|Hp].
  - rewrite lookup_seq_lt by done. simpl. apply (col_lookup _ _ _ _ Hx). lia.
  - rewrite lookup_seq_ge by lia. apply lookup_ge_None. lia.
Qed.

Lemma col_cols_from (a : ndarray) (k : nat) (x : list R) :
  col a k = inr x → col (cols_from a k) 0 = inr x.
Proof.
  intros [Hk ->]%col_inr. unfold col, cols_from. simpl.
  rewrite decide_True by lia. f_equal. rewrite <- list_fmap_compose.
  apply list_fmap_ext. intros _ row _. simpl. rewrite lookup_drop. do 2 f_equal. lia.
Qed.

Lemma getDt_inr (self : t) (dt : R) :
  getDt self = inr dt →
  Option.nSteps (optionObj self) ≠ 0%nat
  ∧ dt = Option.timeToExpiry (optionObj self) / INR (Option.nSteps (optionObj self)).
Proof. unfold getDt. case_decide; [discriminate|]. by intros [= <-]. Qed.

Lemma getDt_eq (self : t) :
  Option.nSteps (optionObj self) ≠ 0%nat →
  getDt self
  = inr (Option.timeToExpiry (optionObj self) / INR (Option.nSteps (optionObj self))).
Proof. intros. unfold getDt. by rewrite decide_False. Qed.

Lemma getDt_zero (self : t) :
  Option.nSteps (optionObj self) = 0%nat → getDt self = inl ZeroDivisionError.
Proof. intros. unfold getDt. by rewrite decide_True. Qed.

Lemma regressionFunction_step_eq (fit : fitter) (self : t) (dt : R) (paths : ndarray)
    (k : nat) (σ : store) (x : list R) :
  (k + 1 < M self)%nat → store_inv self dt paths (k + 1) σ →
  col (samplePaths σ) (k + 1) = inr x → length x = N self →
  regressionFunction fit self
    (cols_from (payoffMatrix σ) (k + 1)) (cols_from (samplePaths σ) (k + 1))
    (cols_from (exerciseDecisionMatrix σ) (k + 1))
    (discountFactors σ ++ [discount_factor self dt k])
  = _ ← getDt self;
    model ← OLS_fit fit (regression_y self dt σ k) (add_constant (regression_X self σ k));
    mret (model, regression_rows self dt σ k).
Proof.
  intros Hk Hinv Hx Hlen. unfold regressionFunction.
  destruct (getDt self) as [e|dt']; [done|]. cbn [mbind result_bind].
  rewrite (regression_Y_eq self dt paths) by done. simpl.
  rewrite (col_cols_from _ _ _ Hx). simpl.
  rewrite decide_True by (by rewrite length_fmap, length_seq).
  simpl. rewrite (col_entries _ _ _ _ Hx Hlen).
  unfold regression_frame.
  rewrite (zip_with_fmap_same (B:=nat) pair), filter_fmap.
  rewrite <- !list_fmap_compose. done.
Qed.

(** ** The test for a constant column *)

Lemma foldr_Rmax_bounds (x : R) (s : list R) :
  x <= foldr Rmax x s ∧ Forall (λ v, v <= foldr Rmax x s) s.
Proof.
  induction s as [|a s [IH1 IH2]]; simpl; [split; [lra|constructor]|].
  pose proof (Rmax_l a (foldr Rmax x s)). pose proof (Rmax_r a (foldr Rmax x s)).
  split; [lra|]. constructor; [done|].
  eapply Forall_impl; [done|]. intros v Hv. simpl in Hv. lra.
Qed.

Lemma foldr_Rmin_bounds (x : R) (s : list R) :
  foldr Rmin x s <= x ∧ Forall (λ v, foldr Rmin x s <= v) s.
Proof.
  induction s as [|a s [IH1 IH2]]; simpl; [split; [lra|constructor]|].
  pose proof (Rmin_l a (foldr Rmin x s)). pose proof (Rmin_r a (foldr Rmin x s)).
  split; [lra|]. constructor; [done|].
  eapply Forall_impl; [done|]. intros v Hv. simpl in Hv. lra.
Qed.

Lemma foldr_Rmax_const (x : R) (s : list R) :
  Forall (λ v, v = x) s → foldr Rmax x s = x.
Proof.
  induction 1 as [|a s -> _ IH]; simpl; [done|]. rewrite IH. apply Rmax_left. lra.
Qed.

Lemma foldr_Rmin_const (x : R) (s : list R) :
  Forall (λ v, v = x) s → foldr Rmin x s = x.
Proof.
  induction 1 as [|a s -> _ IH]; simpl; [done|]. rewrite IH. apply Rmin_left. lra.
Qed.

(** The range of a column is 0 exactly when its entries are all equal. *)
Lemma np_ptp_zero (x : R) (s : list R) :
  np_ptp x s = 0 ↔ Forall (λ v, v = x) s.
Proof.
  unfold np_ptp. split.
  - intros H0.
    destruct (foldr_Rmax_bounds x s) as [Hx1 Hs1].
    destruct (foldr_Rmin_bounds x s) as [Hx2 Hs2].
    rewrite Forall_forall in Hs1, Hs2. apply Forall_forall. intros v Hv.
    specialize (Hs1 v Hv). specialize (Hs2 v Hv). simpl in *. lra.
  - intros Hs. rewrite foldr_Rmax_const, foldr_Rmin_const by done. lra.
Qed.

(** The test of statsmodels holds of the columns that have an entry and whose
    entries are all one number other than 0. *)
Lemma is_nonzero_const_true (s : list R) :
  is_nonzero_const s = true ↔ s ≠ [] ∧ ∃ v, v ≠ 0 ∧ Forall (λ a, a = v) s.
Proof.
  destruct s as [|x s]; simpl.
  - split; [discriminate|]. by intros [? _].
  - rewrite andb_true_iff, !bool_decide_eq_true, np_ptp_zero. split.
    + intros [Hall Hex]. split; [done|]. exists x. split; [|by constructor].
      apply Exists_exists in Hex as (a & Ha & Ha0).
      apply elem_of_cons in Ha as [->|Ha]; [done|].
      rewrite Forall_forall in Hall. by rewrite <- (Hall a Ha).
    + intros (_ & v & Hv & Hall). apply Forall_cons in Hall as [-> Hall].
      split; [done|]. by left.
Qed.

Lemma is_nonzero_const_false (s : list R) (a b : R) :
  a ∈ s → b ∈ s → a ≠ b → is_nonzero_const s = false.
Proof.
  intros Ha Hb Hab. destruct (is_nonzero_const s) eqn:Hs; [|done].
  apply is_nonzero_const_true in Hs as (_ & v & _ & Hall).
  rewrite Forall_forall in Hall. rewrite (Hall a Ha), (Hall b Hb) in Hab. done.
Qed.

(** In the words of the prices: the constant is skipped exactly when there is
    an in-the-money path and the in-the-money prices, or their squares, are
    all one number other than 0. *)
Lemma constant_skipped_true (self : t) (paths : ndarray) (k : nat) :
  constant_skipped self paths k = true ↔
  in_the_money self paths k ≠ []
  ∧ ∃ v, v ≠ 0
         ∧ ((∀ p, p ∈ in_the_money self paths k → entry paths p (k + 1) = v)
            ∨ (∀ p, p ∈ in_the_money self paths k → entry paths p (k + 1) ^ 2 = v)).
Proof.
  unfold constant_skipped, in_the_money_prices.
  rewrite orb_true_iff, !is_nonzero_const_true, <- list_fmap_compose.
  split.
  - intros [(Hne & v & Hv & H)|(Hne & v & Hv & H)];
      (split; [by destruct (in_the_money self paths k)|]); exists v; (split; [done|]);
      rewrite Forall_fmap, Forall_forall in H; [left|right]; exact H.
  - intros (Hne & v & Hv & [H|H]); [left|right];
      (split; [by destruct (in_the_money self paths k)|]); exists v; (split; [done|]);
      rewrite Forall_fmap, Forall_forall; exact H.
Qed.

(** Two in-the-money paths at prices that differ, and whose squares differ,
    give the design its constant. *)
Lemma constant_added (self : t) (paths : ndarray) (k a b : nat) :
  a ∈ in_the_money self paths k → b ∈ in_the_money self paths k →
  entry paths a (k + 1) ≠ entry paths b (k + 1) →
  entry paths a (k + 1) ^ 2 ≠ entry paths b (k + 1) ^ 2 →
  constant_skipped self paths k = false.
Proof.
  intros Ha Hb Hab Hab2. unfold constant_skipped, in_the_money_prices.
  rewrite (is_nonzero_const_false _ (entry paths a (k + 1)) (entry paths b (k + 1)));
    [|by apply (list_elem_of_fmap_2 (λ p, entry paths p (k + 1)))..|done].
  rewrite (is_nonzero_const_false _ (entry paths a (k + 1) ^ 2)
             (entry paths b (k + 1) ^ 2)); [done| | |done].
  - apply (list_elem_of_fmap_2 (λ x, x ^ 2)).
    by apply (list_elem_of_fmap_2 (λ p, entry paths p (k + 1))).
  - apply (list_elem_of_fmap_2 (λ x, x ^ 2)).
    by apply (list_elem_of_fmap_2 (λ p, entry paths p (k + 1))).
Qed.

(** What [sm.add_constant] returns at step [k]. *)
Lemma add_constant_step (self : t) (σ : store) (k : nat) :
  add_constant (regression_X self σ k) =
    if constant_skipped self (samplePaths σ) k
    then WithoutConstant (regression_X self σ k)
    else WithConstant (regression_design self σ k).
Proof.
  unfold add_constant, constant_skipped, in_the_money_prices, regression_X,
    regression_design.
  rewrite <- !list_fmap_compose.
  by destruct (_ || _).
Qed.

Lemma regression_lengths (self : t) (dt : R) (σ : store) (k : nat) :
  length (regression_y self dt σ k) = length (regression_design self σ k).
Proof. unfold regression_y, regression_design. by rewrite !length_fmap. Qed.



(** One iteration of a run, with the regression spelled out: the division of
    [getDt], the test of [sm.add_constant], the fit, and the lookup of
    [const]. *)
Lemma loop_body_outcome (fit : fitter) (self : t) (dt : R) (paths : ndarray)
    (k : nat) (σ : store) (x : list R) :
  (k + 1 < M self)%nat → store_inv self dt paths (k + 1) σ →
  col (samplePaths σ) (k + 1) = inr x → length x = N self →
  loop_body fit self dt k σ =
    if decide (Option.nSteps (optionObj self) = 0%nat) then inl ZeroDivisionError
    else if constant_skipped self paths k
    then match ols_no_const fit (regression_y self dt σ k) (regression_X self σ k) with
         | inl e => inl e
         | inr _ => inl KeyError
         end
    else match fit (regression_y self dt σ k) (regression_design self σ k) with
         | inl e => inl e
         | inr β => inr (store_after_step self dt k σ x β)
         end.
Proof.
  intros Hk Hinv Hx Hlen.
  destruct (store_inv_shaped _ _ _ _ _ Hinv) as [HP HE].
  rewrite (loop_body_eq fit self dt k σ (N self) (M self) x) by (done || lia).
  rewrite (regressionFunction_step_eq fit self dt paths k σ x) by done.
  rewrite add_constant_step, (inv_paths _ _ _ _ _ Hinv).
  unfold getDt. case_decide; [done|]. cbn [mbind result_bind].
  destruct (constant_skipped self paths k); cbn [OLS_fit].
  - by destruct (ols_no_const fit _ _).
  - by destruct (fit _ _).
Qed.

(** The iteration of a step at which the option has a step count other than 0
    and the design gets its constant. *)
Lemma loop_body_step_eq (fit : fitter) (self : t) (dt : R) (paths : ndarray)
    (k : nat) (σ : store) (x : list R) :
  (k + 1 < M self)%nat → store_inv self dt paths (k + 1) σ →
  col (samplePaths σ) (k + 1) = inr x → length x = N self →
  Option.nSteps (optionObj self) ≠ 0%nat → constant_skipped self paths k = false →
  loop_body fit self dt k σ =
    β ← fit (regression_y self dt σ k) (regression_design self σ k);
    mret (store_after_step self dt k σ x β).
Proof.
  intros Hk Hinv Hx Hlen Hn Hc.
  rewrite (loop_body_outcome fit self dt paths k σ x) by done.
  rewrite decide_False, Hc by done. by destruct (fit _ _).
Qed.

(** An iteration that returns had a step count other than 0 and a constant
    in its design, and its coefficients are those of the fit. *)
Lemma loop_body_returns (fit : fitter) (self : t) (dt : R) (paths : ndarray)
    (k : nat) (σ σ' : store) (x : list R) :
  (k + 1 < M self)%nat → store_inv self dt paths (k + 1) σ →
  col (samplePaths σ) (k + 1) = inr x → length x = N self →
  loop_body fit self dt k σ = inr σ' →
  Option.nSteps (optionObj self) ≠ 0%nat ∧ constant_skipped self paths k = false
  ∧ ∃ β, fit (regression_y self dt σ k) (regression_design self σ k) = inr β
         ∧ σ' = store_after_step self dt k σ x β.
Proof.
  intros Hk Hinv Hx Hlen.
  rewrite (loop_body_outcome fit self dt paths k σ x) by done.
  case_decide as Hn; [discriminate|].
  destruct (constant_skipped self paths k).
  - by destruct (ols_no_const fit _ _).
  - destruct (fit _ _) as [e|β]; [discriminate|]. intros [= <-]. eauto.
Qed.


(** C4 (as amended).  A step with fewer than three in-the-money paths gets no
    treatment of its own: the rows of those paths, however few, go to
    [sm.add_constant] and to the OLS routine as at any other step.  Where the
    in-the-money prices, or their squares, are all one number other than 0,
    as they are with a single in-the-money path at a price other than 0,
    [sm.add_constant] adds no column [const], and the iteration ends in an
    exception: the one the routine raises on the design without constant,
    or else the [KeyError] of [getContinuationValue].  Otherwise, also with
    no in-the-money path at all, the routine gets the design with the columns
    [const, X, X_Squared]: an exception it raises is the outcome of the
    iteration, and coefficients it returns decide the exercise of every path.
    Before either, [regressionFunction] calls [getDt], which raises when
    [optionObj.nSteps] is 0. *)
Theorem degenerate_regression_not_special (fit : fitter) (self : t) (dt : R)
    (paths : ndarray) (σ0 σ : store) (j k : nat) (x : list R) :
  initialize self paths = inr σ0 →
  for_each (loop_body fit self dt)
    (take j (backward_range (BSModel.nSteps (modelObj self)))) σ0 = inr σ →
  backward_range (BSModel.nSteps (modelObj self)) !! j = Some k →
  col paths (k + 1) = inr x →
  length x = BSModel.numberOfPaths (modelObj self) →
  (length (in_the_money self paths k) < 3)%nat →
  loop_body fit self dt k σ =
    (if decide (Option.nSteps (optionObj self) = 0%nat) then inl ZeroDivisionError
     else if constant_skipped self paths k
     then match ols_no_const fit (regression_y self dt σ k) (regression_X self σ k) with
          | inl e => inl e
          | inr _ => inl KeyError
          end
     else match fit (regression_y self dt σ k) (regression_design self σ k) with
          | inl e => inl e
          | inr β => inr (store_after_step self dt k σ x β)
          end)
  ∧ (constant_skipped self paths k = true ↔
     in_the_money self paths k ≠ []
     ∧ ∃ v, v ≠ 0
            ∧ ((∀ p, p ∈ in_the_money self paths k → entry paths p (k + 1) = v)
               ∨ (∀ p, p ∈ in_the_money self paths k → entry paths p (k + 1) ^ 2 = v))).
Proof.
  intros Hinit Hpre Hk Hx Hlen _.
  pose proof (lookup_lt_Some _ _ _ Hk) as Hj. rewrite backward_range_length in Hj.
  apply backward_range_lookup in Hj as Hk'. rewrite Hk in Hk'. injection Hk' as ->.
  assert (store_inv self dt paths (M self - 2 - j + 1) σ) as Hinv.
  { replace (M self - 2 - j + 1)%nat with (M self - 1 - j)%nat by lia.
    eapply backward_prefix_inv; [done|lia|done]. }
  pose proof (inv_paths _ _ _ _ _ Hinv) as Hpaths. rewrite <- Hpaths in Hx.
  split; [|apply constant_skipped_true].
  apply (loop_body_outcome fit self dt paths); (done || lia).
Qed.

(** * Matrices of the wrong shape *)

Lemma backward_range_cons (m : nat) :
  (2 ≤ m)%nat → backward_range m = (m - 2)%nat :: backward_range (m - 1).
Proof.
  intros Hm. unfold backward_range.
  replace (m - 1)%nat with (S (m - 2)) at 1 by lia.
  rewrite seq_S, reverse_snoc. simpl. do 3 f_equal. lia.
Qed.

Lemma priceAmByLSMC_init_error (fit : fitter) (self : t) (paths : ndarray) (dt : R) e :
  initialize self paths = inl e → priceAmByLSMC fit self paths dt = inl e.
Proof. intros H. unfold priceAmByLSMC, run. by rewrite H. Qed.



(** * The value of a path *)

Lemma sumR_fmap_ext {A : Type} (f g : A → R) (l : list A) :
  (∀ a, a ∈ l → f a = g a) → sumR (f <$> l) = sumR (g <$> l).
Proof.
  intros H. f_equal. apply list_fmap_ext. intros i a Ha. apply H.
  by eapply list_elem_of_lookup_2.
Qed.

Lemma sumR_fmap_le {A : Type} (f g : A → R) (l : list A) :
  (∀ a, a ∈ l → f a <= g a) → sumR (f <$> l) <= sumR (g <$> l).
Proof.
  unfold sumR. induction l as [|a l IH]; intros H; csimpl; [lra|].
  pose proof (H a ltac:(left)) as Ha.
  assert (∀ a, a ∈ l → f a <= g a) as Hl by (intros ??; apply H; by right).
  specialize (IH Hl). lra.
Qed.

Lemma sumR_fmap_zero {A : Type} (f : A → R) (l : list A) :
  (∀ a, a ∈ l → f a = 0) → sumR (f <$> l) = 0.
Proof.
  unfold sumR. induction l as [|a l IH]; intros H; csimpl; [done|].
  rewrite (H a ltac:(left)), IH; [lra|]. intros ??. apply H. by right.
Qed.

Lemma sumR_fmap_scale {A : Type} (c : R) (f : A → R) (l : list A) :
  sumR ((λ a, c * f a) <$> l) = c * sumR (f <$> l).
Proof. unfold sumR. induction l as [|a l IH]; csimpl; [lra|]. rewrite IH. lra. Qed.

Lemma seq_split (m k : nat) :
  (k < m)%nat → seq 0 m = seq 0 k ++ k :: seq (k + 1) (m - (k + 1)).
Proof.
  intros Hk. replace m with (k + S (m - (k + 1)))%nat at 1 by lia.
  rewrite seq_app. simpl. repeat f_equal; lia.
Qed.

(** A sum over the columns whose terms before column [k] vanish. *)
Lemma sumR_columns (f : nat → R) (m k : nat) :
  (k < m)%nat → (∀ i, (i < k)%nat → f i = 0) →
  sumR (f <$> seq 0 m) = f k + sumR (f <$> seq (k + 1) (m - (k + 1))).
Proof.
  intros Hk Hzero. rewrite (seq_split m k) by done.
  rewrite fmap_app, sumR_app, fmap_cons, sumR_fmap_zero.
  - unfold sumR. simpl. lra.
  - intros i [_ Hi]%elem_of_seq. apply Hzero. lia.
Qed.

Lemma weighted_total_row_value (self : t) (dt : R) (a : ndarray) :
  weighted_total (final_discount self dt) (N self) (M self) a
  = sumR (row_value self dt a <$> seq 0 (N self)).
Proof. done. Qed.

Lemma store_inv_row (self : t) (dt : R) (paths : ndarray) (k : nat) (σ : store) (p : nat) :
  store_inv self dt paths k σ → (p < N self)%nat →
  ∃ prow erow,
    rows (payoffMatrix σ) !! p = Some prow
    ∧ rows (exerciseDecisionMatrix σ) !! p = Some erow
    ∧ row_inv (M self) k prow erow.
Proof.
  intros [_ _ _ Hpr Hrows _ _] Hp. unfold nrows in Hpr.
  pose proof (Forall2_length _ _ _ Hrows) as Hlen.
  destruct (lookup_lt_is_Some_2 (rows (payoffMatrix σ)) p ltac:(lia)) as [prow Hprow].
  destruct (lookup_lt_is_Some_2 (rows (exerciseDecisionMatrix σ)) p ltac:(lia))
    as [erow Herow].
  exists prow, erow. split; [done|]. split; [done|].
  by eapply Forall2_lookup_lr.
Qed.

Lemma store_inv_entry_zero (self : t) (dt : R) (paths : ndarray) (k : nat) (σ : store)
    (p i : nat) :
  store_inv self dt paths k σ → (p < N self)%nat → (i < k)%nat →
  entry (payoffMatrix σ) p i = 0.
Proof.
  intros Hinv Hp Hi.
  destruct (store_inv_row _ _ _ _ _ p Hinv Hp) as (prow & erow & Hprow & _ & Hrow).
  rewrite (entry_rows _ _ _ _ Hprow). by rewrite (row_inv_zero _ _ _ _ Hrow i Hi).
Qed.

Lemma store_inv_entry_indicator (self : t) (dt : R) (paths : ndarray) (k : nat)
    (σ : store) (p i : nat) :
  store_inv self dt paths k σ → (p < N self)%nat →
  entry (payoffMatrix σ) p i * entry (exerciseDecisionMatrix σ) p i
  = entry (payoffMatrix σ) p i.
Proof.
  intros Hinv Hp.
  destruct (store_inv_row _ _ _ _ _ p Hinv Hp) as (prow & erow & Hprow & Herow & Hrow).
  rewrite (entry_rows _ _ _ _ Hprow), (entry_rows _ _ _ _ Herow).
  destruct (prow !! i) as [v|] eqn:Hv; simpl; [|lra].
  rewrite (row_inv_indicator _ _ _ _ Hrow i v Hv). simpl.
  pose proof (row_inv_nonneg _ _ _ _ Hrow i v Hv).
  case_decide; lra.
Qed.

Lemma final_discount_split (self : t) (dt : R) (k s : nat) :
  (k ≤ s)%nat →
  final_discount self dt s
  = final_discount self dt k * exp (- Stock.r (stockObj self) * dt * INR (s - k)).
Proof.
  intros Hks. unfold final_discount. rewrite <- exp_plus. f_equal.
  rewrite !plus_INR, minus_INR by done. simpl. lra.
Qed.

(** Before step [k] the value of a path is its discounted future cash flow. *)
Lemma row_value_future (self : t) (dt : R) (paths : ndarray) (k : nat) (σ : store)
    (p : nat) :
  BSModel.stockObj (modelObj self) = stockObj self →
  (k + 1 ≤ M self)%nat → store_inv self dt paths (k + 1) σ → (p < N self)%nat →
  row_value self dt (payoffMatrix σ) p
  = final_discount self dt k * future_cash_flow self dt σ k p.
Proof.
  intros Hr Hk Hinv Hp. unfold row_value, future_cash_flow.
  rewrite (sumR_columns _ (M self) k) by
    (lia || (intros i Hi; rewrite (store_inv_entry_zero self dt paths (k + 1)) by (done || lia);
             lra)).
  rewrite (store_inv_entry_zero self dt paths (k + 1)) by (done || lia).
  rewrite <- sumR_fmap_scale, Hr. rewrite Rmult_0_l, Rplus_0_l.
  apply sumR_fmap_ext. intros s [Hs _]%elem_of_seq.
  rewrite (store_inv_entry_indicator self dt paths (k + 1)) by done.
  rewrite (final_discount_split self dt k s) by lia. lra.
Qed.

(** The value of a path after step [k]. *)
Lemma row_value_step (self : t) (dt : R) (paths : ndarray) (k : nat) (σ : store)
    (x : list R) (β : params) (p : nat) :
  (k + 1 < M self)%nat → store_inv self dt paths (k + 1) σ →
  col (samplePaths σ) (k + 1) = inr x → length x = N self → (p < N self)%nat →
  row_value self dt (payoffMatrix (store_after_step self dt k σ x β)) p
  = if exercises self β (entry paths p (k + 1))
    then intrinsic self (entry paths p (k + 1)) * final_discount self dt k
    else row_value self dt (payoffMatrix σ) p.
Proof.
  intros Hk Hinv Hx Hlen Hp.
  destruct (store_inv_shaped _ _ _ _ _ Hinv) as [HP HE].
  pose proof (inv_paths _ _ _ _ _ Hinv) as Hpaths.
  destruct (store_after_step_entries self dt k σ x β _ _ p HP HE ltac:(lia) Hx Hlen Hp)
    as (Hpk & _ & Hlater).
  rewrite Hpaths in *.
  assert (∀ i, (i < k)%nat →
            entry (payoffMatrix (store_after_step self dt k σ x β)) p i = 0) as Hzero'.
  { intros i Hi.
    destruct (store_inv_row _ _ _ _ _ p Hinv Hp) as (prow & erow & Hprow & Herow & Hrow).
    assert (x !! p = Some (entry paths p (k + 1))) as Hxp.
    { apply col_lookup; [done|]. apply col_length in Hx. lia. }
    erewrite entry_rows; [|simpl; apply lookup_zip_with_Some; eauto].
    pose proof (row_inv_step self β (entry paths p (k + 1)) (M self) k prow erow
                  ltac:(lia) Hrow) as Hrow'.
    by rewrite (row_inv_zero _ _ _ _ Hrow' i Hi). }
  unfold row_value.
  rewrite (sumR_columns _ (M self) k) by (lia || (intros i Hi; rewrite Hzero' by done; lra)).
  rewrite Hpk. destruct (exercises self β (entry paths p (k + 1))).
  - rewrite sumR_fmap_zero; [lra|]. intros s [Hs _]%elem_of_seq.
    destruct (Hlater s ltac:(lia)) as [-> _]. lra.
  - rewrite (sumR_columns _ (M self) k) by
      (lia || (intros i Hi; rewrite (store_inv_entry_zero self dt paths (k + 1)) by (done || lia);
               lra)).
    rewrite (store_inv_entry_zero self dt paths (k + 1)) by (done || lia).
    f_equal. apply sumR_fmap_ext. intros s [Hs _]%elem_of_seq.
    by destruct (Hlater s ltac:(lia)) as [-> _].
Qed.

(** * The price in terms of the last state of the loop *)

Lemma for_each_prefix_ind {A : Type} (body : nat → A → result A) (xs : list nat)
    (σ0 σ : A) (Q : nat → A → Prop) :
  Q 0%nat σ0 →
  (∀ j x s s', for_each body (take j xs) σ0 = inr s → xs !! j = Some x →
               body x s = inr s' → Q j s → Q (S j) s') →
  for_each body xs σ0 = inr σ → Q (length xs) σ.
Proof.
  intros H0 Hstep Hrun.
  assert (∀ j, (j ≤ length xs)%nat →
               ∀ s, for_each body (take j xs) σ0 = inr s → Q j s) as Hall.
  { induction j as [|j IH]; intros Hj s Hs.
    - simpl in Hs. by injection Hs as <-.
    - destruct (lookup_lt_is_Some_2 xs j ltac:(lia)) as [x Hx].
      rewrite (take_S_r _ _ _ Hx), for_each_app in Hs. inv_bind Hs.
      simpl in Hs. inv_bind Hs. injection Hs as <-.
      eapply Hstep; eauto. apply IH; [lia|done]. }
  apply Hall; [done|]. by rewrite take_ge.
Qed.

Lemma loop_body_results (fit : fitter) (self : t) (dt : R) (k : nat) (σ σ' : store) :
  loop_body fit self dt k σ = inr σ' →
  ∃ β, results_dict σ' = results_dict σ ++ [(k, WithConst β)].
Proof.
  unfold loop_body. intros H. inv_bind H. inv_bind H.
  unfold immediate_payoff in Ha. repeat inv_bind Ha. injection Ha as <-.
  unfold regression_step in Ha0. inv_bind Ha0. injection Ha0 as <-.
  unfold exercise_decision in H. cbn [fst snd] in H.
  inv_bind H. inv_bind H. inv_bind H.
  destruct a.1 as [β|b] eqn:Hmodel; [|discriminate].
  repeat inv_bind H. injection H as <-.
  simpl. eauto.
Qed.

Lemma for_each_results (fit : fitter) (self : t) (dt : R) (ks : list nat)
    (σ σ' : store) (entry : nat * series) :
  for_each (loop_body fit self dt) ks σ = inr σ' →
  entry ∈ results_dict σ → entry ∈ results_dict σ'.
Proof.
  revert σ. induction ks as [|k ks IH]; intros σ H Hin; simpl in H.
  - by injection H as <-.
  - inv_bind H. apply (IH _ H). apply loop_body_results in Ha as [β ->].
    apply elem_of_app. by left.
Qed.

Lemma prefix_results (fit : fitter) (self : t) (dt : R) (ks : list nat) (j : nat)
    (σ0 s σ : store) (entry : nat * series) :
  for_each (loop_body fit self dt) (take j ks) σ0 = inr s →
  for_each (loop_body fit self dt) ks σ0 = inr σ →
  entry ∈ results_dict s → entry ∈ results_dict σ.
Proof.
  intros Hs Hσ. rewrite <- (take_drop j ks), for_each_app, Hs in Hσ. simpl in Hσ.
  by eapply for_each_results.
Qed.

Lemma discount_column_results (self : t) (dt : R) (i : nat) (σ σ' : store) :
  discount_column self dt i σ = inr σ' → results_dict σ' = results_dict σ.
Proof.
  unfold discount_column. intros H. repeat inv_bind H. by injection H as <-.
Qed.

(** What [priceAmByLSMC] returns, in terms of the state after the backward loop. *)
Lemma priceAmByLSMC_inr (fit : fitter) (self : t) (paths : ndarray) (dt : R)
    (V : R) (P E : ndarray) (rd : list (nat * series)) :
  Option.nSteps (optionObj self) = BSModel.nSteps (modelObj self) →
  priceAmByLSMC fit self paths dt = inr (V, P, E, rd) →
  ∃ σ0 σ,
    initialize self paths = inr σ0
    ∧ for_each (loop_body fit self dt) (backward_range (M self)) σ0 = inr σ
    ∧ V = weighted_total (final_discount self dt) (N self) (M self) (payoffMatrix σ)
          / INR (N self)
    ∧ E = exerciseDecisionMatrix σ
    ∧ rd = results_dict σ.
Proof.
  intros Hsteps H. unfold priceAmByLSMC in H. inv_bind H. destruct a as [V' σf].
  injection H as -> <- <- <-.
  assert (∃ σ0 σ, initialize self paths = inr σ0
                  ∧ for_each (loop_body fit self dt) (backward_range (M self)) σ0 = inr σ)
    as (σ0 & σ & Hinit & Hloop).
  { unfold run in Ha. inv_bind Ha. inv_bind Ha. eauto. }
  rewrite (run_eq fit self paths dt σ0 σ Hsteps Hinit Hloop) in Ha.
  injection Ha as <- <-. exists σ0, σ. done.
Qed.

(** ** The European price as the value of the initial matrix *)

Lemma terminal_row_lookup (m : nat) (v : R) :
  (0 < m)%nat → terminal_row m v !! (m - 1)%nat = Some v.
Proof.
  intros Hm. unfold terminal_row. apply list_lookup_insert_eq.
  rewrite length_replicate. lia.
Qed.

Lemma initial_value (self : t) (dt : R) (paths : ndarray) (σ0 : store) (last : list R) :
  initialize self paths = inr σ0 → last_col paths = inr last →
  nrows paths = N self →
  weighted_total (final_discount self dt) (N self) (M self) (payoffMatrix σ0)
  = sumR ((λ v, v * final_discount self dt (M self - 1)) <$> payOff self last).
Proof.
  intros Hinit Hlast Hn.
  pose proof (initialize_inv self dt paths σ0 Hinit) as Hinv.
  destruct (initialize_inr _ _ _ Hinit) as (last' & e & Hlast' & HM & He & Hσ0).
  assert (last' = last) as -> by congruence.
  apply last_col_inr in Hlast as [_ Hlast]. apply col_length in Hlast.
  apply broadcast_to_eq in He; [|rewrite payOff_length; lia]. subst e.
  rewrite weighted_total_row_value.
  transitivity (sumR ((λ p, default 0 (payOff self last !! p)
                            * final_discount self dt (M self - 1)) <$> seq 0 (N self))).
  - apply sumR_fmap_ext. intros p [_ Hp]%elem_of_seq. unfold row_value.
    rewrite (sumR_columns _ (M self) (M self - 1)) by
      (lia || (intros i Hi; rewrite (store_inv_entry_zero self dt paths (M self - 1))
                 by (done || lia); lra)).
    replace (M self - (M self - 1 + 1))%nat with 0%nat by lia.
    unfold sumR at 1. simpl. rewrite Rplus_0_r. f_equal.
    rewrite Hσ0. unfold entry. simpl. rewrite list_lookup_fmap.
    destruct (payOff self last !! p) as [v|] eqn:Hv; simpl; [|done].
    by rewrite terminal_row_lookup.
  - f_equal. apply list_eq. intros p. rewrite !list_lookup_fmap.
    destruct (decide (p < N self)%nat) as [Hp|Hp].
    + rewrite lookup_seq_lt by done. simpl.
      destruct (lookup_lt_is_Some_2 (payOff self last) p) as [v ->];
        [rewrite payOff_length; lia|]. done.
    + rewrite lookup_seq_ge by lia.
      rewrite (lookup_ge_None_2 (payOff self last)) by (rewrite payOff_length; lia).
      done.
Qed.

Lemma final_discount_expiry (self : t) (dt : R) :
  (0 < M self)%nat → Option.nSteps (optionObj self) = M self → getDt self = inr dt →
  final_discount self dt (M self - 1)
  = exp (- Stock.r (stockObj self) * Option.timeToExpiry (optionObj self)).
Proof.
  intros HM Hsteps [_ ->]%getDt_inr. unfold final_discount. rewrite Hsteps. f_equal.
  replace (M self - 1 + 1)%nat with (M self) by lia.
  assert (INR (M self) ≠ 0) by (apply not_0_INR; lia). field. done.
Qed.

Lemma european_price (self : t) (paths : ndarray) (σ0 : store) (dt : R) :
  initialize self paths = inr σ0 → nrows paths = N self →
  Option.nSteps (optionObj self) = M self → getDt self = inr dt →
  EurOption.priceByBSMC (EurOption.Build (stockObj self) (optionObj self)) paths "put"
  = inr (weighted_total (final_discount self dt) (N self) (M self)
           (payoffMatrix σ0) / INR (N self)).
Proof.
  intros Hinit Hn Hsteps Hdt.
  destruct (initialize_inr _ _ _ Hinit) as (last & e & Hlast & HM & He & Hσ0).
  rewrite (initial_value self dt paths σ0 last) by done.
  unfold EurOption.priceByBSMC. rewrite decide_False by done.
  rewrite decide_True by done. rewrite Hlast. simpl.
  rewrite (final_discount_expiry self dt) by done.
  rewrite !length_fmap.
  apply last_col_inr in Hlast as [_ Hlast]. apply col_length in Hlast.
  rewrite Hlast, Hn. done.
Qed.

(** * American and European prices *)

Lemma inv_INR_nonneg (n : nat) : 0 <= / INR n.
Proof.
  destruct n as [|n].
  - simpl. rewrite Rinv_0. lra.
  - left. apply Rinv_0_lt_compat. apply lt_0_INR. lia.
Qed.

(** One iteration, seen from the values of the paths. *)
Lemma step_values (fit : fitter) (self : t) (dt : R) (paths : ndarray) (σ0 s s' : store)
    (j k : nat) :
  initialize self paths = inr σ0 →
  for_each (loop_body fit self dt) (take j (backward_range (M self))) σ0 = inr s →
  backward_range (M self) !! j = Some k →
  loop_body fit self dt k s = inr s' →
  (k + 1 < M self)%nat ∧ store_inv self dt paths (k + 1) s
  ∧ ∃ β, (k, WithConst β) ∈ results_dict s'
         ∧ ∀ p, (p < N self)%nat →
             row_value self dt (payoffMatrix s') p
             = if exercises self β (entry paths p (k + 1))
               then intrinsic self (entry paths p (k + 1)) * final_discount self dt k
               else row_value self dt (payoffMatrix s) p.
Proof.
  intros Hinit Hpre Hk Hstep.
  pose proof (lookup_lt_Some _ _ _ Hk) as Hj. rewrite backward_range_length in Hj.
  apply backward_range_lookup in Hj as Hk'. rewrite Hk in Hk'. injection Hk' as ->.
  assert (store_inv self dt paths (M self - 2 - j + 1) s) as Hinv.
  { replace (M self - 2 - j + 1)%nat with (M self - 1 - j)%nat by lia.
    eapply backward_prefix_inv; [done|lia|done]. }
  destruct (store_inv_shaped _ _ _ _ _ Hinv) as [HP HE].
  destruct (loop_body_inr _ _ _ _ _ _ _ _ HP HE Hstep)
    as (x & β & frame & Hkm & Hx & Hlen & Hreg & ->).
  split; [lia|]. split; [done|]. exists β. split.
  - simpl. apply elem_of_app. right. by apply list_elem_of_singleton.
  - intros p Hp. apply row_value_step; (done || lia).
Qed.

(** C10.  No-early-exercise degeneration.  If the exercise condition of line
    238 is false for every path at every backward step (for the coefficients
    logged at that step), the price [priceAmByLSMC] returns is the European put
    price [priceByBSMC] returns on the same paths, the mean over the paths of
    [exp(-r·T) · max(strike - terminal price, 0)]. *)
Theorem no_early_exercise_is_european (fit : fitter) (self : t) (paths : ndarray)
    (dt V : R) (P E : ndarray) (rd : list (nat * series)) :
  Option.nSteps (optionObj self) = BSModel.nSteps (modelObj self) →
  nrows paths = BSModel.numberOfPaths (modelObj self) →
  getDt self = inr dt →
  priceAmByLSMC fit self paths dt = inr (V, P, E, rd) →
  (∀ k β p, (k, WithConst β) ∈ rd → (p < BSModel.numberOfPaths (modelObj self))%nat →
            exercises self β (entry paths p (k + 1)) = false) →
  EurOption.priceByBSMC (EurOption.Build (stockObj self) (optionObj self)) paths "put"
  = inr V.
Proof.
  intros Hsteps Hn Hdt Hrun Hnever.
  destruct (priceAmByLSMC_inr _ _ _ _ _ _ _ _ Hsteps Hrun)
    as (σ0 & σ & Hinit & Hloop & -> & _ & ->).
  rewrite (european_price self paths σ0 dt) by done. do 2 f_equal.
  rewrite !weighted_total_row_value.
  pose proof (for_each_prefix_ind (loop_body fit self dt)
                (backward_range (M self)) σ0 σ
                (λ _ s, sumR (row_value self dt (payoffMatrix σ0) <$> seq 0 (N self))
                        = sumR (row_value self dt (payoffMatrix s) <$> seq 0 (N self))))
    as Hind.
  apply Hind; [done| |done]. clear Hind.
  intros j k s s' Hpre Hk Hstep ->.
  destruct (step_values _ _ _ _ _ _ _ _ _ Hinit Hpre Hk Hstep)
    as (_ & _ & β & Hβ & Hvalues).
  apply sumR_fmap_ext. intros p [_ Hp]%elem_of_seq.
  rewrite Hvalues by lia. rewrite Hnever; [done| |lia].
  eapply (prefix_results fit self dt _ (S j)); [|done|done].
  rewrite (take_S_r _ _ _ Hk), for_each_app, Hpre. simpl. by rewrite Hstep.
Qed.

(** C7 (as amended).  The American price is at least the European price of
    the same paths whenever every early exercise the run decides pays at least
    what it gives up: at each step, on each path that exercises, the intrinsic
    payoff is at least the discounted cash flow the path held so far (the
    dependent variable [Y] of that step's regression). *)
Theorem american_at_least_european_if_exercise_pays (fit : fitter) (self : t)
    (paths : ndarray) (σ0 : store) (dt V Ve : R) (P E : ndarray)
    (rd : list (nat * series)) :
  Option.nSteps (optionObj self) = BSModel.nSteps (modelObj self) →
  nrows paths = BSModel.numberOfPaths (modelObj self) →
  BSModel.stockObj (modelObj self) = stockObj self →
  getDt self = inr dt →
  initialize self paths = inr σ0 →
  priceAmByLSMC fit self paths dt = inr (V, P, E, rd) →
  (∀ j k σ β p,
     for_each (loop_body fit self dt)
       (take j (backward_range (BSModel.nSteps (modelObj self)))) σ0 = inr σ →
     backward_range (BSModel.nSteps (modelObj self)) !! j = Some k →
     (k, WithConst β) ∈ rd → (p < BSModel.numberOfPaths (modelObj self))%nat →
     exercises self β (entry paths p (k + 1)) = true →
     future_cash_flow self dt σ k p <= intrinsic self (entry paths p (k + 1))) →
  EurOption.priceByBSMC (EurOption.Build (stockObj self) (optionObj self)) paths "put"
  = inr Ve →
  Ve <= V.
Proof.
  intros Hsteps Hn Hr Hdt Hinit Hrun Hpays Heur.
  destruct (priceAmByLSMC_inr _ _ _ _ _ _ _ _ Hsteps Hrun)
    as (σ0' & σ & Hinit' & Hloop & -> & _ & ->).
  assert (σ0' = σ0) as -> by congruence.
  rewrite (european_price self paths σ0 dt) in Heur by done. injection Heur as <-.
  apply Rmult_le_compat_r; [apply inv_INR_nonneg|].
  rewrite !weighted_total_row_value.
  pose proof (for_each_prefix_ind (loop_body fit self dt)
                (backward_range (M self)) σ0 σ
                (λ _ s, sumR (row_value self dt (payoffMatrix σ0) <$> seq 0 (N self))
                        <= sumR (row_value self dt (payoffMatrix s) <$> seq 0 (N self))))
    as Hind.
  apply Hind; [lra| |done]. clear Hind.
  intros j k s s' Hpre Hk Hstep Hle.
  destruct (step_values _ _ _ _ _ _ _ _ _ Hinit Hpre Hk Hstep)
    as (Hkm & Hinv & β & Hβ & Hvalues).
  etrans; [exact Hle|].
  apply sumR_fmap_le. intros p [_ Hp]%elem_of_seq.
  rewrite Hvalues by lia.
  destruct (exercises self β (entry paths p (k + 1))) eqn:Hex; [|lra].
  rewrite (row_value_future self dt paths k) by (done || lia).
  assert (future_cash_flow self dt s k p
          <= intrinsic self (entry paths p (k + 1))) as Hfcf.
  { apply (Hpays j k s β p); [done|done| |lia|done].
    eapply (prefix_results fit self dt _ (S j)); [|done|done].
    rewrite (take_S_r _ _ _ Hk), for_each_app, Hpre. simpl. by rewrite Hstep. }
  assert (0 < final_discount self dt k) by apply exp_pos.
  nra.
Qed.

(** * Bounds on the discount factor of the examples *)

Lemma exp_double (x : R) : exp (2 * x) = exp x * exp x.
Proof. rewrite <- exp_plus. f_equal. lra. Qed.

Lemma square_bounds (a l u l' u' : R) :
  0 < l → l <= a <= u → l' <= l * l → u * u <= u' → l' <= a * a <= u'.
Proof. intros. nra. Qed.

(** [exp(-0.06)] to four decimals, from [1 + x <= exp x] at [x = ∓0.06/64]
    and six squarings. *)
Lemma exp_rate_bounds : 0.9417 < exp (- 0.06 * 1) < 0.9418.
Proof.
  assert (0.9990625 <= exp (- 0.0009375) <= 0.9990633781) as H0.
  { pose proof (exp_ineq1_le (- 0.0009375)) as Hl.
    pose proof (exp_ineq1_le 0.0009375) as Hu.
    pose proof (exp_pos (- 0.0009375)) as Hpos.
    assert (exp (- 0.0009375) * exp 0.0009375 = 1) as Hinv.
    { rewrite <- exp_plus. replace (- 0.0009375 + 0.0009375) with 0 by lra. apply exp_0. }
    split; [lra|]. nra. }
  assert (0.9981258789 <= exp (- 0.001875) <= 0.9981276335) as H1.
  { replace (- 0.001875) with (2 * - 0.0009375) by lra. rewrite exp_double.
    eapply square_bounds; [|exact H0|lra|lra]. lra. }
  assert (0.9962552701 <= exp (- 0.00375) <= 0.9962587728) as H2.
  { replace (- 0.00375) with (2 * - 0.001875) by lra. rewrite exp_double.
    eapply square_bounds; [|exact H1|lra|lra]. lra. }
  assert (0.9925245632 <= exp (- 0.0075) <= 0.9925315424) as H3.
  { replace (- 0.0075) with (2 * - 0.00375) by lra. rewrite exp_double.
    eapply square_bounds; [|exact H2|lra|lra]. lra. }
  assert (0.9851050085 <= exp (- 0.015) <= 0.9851188627) as H4.
  { replace (- 0.015) with (2 * - 0.0075) by lra. rewrite exp_double.
    eapply square_bounds; [|exact H3|lra|lra]. lra. }
  assert (0.9704318777 <= exp (- 0.03) <= 0.9704591737) as H5.
  { replace (- 0.03) with (2 * - 0.015) by lra. rewrite exp_double.
    eapply square_bounds; [|exact H4|lra|lra]. lra. }
  assert (0.9417380292 <= exp (- 0.06) <= 0.9417910079) as H6.
  { replace (- 0.06) with (2 * - 0.03) by lra. rewrite exp_double.
    eapply square_bounds; [|exact H5|lra|lra]. lra. }
  replace (- 0.06 * 1) with (- 0.06) by lra. lra.
Qed.

(** * The finalization formula *)

Lemma entry_discounted (w : nat → R) (c : nat) (rs : list (list R)) (p i : nat) :
  entry (NdArray c (imap (λ i v, v * w i) <$> rs)) p i = entry (NdArray c rs) p i * w i.
Proof.
  unfold entry. simpl. rewrite list_lookup_fmap.
  destruct (rs !! p) as [row|]; simpl; [|lra].
  rewrite list_lookup_imap. destruct (row !! i); simpl; lra.
Qed.

(** C5.  Finalization formula.  After the backward loop has left [payoffMatrix]
    in the state [σ], [priceAmByLSMC] multiplies every column [i] of it by
    [exp(-r·dt·(i+1))] and returns the sum of all entries divided by
    [numberOfPaths]: the price is
    [(Σ_p Σ_i payoffMatrix[p, i] · exp(-r·dt·(i+1))) / numberOfPaths].
    The loop of line 253 runs over [optionObj.nSteps] columns and the matrix
    has [modelObj.nSteps]; the two agree in every object the notebook builds. *)
Theorem finalization_formula (fit : fitter) (self : t) (paths : ndarray) (dt : R)
    (σ0 σ : store) :
  Option.nSteps (optionObj self) = BSModel.nSteps (modelObj self) →
  initialize self paths = inr σ0 →
  for_each (loop_body fit self dt)
    (backward_range (BSModel.nSteps (modelObj self))) σ0 = inr σ →
  ∃ P,
    priceAmByLSMC fit self paths dt =
      inr (sumR ((λ p, sumR ((λ i, entry (payoffMatrix σ) p i
                                   * exp (- Stock.r (stockObj self) * dt * INR (i + 1)))
                               <$> seq 0 (BSModel.nSteps (modelObj self))))
                   <$> seq 0 (BSModel.numberOfPaths (modelObj self)))
           / INR (BSModel.numberOfPaths (modelObj self)),
           P, exerciseDecisionMatrix σ, results_dict σ)
    ∧ ∀ p i, entry P p i
             = entry (payoffMatrix σ) p i
               * exp (- Stock.r (stockObj self) * dt * INR (i + 1)).
Proof.
  intros Hsteps Hinit Hloop.
  pose proof (run_eq fit self paths dt σ0 σ Hsteps Hinit Hloop) as Hrun.
  eexists. split.
  - unfold priceAmByLSMC. rewrite Hrun. reflexivity.
  - intros p i. simpl. rewrite entry_discounted. reflexivity.
Qed.

(** * The worked example *)

Lemma initialize_eq (self : t) (paths : ndarray) (last : list R) :
  last_col paths = inr last → length last = N self → (0 < M self)%nat →
  initialize self paths =
    inr (Store paths
           (NdArray (M self) (terminal_row (M self) <$> payOff self last))
           (NdArray (M self)
              ((λ v, terminal_row (M self) (if decide (0 < v) then 1 else 0))
                 <$> payOff self last))
           [] []).
Proof.
  intros Hlast Hlen HM.
  pose proof (zeros_shaped (N self) (M self)) as Hz.
  assert (ncols (zeros (N self) (M self)) = M self) as Hzc by done.
  assert (length (payOff self last) = N self) as Hpo by by rewrite payOff_length.
  unfold initialize. rewrite Hlast. cbn [mbind result_bind].
  unfold set_last_col. rewrite Hzc, decide_False by lia.
  rewrite (set_col_eq (N self) (M self) _ _ _ Hz) by (done || lia).
  cbn [mbind result_bind]. unfold last_col. cbn [ncols]. rewrite decide_False by lia.
  rewrite col_eq by (cbn [ncols]; lia). cbn [rows mbind result_bind].
  rewrite (col_zip_with_insert (M self));
    [|lia|unfold zeros; cbn [rows]; apply Forall_replicate; by rewrite length_replicate
     |unfold zeros; cbn [rows]; by rewrite Hpo, length_replicate].
  rewrite (set_col_eq (N self) (M self) _ _ _ Hz)
    by (lia || (unfold where_positive; by rewrite length_fmap)).
  cbn [mbind result_bind mret result_ret]. unfold zeros. cbn [rows].
  rewrite zip_with_replicate_l by lia.
  unfold where_positive. rewrite zip_with_fmap_r'.
  rewrite zip_with_replicate_l by lia. rewrite decide_False by lia. done.
Qed.

Ltac eval_R :=
  repeat match goal with
  | |- context [Rmax ?a ?b] =>
      first [rewrite (Rmax_left a b) by lra | rewrite (Rmax_right a b) by lra]
  | |- context [decide (?a < ?b)] =>
      first [rewrite (decide_True (P:=a < b)) by lra
            |rewrite (decide_False (P:=a < b)) by lra]
  end.

(** Membership in a list that is written out. *)
Ltac in_list :=
  repeat first [apply list_elem_of_here | apply list_elem_of_further].

(** Two entries of a matrix of the examples differ. *)
Ltac distinct_prices := unfold entry; cbn; intros Heq; lra.

Lemma lsm_initialize : initialize lsm_am lsm_paths = inr lsm_σ0.
Proof.
  rewrite (initialize_eq lsm_am lsm_paths [1.34; 1.54; 1.03; 0.92; 1.52; 0.90; 1.01; 1.34]);
    [|reflexivity|reflexivity|cbn; lia].
  unfold lsm_σ0, payOff, terminal_row. cbn. eval_R.
  repeat (f_equal; try lra).
Qed.

Lemma lsm_inv0 : store_inv lsm_am 1 lsm_paths 2 lsm_σ0.
Proof. exact (initialize_inv lsm_am 1 lsm_paths lsm_σ0 lsm_initialize). Qed.

Lemma lsm_itm1 : in_the_money lsm_am lsm_paths 1 = [0; 2; 3; 5; 6]%nat.
Proof. unfold in_the_money. cbn. eval_R. reflexivity. Qed.

Lemma lsm_const1 : constant_skipped lsm_am lsm_paths 1 = false.
Proof.
  apply (constant_added lsm_am lsm_paths 1 0 2); rewrite ?lsm_itm1;
    [in_list|in_list|distinct_prices..].
Qed.

Lemma lsm_itm0 : in_the_money lsm_am lsm_paths 0 = [0; 3; 5; 6; 7]%nat.
Proof. unfold in_the_money. cbn. eval_R. reflexivity. Qed.

Lemma lsm_const0 : constant_skipped lsm_am lsm_paths 0 = false.
Proof.
  apply (constant_added lsm_am lsm_paths 0 0 3); rewrite ?lsm_itm0;
    [in_list|in_list|distinct_prices..].
Qed.

Lemma discount_pow (r dt : R) (n : nat) : exp (- r * dt * INR n) = exp (- r * dt) ^ n.
Proof.
  induction n as [|n IH].
  - simpl. rewrite Rmult_0_r. apply exp_0.
  - rewrite S_INR, Rmult_plus_distr_l, exp_plus, IH. simpl. rewrite Rmult_1_r. ring.
Qed.

Ltac fold_lsm_d :=
  repeat match goal with
  | |- context [exp ?a] =>
      first
        [ replace (exp a) with lsm_d by (unfold lsm_d; f_equal; lra)
        | replace (exp a) with (lsm_d * lsm_d)
            by (unfold lsm_d; rewrite <- exp_plus; f_equal; lra)
        | replace (exp a) with (lsm_d * lsm_d * lsm_d)
            by (unfold lsm_d; rewrite <- !exp_plus; f_equal; lra) ]
  end.

Lemma lsm_y1 :
  regression_y lsm_am 1 lsm_σ0 1 =
    [0 * lsm_d; 0.07 * lsm_d; 0.18 * lsm_d; 0.20 * lsm_d; 0.09 * lsm_d].
Proof.
  unfold regression_y. cbn [samplePaths lsm_σ0]. rewrite lsm_itm1.
  unfold future_cash_flow. cbn. fold_lsm_d. repeat (f_equal; try lra).
Qed.

Lemma lsm_design1 : regression_design lsm_am lsm_σ0 1 = lsm_X1.
Proof.
  unfold regression_design. cbn [samplePaths lsm_σ0]. rewrite lsm_itm1. reflexivity.
Qed.

Lemma lsm_gram1 : gram_det lsm_X1 ≠ 0.
Proof.
  apply Rgt_not_eq. unfold gram_det, gram, det3, sumR, lsm_X1. cbn. lra.
Qed.

Lemma lsm_normal1 :
  normal_equations
    [0 * lsm_d; 0.07 * lsm_d; 0.18 * lsm_d; 0.20 * lsm_d; 0.09 * lsm_d] lsm_X1 lsm_β1.
Proof.
  unfold normal_equations, residual_moment, predict, sumR, lsm_X1, lsm_β1. cbn.
  generalize lsm_d. intros d. repeat split; lra.
Qed.

Lemma lsm_d_bounds : 0.9417 < lsm_d < 0.9418.
Proof. exact exp_rate_bounds. Qed.

Lemma exercises_eq_true (self : t) (β : params) (x : R) :
  fitted β x < intrinsic self x → 0 < intrinsic self x → exercises self β x = true.
Proof. intros. by apply exercises_true. Qed.

Lemma exercises_eq_false (self : t) (β : params) (x : R) :
  intrinsic self x <= fitted β x ∨ intrinsic self x <= 0 → exercises self β x = false.
Proof.
  intros H. destruct (exercises self β x) eqn:Hex; [|done].
  apply exercises_true in Hex. lra.
Qed.

(** Decides [exercises] at the concrete prices of the example. *)
Ltac lsm_exercises β :=
  repeat match goal with
  | |- context [exercises ?s β ?x] =>
      first
        [ rewrite (exercises_eq_true s β x)
            by (unfold fitted, intrinsic, β; cbn; eval_R;
                pose proof lsm_d_bounds; lra)
        | rewrite (exercises_eq_false s β x)
            by (unfold fitted, intrinsic, β; cbn; eval_R;
                pose proof lsm_d_bounds; lra) ]
  end.

Lemma lsm_gram0 : gram_det lsm_X0 ≠ 0.
Proof.
  apply Rgt_not_eq. unfold gram_det, gram, det3, sumR, lsm_X0. cbn. lra.
Qed.

Lemma lsm_normal0 :
  normal_equations
    [0 * lsm_d; 0.13 * lsm_d; 0.33 * lsm_d; 0.26 * lsm_d; 0 * lsm_d] lsm_X0 lsm_β0.
Proof.
  unfold normal_equations, residual_moment, predict, sumR, lsm_X0, lsm_β0. cbn.
  generalize lsm_d. intros d. repeat split; lra.
Qed.

Lemma lsm_y0 :
  regression_y lsm_am 1 lsm_σ1 0 =
    [0 * lsm_d; 0.13 * lsm_d; 0.33 * lsm_d; 0.26 * lsm_d; 0 * lsm_d].
Proof.
  unfold regression_y. cbn [samplePaths lsm_σ1]. rewrite lsm_itm0.
  unfold future_cash_flow. cbn. fold_lsm_d. repeat (f_equal; try lra).
Qed.

Lemma lsm_design0 : regression_design lsm_am lsm_σ1 0 = lsm_X0.
Proof.
  unfold regression_design. cbn [samplePaths lsm_σ1]. rewrite lsm_itm0. reflexivity.
Qed.

Lemma lsm_dt : getDt lsm_am = inr 1.
Proof. rewrite getDt_eq by discriminate. f_equal. cbn. lra. Qed.

Section lsm_run.

Variable fit : fitter.

Hypothesis fit_solves : solves_least_squares fit.

Hypothesis fit_total : total_on_full_rank fit.

Lemma lsm_fit1 :
  fit (regression_y lsm_am 1 lsm_σ0 1) (regression_design lsm_am lsm_σ0 1) = inr lsm_β1.
Proof.
  rewrite lsm_y1, lsm_design1.
  apply fit_determined; [done|done|reflexivity|apply lsm_gram1|apply lsm_normal1].
Qed.

Lemma lsm_step1 : loop_body fit lsm_am 1 1 lsm_σ0 = inr lsm_σ1.
Proof.
  rewrite (loop_body_step_eq fit lsm_am 1 lsm_paths 1 lsm_σ0
             [1.08; 1.26; 1.07; 0.97; 1.56; 0.77; 0.84; 1.22]);
    [|cbn; lia|exact lsm_inv0|reflexivity|reflexivity|discriminate|exact lsm_const1].
  rewrite lsm_fit1. cbn [mbind result_bind mret result_ret]. f_equal.
  unfold store_after_step, lsm_σ1, payoff_row, exercise_row.
  cbn -[exercises intrinsic discount_factor lsm_β1].
  lsm_exercises lsm_β1.
  unfold row_after_decision, intrinsic. cbn. eval_R. repeat (f_equal; try lra).
Qed.

Lemma lsm_inv1 : store_inv lsm_am 1 lsm_paths 1 lsm_σ1.
Proof.
  apply (loop_body_inv fit lsm_am 1 lsm_paths 1 lsm_σ0 lsm_σ1);
    [cbn; lia|exact lsm_inv0|exact lsm_step1].
Qed.

Lemma lsm_fit0 :
  fit (regression_y lsm_am 1 lsm_σ1 0) (regression_design lsm_am lsm_σ1 0) = inr lsm_β0.
Proof.
  rewrite lsm_y0, lsm_design0.
  apply fit_determined; [done|done|reflexivity|apply lsm_gram0|apply lsm_normal0].
Qed.

Lemma lsm_step0 : loop_body fit lsm_am 1 0 lsm_σ1 = inr lsm_σ2.
Proof.
  rewrite (loop_body_step_eq fit lsm_am 1 lsm_paths 0 lsm_σ1
             [1.09; 1.16; 1.22; 0.93; 1.11; 0.76; 0.92; 0.88]);
    [|cbn; lia|exact lsm_inv1|reflexivity|reflexivity|discriminate|exact lsm_const0].
  rewrite lsm_fit0. cbn [mbind result_bind mret result_ret]. f_equal.
  unfold store_after_step, lsm_σ2, payoff_row, exercise_row.
  cbn -[exercises intrinsic discount_factor lsm_β0 lsm_β1].
  lsm_exercises lsm_β0.
  unfold row_after_decision, intrinsic. cbn. eval_R. repeat (f_equal; try lra).
Qed.

Lemma lsm_loop :
  for_each (loop_body fit lsm_am 1) (backward_range 3) lsm_σ0 = inr lsm_σ2.
Proof.
  change (backward_range 3) with [1; 0]%nat. cbn [for_each].
  rewrite lsm_step1. cbn [mbind result_bind]. rewrite lsm_step0. done.
Qed.

End lsm_run.

Lemma lsm_value2 :
  weighted_total (final_discount lsm_am 1) (N lsm_am) (M lsm_am) (payoffMatrix lsm_σ2)
  / INR (N lsm_am)
  = (0.91 * lsm_d + 0.07 * (lsm_d * lsm_d * lsm_d)) / 8.
Proof.
  unfold weighted_total, final_discount, entry, sumR. cbn. fold_lsm_d. lra.
Qed.

Lemma lsm_value0 :
  weighted_total (final_discount lsm_am 1) (N lsm_am) (M lsm_am) (payoffMatrix lsm_σ0)
  / INR (N lsm_am)
  = 0.54 * (lsm_d * lsm_d * lsm_d) / 8.
Proof.
  unfold weighted_total, final_discount, entry, sumR. cbn. fold_lsm_d. lra.
Qed.

Lemma lsm_cube_bounds : 0.8350 < lsm_d * lsm_d * lsm_d < 0.8354.
Proof. pose proof lsm_d_bounds. nra. Qed.

Lemma lsm_american_value :
  Rabs ((0.91 * lsm_d + 0.07 * (lsm_d * lsm_d * lsm_d)) / 8 - 0.1144) < 0.00005.
Proof.
  pose proof lsm_d_bounds. pose proof lsm_cube_bounds.
  apply Rabs_def1; lra.
Qed.

Lemma lsm_european_value :
  Rabs (0.54 * (lsm_d * lsm_d * lsm_d) / 8 - 0.0564) < 0.00005.
Proof.
  pose proof lsm_cube_bounds. apply Rabs_def1; lra.
Qed.

Lemma lsm_european :
  EurOption.priceByBSMC lsm_eur lsm_paths "put"
  = inr (0.54 * (lsm_d * lsm_d * lsm_d) / 8).
Proof.
  change lsm_eur with (EurOption.Build (stockObj lsm_am) (optionObj lsm_am)).
  rewrite (european_price lsm_am lsm_paths lsm_σ0 1 lsm_initialize eq_refl eq_refl lsm_dt).
  by rewrite lsm_value0.
Qed.

(** C6.  The worked example.  For the 8-path, 3-step matrix with strike 1.1
    and r = 0.06, and for every OLS routine that solves the normal equations
    where they have one solution: the last column of [payoffMatrix] starts as
    [0, 0, 0.07, 0.18, 0, 0.20, 0.09, 0]; the iteration for time 2 (column 1)
    marks exactly rows 3, 5 and 6; the price returned is 0.1144 to four
    decimals, and the European price of the same paths is 0.0564. *)
Theorem worked_example (fit : fitter) :
  solves_least_squares fit → total_on_full_rank fit →
  ∃ dt σ0 σ1 V P E rd Ve,
    getDt lsm_am = inr dt
    ∧ initialize lsm_am lsm_paths = inr σ0
    ∧ col (payoffMatrix σ0) 2 = inr [0; 0; 0.07; 0.18; 0; 0.20; 0.09; 0]
    ∧ loop_body fit lsm_am dt 1 σ0 = inr σ1
    ∧ col (exerciseDecisionMatrix σ1) 1 = inr [0; 0; 0; 1; 0; 1; 1; 0]
    ∧ priceAmByLSMC fit lsm_am lsm_paths dt = inr (V, P, E, rd)
    ∧ Rabs (V - 0.1144) < 0.00005
    ∧ EurOption.priceByBSMC lsm_eur lsm_paths "put" = inr Ve
    ∧ Rabs (Ve - 0.0564) < 0.00005.
Proof.
  intros Hsolves Htotal.
  pose proof (run_eq fit lsm_am lsm_paths 1 lsm_σ0 lsm_σ2 eq_refl lsm_initialize
                (lsm_loop fit Hsolves Htotal)) as Hrun.
  rewrite lsm_value2 in Hrun.
  eexists 1, lsm_σ0, lsm_σ1, _, _, _, _, _.
  split; [exact lsm_dt|].
  split; [exact lsm_initialize|]. split; [reflexivity|].
  split; [exact (lsm_step1 fit Hsolves Htotal)|]. split; [reflexivity|].
  split; [unfold priceAmByLSMC; rewrite Hrun; reflexivity|].
  split; [exact lsm_american_value|].
  split; [exact lsm_european|exact lsm_european_value].
Qed.

(** C6 with the Cramer solver for the OLS routine. *)
Lemma worked_example_witness :
  ∃ dt σ0 σ1 V P E rd Ve,
    getDt lsm_am = inr dt
    ∧ initialize lsm_am lsm_paths = inr σ0
    ∧ col (payoffMatrix σ0) 2 = inr [0; 0; 0.07; 0.18; 0; 0.20; 0.09; 0]
    ∧ loop_body normal_equations_fit lsm_am dt 1 σ0 = inr σ1
    ∧ col (exerciseDecisionMatrix σ1) 1 = inr [0; 0; 0; 1; 0; 1; 1; 0]
    ∧ priceAmByLSMC normal_equations_fit lsm_am lsm_paths dt
      = inr (V, P, E, rd)
    ∧ Rabs (V - 0.1144) < 0.00005
    ∧ EurOption.priceByBSMC lsm_eur lsm_paths "put" = inr Ve
    ∧ Rabs (Ve - 0.0564) < 0.00005.
Proof.
  exact (worked_example normal_equations_fit normal_equations_fit_solves
           normal_equations_fit_total).
Defined.

Lemma priceAmByLSMC_eq (fit : fitter) (self : t) (paths : ndarray) (dt : R)
    (σ0 σ : store) :
  Option.nSteps (optionObj self) = BSModel.nSteps (modelObj self) →
  initialize self paths = inr σ0 →
  for_each (loop_body fit self dt) (backward_range (M self)) σ0 = inr σ →
  priceAmByLSMC fit self paths dt =
    inr (weighted_total (final_discount self dt) (N self) (M self) (payoffMatrix σ)
           / INR (N self),
         NdArray (ncols (payoffMatrix σ))
           (imap (λ i v, v * final_discount self dt i) <$> rows (payoffMatrix σ)),
         exerciseDecisionMatrix σ, results_dict σ).
Proof.
  intros Hsteps Hinit Hloop. unfold priceAmByLSMC.
  by rewrite (run_eq fit self paths dt σ0 σ Hsteps Hinit Hloop).
Qed.

(** * A run without early exercise *)

Lemma hold_dt : getDt hold_am = inr 1.
Proof. rewrite getDt_eq by discriminate. f_equal. cbn. lra. Qed.

Lemma hold_initialize : initialize hold_am hold_paths = inr hold_σ0.
Proof.
  rewrite (initialize_eq hold_am hold_paths [5; 4; 3]);
    [|reflexivity|reflexivity|cbn; lia].
  unfold hold_σ0, payOff, terminal_row. cbn. eval_R.
  repeat (f_equal; try lra).
Qed.

Lemma hold_itm : in_the_money hold_am hold_paths 0 = [0; 1; 2]%nat.
Proof. unfold in_the_money. cbn. eval_R. reflexivity. Qed.

Lemma hold_const : constant_skipped hold_am hold_paths 0 = false.
Proof.
  apply (constant_added hold_am hold_paths 0 0 1); rewrite ?hold_itm;
    [in_list|in_list|distinct_prices..].
Qed.

Lemma hold_y : regression_y hold_am 1 hold_σ0 0 = [5 * lsm_d; 6 * lsm_d; 7 * lsm_d].
Proof.
  unfold regression_y. cbn [samplePaths hold_σ0]. rewrite hold_itm.
  unfold future_cash_flow. cbn. fold_lsm_d. repeat (f_equal; try lra).
Qed.

Lemma hold_design : regression_design hold_am hold_σ0 0 = hold_X.
Proof.
  unfold regression_design. cbn [samplePaths hold_σ0]. rewrite hold_itm. reflexivity.
Qed.

Lemma hold_gram : gram_det hold_X ≠ 0.
Proof.
  apply Rgt_not_eq. unfold gram_det, gram, det3, sumR, hold_X. cbn. lra.
Qed.

Lemma hold_normal : normal_equations [5 * lsm_d; 6 * lsm_d; 7 * lsm_d] hold_X hold_β.
Proof.
  unfold normal_equations, residual_moment, predict, sumR, hold_X, hold_β. cbn.
  generalize lsm_d. intros d. repeat split; lra.
Qed.

Lemma hold_never (p : nat) :
  (p < 3)%nat → exercises hold_am hold_β (entry hold_paths p 1) = false.
Proof.
  intros Hp. apply exercises_eq_false. left.
  destruct p as [|[|[|p]]]; [| | |lia];
    unfold fitted, intrinsic, entry, hold_β; cbn; eval_R;
    pose proof lsm_d_bounds; lra.
Qed.

Section hold_run.

Variable fit : fitter.

Hypothesis fit_solves : solves_least_squares fit.

Hypothesis fit_total : total_on_full_rank fit.

Lemma hold_fit :
  fit (regression_y hold_am 1 hold_σ0 0) (regression_design hold_am hold_σ0 0)
  = inr hold_β.
Proof.
  rewrite hold_y, hold_design.
  apply fit_determined; [done|done|reflexivity|apply hold_gram|apply hold_normal].
Qed.

Lemma hold_step : loop_body fit hold_am 1 0 hold_σ0 = inr hold_σ1.
Proof.
  rewrite (loop_body_step_eq fit hold_am 1 hold_paths 0 hold_σ0 [9; 8; 7]);
    [|cbn; lia|exact (initialize_inv hold_am 1 hold_paths hold_σ0 hold_initialize)
     |reflexivity|reflexivity|discriminate|exact hold_const].
  rewrite hold_fit. cbn [mbind result_bind mret result_ret]. f_equal.
  unfold store_after_step, hold_σ1, payoff_row, exercise_row.
  cbn -[exercises intrinsic discount_factor hold_β].
  lsm_exercises hold_β.
  unfold row_after_decision. cbn. repeat (f_equal; try lra).
Qed.

Lemma hold_loop :
  for_each (loop_body fit hold_am 1) (backward_range 2) hold_σ0 = inr hold_σ1.
Proof.
  change (backward_range 2) with [0]%nat. cbn [for_each].
  by rewrite hold_step.
Qed.

Lemma hold_price :
  priceAmByLSMC fit hold_am hold_paths 1 =
    inr (weighted_total (final_discount hold_am 1) 3 2 (payoffMatrix hold_σ1) / INR 3,
         NdArray 2 (imap (λ i v, v * final_discount hold_am 1 i)
                      <$> rows (payoffMatrix hold_σ1)),
         exerciseDecisionMatrix hold_σ1, [(0%nat, WithConst hold_β)]).
Proof.
  exact (priceAmByLSMC_eq fit hold_am hold_paths 1 hold_σ0 hold_σ1 eq_refl
           hold_initialize hold_loop).
Qed.

End hold_run.

Lemma hold_never_logged (k : nat) (β : params) (p : nat) :
  (k, WithConst β) ∈ [(0%nat, WithConst hold_β)] → (p < 3)%nat →
  exercises hold_am β (entry hold_paths p (k + 1)) = false.
Proof.
  intros Hin Hp. apply list_elem_of_singleton in Hin. injection Hin as -> ->.
  by apply hold_never.
Qed.

(** * A run whose early exercise pays *)

Lemma pays_initialize : initialize hold_am pays_paths = inr pays_σ0.
Proof.
  rewrite (initialize_eq hold_am pays_paths [5; 9.5; 3]);
    [|reflexivity|reflexivity|cbn; lia].
  unfold pays_σ0, payOff, terminal_row. cbn. eval_R.
  repeat (f_equal; try lra).
Qed.

Lemma pays_itm : in_the_money hold_am pays_paths 0 = [0; 1; 2]%nat.
Proof. unfold in_the_money. cbn. eval_R. reflexivity. Qed.

Lemma pays_const : constant_skipped hold_am pays_paths 0 = false.
Proof.
  apply (constant_added hold_am pays_paths 0 0 1); rewrite ?pays_itm;
    [in_list|in_list|distinct_prices..].
Qed.

Lemma pays_y : regression_y hold_am 1 pays_σ0 0 = [5 * lsm_d; 0.5 * lsm_d; 7 * lsm_d].
Proof.
  unfold regression_y. cbn [samplePaths pays_σ0]. rewrite pays_itm.
  unfold future_cash_flow. cbn. fold_lsm_d. repeat (f_equal; try lra).
Qed.

Lemma pays_design : regression_design hold_am pays_σ0 0 = hold_X.
Proof.
  unfold regression_design. cbn [samplePaths pays_σ0]. rewrite pays_itm. reflexivity.
Qed.

Lemma pays_normal : normal_equations [5 * lsm_d; 0.5 * lsm_d; 7 * lsm_d] hold_X pays_β.
Proof.
  unfold normal_equations, residual_moment, predict, sumR, hold_X, pays_β. cbn.
  generalize lsm_d. intros d. repeat split; lra.
Qed.

Lemma pays_future (p : nat) :
  (p < 3)%nat → exercises hold_am pays_β (entry pays_paths p 1) = true →
  future_cash_flow hold_am 1 pays_σ0 0 p <= intrinsic hold_am (entry pays_paths p 1).
Proof.
  intros Hp Hex. apply exercises_true in Hex as [Hlt Hpos]. revert Hlt Hpos.
  destruct p as [|[|[|p]]]; [| | |lia];
    unfold future_cash_flow, fitted, intrinsic, entry, pays_β; cbn; eval_R;
    fold_lsm_d; pose proof lsm_d_bounds; lra.
Qed.

Section pays_run.

Variable fit : fitter.

Hypothesis fit_solves : solves_least_squares fit.

Hypothesis fit_total : total_on_full_rank fit.

Lemma pays_fit :
  fit (regression_y hold_am 1 pays_σ0 0) (regression_design hold_am pays_σ0 0)
  = inr pays_β.
Proof.
  rewrite pays_y, pays_design.
  apply fit_determined; [done|done|reflexivity|apply hold_gram|apply pays_normal].
Qed.

Lemma pays_step : loop_body fit hold_am 1 0 pays_σ0 = inr pays_σ1.
Proof.
  rewrite (loop_body_step_eq fit hold_am 1 pays_paths 0 pays_σ0 [9; 8; 7]);
    [|cbn; lia|exact (initialize_inv hold_am 1 pays_paths pays_σ0 pays_initialize)
     |reflexivity|reflexivity|discriminate|exact pays_const].
  rewrite pays_fit. cbn [mbind result_bind mret result_ret]. f_equal.
  unfold store_after_step, pays_σ1, payoff_row, exercise_row.
  cbn -[exercises intrinsic discount_factor pays_β].
  lsm_exercises pays_β.
  unfold row_after_decision, intrinsic. cbn. eval_R. repeat (f_equal; try lra).
Qed.

Lemma pays_loop :
  for_each (loop_body fit hold_am 1) (backward_range 2) pays_σ0 = inr pays_σ1.
Proof.
  change (backward_range 2) with [0]%nat. cbn [for_each].
  by rewrite pays_step.
Qed.

Lemma pays_price :
  priceAmByLSMC fit hold_am pays_paths 1 =
    inr (weighted_total (final_discount hold_am 1) 3 2 (payoffMatrix pays_σ1) / INR 3,
         NdArray 2 (imap (λ i v, v * final_discount hold_am 1 i)
                      <$> rows (payoffMatrix pays_σ1)),
         exerciseDecisionMatrix pays_σ1, [(0%nat, WithConst pays_β)]).
Proof.
  exact (priceAmByLSMC_eq fit hold_am pays_paths 1 pays_σ0 pays_σ1 eq_refl
           pays_initialize pays_loop).
Qed.

Lemma pays_exercise (j k : nat) (σ : store) (β : params) (p : nat) :
  for_each (loop_body fit hold_am 1)
    (take j (backward_range (BSModel.nSteps (modelObj hold_am)))) pays_σ0 = inr σ →
  backward_range (BSModel.nSteps (modelObj hold_am)) !! j = Some k →
  (k, WithConst β) ∈ [(0%nat, WithConst pays_β)] → (p < BSModel.numberOfPaths (modelObj hold_am))%nat →
  exercises hold_am β (entry pays_paths p (k + 1)) = true →
  future_cash_flow hold_am 1 σ k p
  <= intrinsic hold_am (entry pays_paths p (k + 1)).
Proof.
  intros Hpre Hk Hin Hp Hex.
  apply list_elem_of_singleton in Hin. injection Hin as -> ->.
  change (backward_range (BSModel.nSteps (modelObj hold_am))) with [0]%nat in Hpre, Hk.
  destruct j as [|j]; [|by destruct j].
  cbn in Hpre. injection Hpre as <-. by apply pays_future.
Qed.

End pays_run.

Lemma pays_european :
  EurOption.priceByBSMC (EurOption.Build (stockObj hold_am) (optionObj hold_am))
    pays_paths "put"
  = inr (weighted_total (final_discount hold_am 1) 3 2 (payoffMatrix pays_σ0) / INR 3).
Proof.
  exact (european_price hold_am pays_paths pays_σ0 1 pays_initialize eq_refl eq_refl
           hold_dt).
Qed.

(** * A regression on two rows *)

Lemma two_initialize : initialize two_am two_paths = inr two_σ0.
Proof.
  rewrite (initialize_eq two_am two_paths [5; 10]);
    [|reflexivity|reflexivity|cbn; lia].
  unfold two_σ0, payOff, terminal_row. cbn. eval_R.
  repeat (f_equal; try lra).
Qed.

Lemma two_itm : in_the_money two_am two_paths 0 = [0; 1]%nat.
Proof. unfold in_the_money. cbn. eval_R. reflexivity. Qed.

Lemma two_const : constant_skipped two_am two_paths 0 = false.
Proof.
  apply (constant_added two_am two_paths 0 0 1); rewrite ?two_itm;
    [in_list|in_list|distinct_prices..].
Qed.

Lemma two_y : regression_y two_am 1 two_σ0 0 = [5 * lsm_d; 0 * lsm_d].
Proof.
  unfold regression_y. cbn [samplePaths two_σ0]. rewrite two_itm.
  unfold future_cash_flow. cbn. fold_lsm_d. repeat (f_equal; try lra).
Qed.

Lemma two_design : regression_design two_am two_σ0 0 = two_X.
Proof.
  unfold regression_design. cbn [samplePaths two_σ0]. rewrite two_itm. reflexivity.
Qed.

Lemma two_gram : gram_det two_X = 0.
Proof. unfold gram_det, gram, det3, sumR, two_X. cbn. lra. Qed.

Lemma two_step (fit : fitter) :
  loop_body fit two_am 1 0 two_σ0 =
    β ← fit [5 * lsm_d; 0 * lsm_d] two_X;
    mret (store_after_step two_am 1 0 two_σ0 [9; 8] β).
Proof.
  rewrite (loop_body_step_eq fit two_am 1 two_paths 0 two_σ0 [9; 8]);
    [|cbn; lia|exact (initialize_inv two_am 1 two_paths two_σ0 two_initialize)
     |reflexivity|reflexivity|discriminate|exact two_const].
  by rewrite two_y, two_design.
Qed.

(** Coefficients that solve the normal equations of two rows interpolate them. *)
Lemma two_interpolates (β : params) :
  normal_equations [5 * lsm_d; 0 * lsm_d] two_X β → fitted β 9 = 5 * lsm_d.
Proof.
  unfold normal_equations, residual_moment, predict, sumR, two_X, fitted. cbn.
  destruct β as [a b c]. cbn. generalize lsm_d. intros d (H1 & H2 & _). lra.
Qed.

Lemma two_continues (β : params) :
  normal_equations [5 * lsm_d; 0 * lsm_d] two_X β →
  entry (payoffMatrix (store_after_step two_am 1 0 two_σ0 [9; 8] β)) 0 0 = 0
  ∧ entry (payoffMatrix (store_after_step two_am 1 0 two_σ0 [9; 8] β)) 0 1 = 5
  ∧ entry (exerciseDecisionMatrix (store_after_step two_am 1 0 two_σ0 [9; 8] β)) 0 0 = 0.
Proof.
  intros Hβ%two_interpolates.
  assert (exercises two_am β 9 = false) as Hex.
  { apply exercises_eq_false. left. rewrite Hβ. unfold intrinsic. cbn. eval_R.
    pose proof lsm_d_bounds. lra. }
  unfold store_after_step, payoff_row, exercise_row, entry.
  cbn -[exercises intrinsic discount_factor]. rewrite Hex.
  unfold row_after_decision. cbn. done.
Qed.

Lemma two_rejected : loop_body normal_equations_fit two_am 1 0 two_σ0 = inl LinAlgError.
Proof.
  rewrite two_step. unfold normal_equations_fit, ols, cramer_fit.
  cbv zeta. rewrite decide_True by exact two_gram. reflexivity.
Qed.

Lemma two_least_squares (fit : fitter) (σ : store) :
  solves_least_squares fit → loop_body fit two_am 1 0 two_σ0 = inr σ →
  entry (payoffMatrix σ) 0 0 = 0 ∧ entry (payoffMatrix σ) 0 1 = 5
  ∧ entry (exerciseDecisionMatrix σ) 0 0 = 0.
Proof.
  intros Hsolves. rewrite two_step.
  destruct (fit _ _) as [e|β] eqn:Hfit; [done|].
  cbn. intros [= <-]. apply two_continues. by apply Hsolves.
Qed.

Lemma two_normal : normal_equations [5 * lsm_d; 0 * lsm_d] two_X two_β.
Proof.
  unfold normal_equations, residual_moment, predict, sumR, two_X, two_β. cbn.
  generalize lsm_d. intros d. repeat split; lra.
Qed.

(** * A single path in the money *)

Lemma pinv_fit_total (y : list R) (X : list (R * R)) : ∃ b, pinv_fit y X = inr b.
Proof. unfold pinv_fit. cbv zeta. repeat case_decide; eauto. Qed.

Lemma lone_initialize : initialize two_am lone_paths = inr lone_σ0.
Proof.
  rewrite (initialize_eq two_am lone_paths [5; 10]);
    [|reflexivity|reflexivity|cbn; lia].
  unfold lone_σ0, payOff, terminal_row. cbn. eval_R.
  repeat (f_equal; try lra).
Qed.

Lemma lone_itm : in_the_money two_am lone_paths 0 = [0]%nat.
Proof. unfold in_the_money. cbn. eval_R. reflexivity. Qed.

Lemma lone_skipped : constant_skipped two_am lone_paths 0 = true.
Proof.
  apply constant_skipped_true. rewrite lone_itm. split; [done|].
  exists 9. split; [lra|]. left. intros p ->%list_elem_of_singleton. reflexivity.
Qed.

(** The iteration never returns: its design has no constant. *)
Lemma lone_step (fit : fitter) :
  loop_body fit two_am 1 0 lone_σ0 =
    match ols_no_const fit (regression_y two_am 1 lone_σ0 0)
            (regression_X two_am lone_σ0 0) with
    | inl e => inl e
    | inr _ => inl KeyError
    end.
Proof.
  rewrite (loop_body_outcome fit two_am 1 lone_paths 0 lone_σ0 [9; 11]);
    [|cbn; lia|exact (initialize_inv two_am 1 lone_paths lone_σ0 lone_initialize)
     |reflexivity|reflexivity].
  rewrite decide_False by discriminate. by rewrite lone_skipped.
Qed.

Lemma lone_raises (fit : fitter) : ∃ e, priceAmByLSMC fit two_am lone_paths 1 = inl e.
Proof.
  unfold priceAmByLSMC, run. rewrite lone_initialize. cbn [mbind result_bind].
  change (backward_range (BSModel.nSteps (modelObj two_am))) with [0%nat].
  cbn [for_each]. rewrite lone_step.
  destruct (ols_no_const fit _ _); cbn [mbind result_bind]; eauto.
Qed.

Lemma lone_ols_step : loop_body normal_equations_fit two_am 1 0 lone_σ0 = inl KeyError.
Proof.
  rewrite lone_step.
  destruct (pinv_fit_total (regression_y two_am 1 lone_σ0 0)
              (regression_X two_am lone_σ0 0)) as [b Hb].
  change (ols_no_const normal_equations_fit) with pinv_fit. by rewrite Hb.
Qed.

Lemma lone_key_error :
  priceAmByLSMC normal_equations_fit two_am lone_paths 1 = inl KeyError.
Proof.
  unfold priceAmByLSMC, run. rewrite lone_initialize. cbn [mbind result_bind].
  change (backward_range (BSModel.nSteps (modelObj two_am))) with [0%nat].
  cbn [for_each]. by rewrite lone_ols_step.
Qed.

(** * A run below the European price *)

(** At a zero rate every discount factor is 1. *)
Ltac fold_zero_rate :=
  repeat match goal with
  | |- context [exp ?a] => replace (exp a) with 1 by (rewrite <- exp_0; f_equal; lra)
  end.

Lemma dip_dt : getDt dip_am = inr 1.
Proof. rewrite getDt_eq by discriminate. f_equal. cbn. lra. Qed.

Lemma dip_initialize : initialize dip_am dip_paths = inr dip_σ0.
Proof.
  rewrite (initialize_eq dip_am dip_paths [6; 6.81; 8; 8.98]);
    [|reflexivity|reflexivity|cbn; lia].
  unfold dip_σ0, payOff, terminal_row. cbn. eval_R.
  repeat (f_equal; try lra).
Qed.

Lemma dip_itm : in_the_money dip_am dip_paths 0 = [0; 1; 2; 3]%nat.
Proof. unfold in_the_money. cbn. eval_R. reflexivity. Qed.

Lemma dip_const : constant_skipped dip_am dip_paths 0 = false.
Proof.
  apply (constant_added dip_am dip_paths 0 0 1); rewrite ?dip_itm;
    [in_list|in_list|distinct_prices..].
Qed.

Lemma dip_y : regression_y dip_am 1 dip_σ0 0 = [4; 3.19; 2; 1.02].
Proof.
  unfold regression_y. cbn [samplePaths dip_σ0]. rewrite dip_itm.
  unfold future_cash_flow. cbn. fold_zero_rate. repeat (f_equal; try lra).
Qed.

Lemma dip_design : regression_design dip_am dip_σ0 0 = dip_X.
Proof.
  unfold regression_design. cbn [samplePaths dip_σ0]. rewrite dip_itm. reflexivity.
Qed.

Lemma dip_gram : gram_det dip_X ≠ 0.
Proof.
  apply Rgt_not_eq. unfold gram_det, gram, det3, sumR, dip_X. cbn. lra.
Qed.

Lemma dip_normal : normal_equations [4; 3.19; 2; 1.02] dip_X dip_β.
Proof.
  unfold normal_equations, residual_moment, predict, sumR, dip_X, dip_β. cbn.
  repeat split; lra.
Qed.

Lemma dip_value :
  weighted_total (final_discount dip_am 1) (N dip_am) (M dip_am) (payoffMatrix dip_σ1)
  / INR (N dip_am) = 10.19 / 4.
Proof.
  unfold weighted_total, final_discount, entry, sumR. cbn. fold_zero_rate. lra.
Qed.

Section dip_run.

Variable fit : fitter.

Hypothesis fit_solves : solves_least_squares fit.

Hypothesis fit_total : total_on_full_rank fit.

Lemma dip_fit :
  fit (regression_y dip_am 1 dip_σ0 0) (regression_design dip_am dip_σ0 0) = inr dip_β.
Proof.
  rewrite dip_y, dip_design.
  apply fit_determined; [done|done|reflexivity|apply dip_gram|apply dip_normal].
Qed.

Lemma dip_step : loop_body fit dip_am 1 0 dip_σ0 = inr dip_σ1.
Proof.
  rewrite (loop_body_step_eq fit dip_am 1 dip_paths 0 dip_σ0 [6; 7; 8; 9]);
    [|cbn; lia|exact (initialize_inv dip_am 1 dip_paths dip_σ0 dip_initialize)
     |reflexivity|reflexivity|discriminate|exact dip_const].
  rewrite dip_fit. cbn [mbind result_bind mret result_ret]. f_equal.
  unfold store_after_step, dip_σ1, payoff_row, exercise_row.
  cbn -[exercises intrinsic discount_factor dip_β].
  lsm_exercises dip_β.
  unfold row_after_decision, intrinsic. cbn. eval_R. repeat (f_equal; try lra).
Qed.

Lemma dip_loop :
  for_each (loop_body fit dip_am 1) (backward_range 2) dip_σ0 = inr dip_σ1.
Proof.
  change (backward_range 2) with [0]%nat. cbn [for_each].
  by rewrite dip_step.
Qed.

Lemma dip_price :
  ∃ P, priceAmByLSMC fit dip_am dip_paths 1
       = inr (10.19 / 4, P, exerciseDecisionMatrix dip_σ1, [(0%nat, WithConst dip_β)]).
Proof.
  rewrite (priceAmByLSMC_eq fit dip_am dip_paths 1 dip_σ0 dip_σ1 eq_refl
             dip_initialize dip_loop).
  rewrite dip_value. by eexists.
Qed.

End dip_run.

Lemma dip_european :
  EurOption.priceByBSMC dip_eur dip_paths "put" = inr (10.21 / 4).
Proof.
  change dip_eur with (EurOption.Build (stockObj dip_am) (optionObj dip_am)).
  rewrite (european_price dip_am dip_paths dip_σ0 1 dip_initialize eq_refl eq_refl dip_dt).
  f_equal.
  unfold weighted_total, final_discount, entry, sumR. cbn. fold_zero_rate. lra.
Qed.

(** * A matrix with one step too many *)








Section short_run.

Variable fit : fitter.

Hypothesis fit_solves : solves_least_squares fit.

Hypothesis fit_total : total_on_full_rank fit.





End short_run.

(** * The statements at the examples *)

(** The runs of the examples with the Cramer solver. *)
Lemma lsm_ols_step1 : loop_body normal_equations_fit lsm_am 1 1 lsm_σ0 = inr lsm_σ1.
Proof. exact (lsm_step1 _ normal_equations_fit_solves normal_equations_fit_total). Qed.

Lemma lsm_ols_prefix1 :
  for_each (loop_body normal_equations_fit lsm_am 1)
    (take 1 (backward_range (BSModel.nSteps (modelObj lsm_am)))) lsm_σ0 = inr lsm_σ1.
Proof.
  change (take 1 (backward_range (BSModel.nSteps (modelObj lsm_am)))) with [1%nat].
  cbn [for_each]. by rewrite lsm_ols_step1.
Qed.

Lemma lsm_ols_loop :
  for_each (loop_body normal_equations_fit lsm_am 1)
    (backward_range (BSModel.nSteps (modelObj lsm_am))) lsm_σ0 = inr lsm_σ2.
Proof. exact (lsm_loop _ normal_equations_fit_solves normal_equations_fit_total). Qed.

Lemma lsm_ols_run :
  run normal_equations_fit lsm_am lsm_paths 1 =
    inr (weighted_total (final_discount lsm_am 1) (N lsm_am) (M lsm_am)
           (payoffMatrix lsm_σ2) / INR (N lsm_am),
         with_payoff lsm_σ2 (imap (λ i v, v * final_discount lsm_am 1 i)
                               <$> rows (payoffMatrix lsm_σ2))).
Proof.
  exact (run_eq normal_equations_fit lsm_am lsm_paths 1 lsm_σ0 lsm_σ2 eq_refl
           lsm_initialize lsm_ols_loop).
Qed.

(** C1 at the worked example, after the first iteration of its loop. *)
Lemma exercise_once_after_every_step_witness :
  initialize lsm_am lsm_paths = inr lsm_σ0
  ∧ for_each (loop_body normal_equations_fit lsm_am 1)
      (take 1 (backward_range (BSModel.nSteps (modelObj lsm_am)))) lsm_σ0 = inr lsm_σ1
  ∧ once_per_row (payoffMatrix lsm_σ1)
  ∧ once_per_row (exerciseDecisionMatrix lsm_σ1).
Proof.
  split; [exact lsm_initialize|]. split; [exact lsm_ols_prefix1|].
  exact (exercise_once_after_every_step normal_equations_fit lsm_am 1 lsm_paths
           lsm_σ0 lsm_σ1 1 lsm_initialize lsm_ols_prefix1).
Defined.

(** C2 at the first iteration (step 1) of the worked example. *)
Lemma exercise_decision_rule_witness :
  initialize lsm_am lsm_paths = inr lsm_σ0
  ∧ for_each (loop_body normal_equations_fit lsm_am 1)
      (take 0 (backward_range (BSModel.nSteps (modelObj lsm_am)))) lsm_σ0 = inr lsm_σ0
  ∧ backward_range (BSModel.nSteps (modelObj lsm_am)) !! 0%nat = Some 1%nat
  ∧ loop_body normal_equations_fit lsm_am 1 1 lsm_σ0 = inr lsm_σ1
  ∧ ∃ β frame,
      regressionFunction normal_equations_fit lsm_am
        (cols_from (payoffMatrix lsm_σ0) (1 + 1)) (cols_from lsm_paths (1 + 1))
        (cols_from (exerciseDecisionMatrix lsm_σ0) (1 + 1))
        (discountFactors lsm_σ0 ++ [discount_factor lsm_am 1 1]) = inr (WithConst β, frame)
      ∧ ∀ p, (p < BSModel.numberOfPaths (modelObj lsm_am))%nat →
          let x := entry lsm_paths p (1 + 1) in
          let e := intrinsic lsm_am x in
          let c := const β + coef_X β * x + coef_X_Squared β * x ^ 2 in
          (entry (exerciseDecisionMatrix lsm_σ1) p 1 ≠ 0 ↔ c < e ∧ 0 < e)
          ∧ (c < e ∧ 0 < e →
               entry (payoffMatrix lsm_σ1) p 1 = e
               ∧ entry (exerciseDecisionMatrix lsm_σ1) p 1 = 1
               ∧ ∀ s, (1 < s)%nat →
                   entry (payoffMatrix lsm_σ1) p s = 0
                   ∧ entry (exerciseDecisionMatrix lsm_σ1) p s = 0)
          ∧ (¬ (c < e ∧ 0 < e) →
               entry (payoffMatrix lsm_σ1) p 1 = 0
               ∧ entry (exerciseDecisionMatrix lsm_σ1) p 1 = 0
               ∧ ∀ s, (1 < s)%nat →
                   entry (payoffMatrix lsm_σ1) p s = entry (payoffMatrix lsm_σ0) p s
                   ∧ entry (exerciseDecisionMatrix lsm_σ1) p s =
                       entry (exerciseDecisionMatrix lsm_σ0) p s).
Proof.
  split; [exact lsm_initialize|]. split; [reflexivity|]. split; [reflexivity|].
  split; [exact lsm_ols_step1|].
  exact (exercise_decision_rule normal_equations_fit lsm_am 1 lsm_paths
           lsm_σ0 lsm_σ0 lsm_σ1 0 1 lsm_initialize eq_refl eq_refl lsm_ols_step1).
Defined.


(** C5 at the worked example. *)
Lemma finalization_formula_witness :
  Option.nSteps (optionObj lsm_am) = BSModel.nSteps (modelObj lsm_am)
  ∧ initialize lsm_am lsm_paths = inr lsm_σ0
  ∧ for_each (loop_body normal_equations_fit lsm_am 1)
      (backward_range (BSModel.nSteps (modelObj lsm_am))) lsm_σ0 = inr lsm_σ2
  ∧ ∃ P,
      priceAmByLSMC normal_equations_fit lsm_am lsm_paths 1 =
        inr (sumR ((λ p, sumR ((λ i, entry (payoffMatrix lsm_σ2) p i
                                      * exp (- Stock.r (stockObj lsm_am) * 1 * INR (i + 1)))
                                 <$> seq 0 (BSModel.nSteps (modelObj lsm_am))))
                     <$> seq 0 (BSModel.numberOfPaths (modelObj lsm_am)))
             / INR (BSModel.numberOfPaths (modelObj lsm_am)),
             P, exerciseDecisionMatrix lsm_σ2, results_dict lsm_σ2)
      ∧ ∀ p i, entry P p i
               = entry (payoffMatrix lsm_σ2) p i
                 * exp (- Stock.r (stockObj lsm_am) * 1 * INR (i + 1)).
Proof.
  split; [reflexivity|]. split; [exact lsm_initialize|]. split; [exact lsm_ols_loop|].
  exact (finalization_formula normal_equations_fit lsm_am lsm_paths 1 lsm_σ0 lsm_σ2
           eq_refl lsm_initialize lsm_ols_loop).
Defined.

(** C9 at the worked example. *)
Lemma samplePaths_read_only_witness :
  ∃ V σ, run normal_equations_fit lsm_am lsm_paths 1 = inr (V, σ)
         ∧ samplePaths σ = lsm_paths.
Proof.
  eexists _, _. split; [exact lsm_ols_run|].
  exact (samplePaths_read_only normal_equations_fit lsm_am lsm_paths 1 _ _ lsm_ols_run).
Defined.

(** C4, counterexample.  Two paths, both in the money at the only early date,
    intrinsic payoffs 1 and 2.  With a continuation value of 0 (all
    coefficients zero) the exercise condition holds for path 0, its payoff
    of 1 being positive.  The program runs the regression on the two rows: an
    OLS routine that rejects the singular system ends the run with its
    exception, and with any routine that returns a least-squares solution (the
    line through the two rows is one) path 0 continues and keeps its payoff
    of 5 at expiry.  And two paths of which one is in the money at the early
    date, at the price 9: the design gets no constant and the run ends in an
    exception whatever the OLS routine, in [KeyError] with a routine that
    raises nothing on one row; no intrinsic payoff stands in for the
    continuation value. *)
Lemma degenerate_regression_counterexample :
  initialize two_am two_paths = inr two_σ0
  ∧ in_the_money two_am two_paths 0 = [0; 1]%nat
  ∧ intrinsic two_am (entry two_paths 0 1) = 1
  ∧ exercises two_am (Params 0 0 0) (entry two_paths 0 1) = true
  ∧ loop_body normal_equations_fit two_am 1 0 two_σ0 = inl LinAlgError
  ∧ normal_equations (regression_y two_am 1 two_σ0 0)
      (regression_design two_am two_σ0 0) two_β
  ∧ (∀ fit σ,
       solves_least_squares fit → loop_body fit two_am 1 0 two_σ0 = inr σ →
       entry (payoffMatrix σ) 0 0 = 0 ∧ entry (payoffMatrix σ) 0 1 = 5
       ∧ entry (exerciseDecisionMatrix σ) 0 0 = 0)
  ∧ in_the_money two_am lone_paths 0 = [0]%nat
  ∧ priceAmByLSMC normal_equations_fit two_am lone_paths 1 = inl KeyError
  ∧ ∀ fit, ∃ e, priceAmByLSMC fit two_am lone_paths 1 = inl e.
Proof.
  split; [exact two_initialize|]. split; [exact two_itm|].
  split; [unfold intrinsic, entry; cbn; eval_R; lra|].
  split; [apply exercises_eq_true; unfold fitted, intrinsic, entry; cbn; eval_R; lra|].
  split; [exact two_rejected|].
  split; [rewrite two_y, two_design; exact two_normal|].
  split; [intros fit σ; apply two_least_squares|].
  split; [exact lone_itm|]. split; [exact lone_key_error|exact lone_raises].
Qed.

(** C4 (as amended) at the example with one path in the money, whose
    iteration ends in [KeyError]. *)
Lemma degenerate_regression_not_special_witness :
  initialize two_am lone_paths = inr lone_σ0
  ∧ for_each (loop_body normal_equations_fit two_am 1)
      (take 0 (backward_range (BSModel.nSteps (modelObj two_am)))) lone_σ0 = inr lone_σ0
  ∧ backward_range (BSModel.nSteps (modelObj two_am)) !! 0%nat = Some 0%nat
  ∧ col lone_paths (0 + 1) = inr [9; 11]
  ∧ length [9; 11] = BSModel.numberOfPaths (modelObj two_am)
  ∧ (length (in_the_money two_am lone_paths 0) < 3)%nat
  ∧ constant_skipped two_am lone_paths 0 = true
  ∧ loop_body normal_equations_fit two_am 1 0 lone_σ0 = inl KeyError
  ∧ loop_body normal_equations_fit two_am 1 0 lone_σ0 =
      (if decide (Option.nSteps (optionObj two_am) = 0%nat) then inl ZeroDivisionError
       else if constant_skipped two_am lone_paths 0
       then match ols_no_const normal_equations_fit (regression_y two_am 1 lone_σ0 0)
                    (regression_X two_am lone_σ0 0) with
            | inl e => inl e
            | inr _ => inl KeyError
            end
       else match normal_equations_fit (regression_y two_am 1 lone_σ0 0)
                    (regression_design two_am lone_σ0 0) with
            | inl e => inl e
            | inr β => inr (store_after_step two_am 1 0 lone_σ0 [9; 11] β)
            end)
  ∧ (constant_skipped two_am lone_paths 0 = true ↔
     in_the_money two_am lone_paths 0 ≠ []
     ∧ ∃ v, v ≠ 0
            ∧ ((∀ p, p ∈ in_the_money two_am lone_paths 0 →
                     entry lone_paths p (0 + 1) = v)
               ∨ (∀ p, p ∈ in_the_money two_am lone_paths 0 →
                       entry lone_paths p (0 + 1) ^ 2 = v))).
Proof.
  assert (length (in_the_money two_am lone_paths 0) < 3)%nat as Hitm
    by (rewrite lone_itm; cbn; lia).
  split; [exact lone_initialize|]. split; [reflexivity|]. split; [reflexivity|].
  split; [reflexivity|]. split; [reflexivity|]. split; [exact Hitm|].
  split; [exact lone_skipped|]. split; [exact lone_ols_step|].
  exact (degenerate_regression_not_special normal_equations_fit two_am 1 lone_paths
           lone_σ0 lone_σ0 0 0 [9; 11] lone_initialize eq_refl eq_refl eq_refl eq_refl
           Hitm).
Defined.

(** C7, counterexample.  Four paths at a zero rate, strike 10, prices 6, 7, 8, 9
    at the early date and 6, 6.81, 8, 8.98 at expiry.  The regression values
    continuing on the last path at 0.9905, so the path exercises for 1 and
    gives up the 1.02 it pays at expiry: the American price is 10.19/4, the
    European price of the same paths 10.21/4. *)
Lemma american_below_european_counterexample :
  ∃ dt P E rd,
    nrows dip_paths = BSModel.numberOfPaths (modelObj dip_am)
    ∧ ncols dip_paths = (BSModel.nSteps (modelObj dip_am) + 1)%nat
    ∧ getDt dip_am = inr dt
    ∧ priceAmByLSMC normal_equations_fit dip_am dip_paths dt
      = inr (10.19 / 4, P, E, rd)
    ∧ EurOption.priceByBSMC dip_eur dip_paths "put" = inr (10.21 / 4)
    ∧ 10.19 / 4 < 10.21 / 4.
Proof.
  destruct (dip_price _ normal_equations_fit_solves normal_equations_fit_total)
    as [P HP].
  exists 1, P, (exerciseDecisionMatrix dip_σ1), [(0%nat, WithConst dip_β)].
  split; [reflexivity|]. split; [reflexivity|]. split; [exact dip_dt|].
  split; [exact HP|].
  split; [exact dip_european|lra].
Qed.

Lemma pays_ols_price :
  priceAmByLSMC normal_equations_fit hold_am pays_paths 1 =
    inr (weighted_total (final_discount hold_am 1) 3 2 (payoffMatrix pays_σ1) / INR 3,
         NdArray 2 (imap (λ i v, v * final_discount hold_am 1 i)
                      <$> rows (payoffMatrix pays_σ1)),
         exerciseDecisionMatrix pays_σ1, [(0%nat, WithConst pays_β)]).
Proof. exact (pays_price _ normal_equations_fit_solves normal_equations_fit_total). Qed.

(** C7 (as amended) at a run whose one early exercise, of path 1, pays 2 for a
    cash flow worth [0.5·exp(-0.06)]. *)
Lemma american_at_least_european_if_exercise_pays_witness :
  ∃ dt V P E rd Ve,
    Option.nSteps (optionObj hold_am) = BSModel.nSteps (modelObj hold_am)
    ∧ nrows pays_paths = BSModel.numberOfPaths (modelObj hold_am)
    ∧ BSModel.stockObj (modelObj hold_am) = stockObj hold_am
    ∧ getDt hold_am = inr dt
    ∧ initialize hold_am pays_paths = inr pays_σ0
    ∧ priceAmByLSMC normal_equations_fit hold_am pays_paths dt
      = inr (V, P, E, rd)
    ∧ exercises hold_am pays_β (entry pays_paths 1 1) = true
    ∧ EurOption.priceByBSMC (EurOption.Build (stockObj hold_am) (optionObj hold_am))
        pays_paths "put" = inr Ve
    ∧ Ve <= V.
Proof.
  eexists 1, _, _, _, _, _.
  split; [reflexivity|]. split; [reflexivity|]. split; [reflexivity|].
  split; [exact hold_dt|].
  split; [exact pays_initialize|]. split; [exact pays_ols_price|].
  split.
  { apply exercises_eq_true; unfold fitted, intrinsic, entry, pays_β; cbn; eval_R;
      pose proof lsm_d_bounds; lra. }
  split; [exact pays_european|].
  exact (american_at_least_european_if_exercise_pays normal_equations_fit hold_am
           pays_paths pays_σ0 1 _ _ _ _ _ eq_refl eq_refl eq_refl hold_dt
           pays_initialize pays_ols_price (pays_exercise normal_equations_fit)
           pays_european).
Defined.



Lemma hold_ols_price :
  priceAmByLSMC normal_equations_fit hold_am hold_paths 1 =
    inr (weighted_total (final_discount hold_am 1) 3 2 (payoffMatrix hold_σ1) / INR 3,
         NdArray 2 (imap (λ i v, v * final_discount hold_am 1 i)
                      <$> rows (payoffMatrix hold_σ1)),
         exerciseDecisionMatrix hold_σ1, [(0%nat, WithConst hold_β)]).
Proof. exact (hold_price _ normal_equations_fit_solves normal_equations_fit_total). Qed.

(** C10 at a run on which no path exercises early. *)
Lemma no_early_exercise_is_european_witness :
  ∃ dt V P E rd,
    Option.nSteps (optionObj hold_am) = BSModel.nSteps (modelObj hold_am)
    ∧ nrows hold_paths = BSModel.numberOfPaths (modelObj hold_am)
    ∧ getDt hold_am = inr dt
    ∧ priceAmByLSMC normal_equations_fit hold_am hold_paths dt
      = inr (V, P, E, rd)
    ∧ (∀ k β p, (k, WithConst β) ∈ rd → (p < BSModel.numberOfPaths (modelObj hold_am))%nat →
                exercises hold_am β (entry hold_paths p (k + 1)) = false)
    ∧ EurOption.priceByBSMC (EurOption.Build (stockObj hold_am) (optionObj hold_am))
        hold_paths "put" = inr V.
Proof.
  eexists 1, _, _, _, _.
  split; [reflexivity|]. split; [reflexivity|]. split; [exact hold_dt|].
  split; [exact hold_ols_price|]. split; [exact hold_never_logged|].
  exact (no_early_exercise_is_european normal_equations_fit hold_am hold_paths
           1 _ _ _ _ eq_refl eq_refl hold_dt hold_ols_price hold_never_logged).
Defined.

(** * The path simulation *)

Section gbm.
Variable self : BSModel.t.
Variable Z : ndarray.
Local Abbreviation nsteps := (Option.nSteps (BSModel.opnObj self)).
Local Abbreviation npaths := (BSModel.numberOfPaths self).

Lemma broadcast_to_singleton (k : nat) (x : R) :
  broadcast_to k [x] = inr (replicate k x).
Proof.
  unfold broadcast_to. case_decide as Hk; [|done].
  simpl in Hk. by subst k.
Qed.

Lemma gbm_row_length (j p : nat) : length (gbm_row self Z j p) = (nsteps + 1)%nat.
Proof. unfold gbm_row. by rewrite length_fmap, length_seq. Qed.

Lemma gbm_paths_shaped (j : nat) : shaped npaths (nsteps + 1) (gbm_paths self Z j).
Proof.
  repeat split.
  - unfold nrows, gbm_paths. simpl. by rewrite length_fmap, length_seq.
  - unfold rectangular, gbm_paths. simpl. apply Forall_fmap, Forall_true.
    intros p. apply gbm_row_length.
Qed.

Lemma gbm_price_0 (p : nat) : gbm_price self Z p 0 = Stock.s0 (BSModel.stockObj self).
Proof.
  unfold gbm_price. simpl. rewrite !Rmult_0_r, Rplus_0_r, exp_0. lra.
Qed.

Lemma gbm_price_S (p t : nat) :
  gbm_price self Z p (S t)
  = gbm_price self Z p t
    * exp ((Stock.r (BSModel.stockObj self)
            - 0.5 * Stock.sigma (BSModel.stockObj self) ^ 2) * gbm_dt self
           + Stock.sigma (BSModel.stockObj self) * (sqrt (gbm_dt self) * entry Z p t)).
Proof.
  unfold gbm_price. rewrite seq_S, fmap_app, sumR_app, S_INR.
  rewrite (Rmult_assoc (Stock.s0 _) (exp _) (exp _)), <- exp_plus. do 2 f_equal.
  unfold sumR at 2. simpl. ring.
Qed.

Lemma gbm_row_lookup (j p t : nat) :
  (t ≤ nsteps)%nat →
  gbm_row self Z j p !! t = Some (if decide (t ≤ j)%nat then gbm_price self Z p t else 0).
Proof.
  intros Ht. unfold gbm_row. rewrite list_lookup_fmap, lookup_seq_lt by lia. done.
Qed.

Lemma gbm_row_S (j p : nat) :
  (j < nsteps)%nat →
  <[S j:=gbm_price self Z p (S j)]> (gbm_row self Z j p) = gbm_row self Z (S j) p.
Proof.
  intros Hj. apply list_eq. intros t.
  destruct (decide (t ≤ nsteps)%nat) as [Ht|Ht].
  - rewrite gbm_row_lookup by done.
    destruct (decide (t = S j)) as [->|Hne].
    + rewrite list_lookup_insert_eq by (rewrite gbm_row_length; lia).
      by rewrite decide_True by lia.
    + rewrite list_lookup_insert_ne by done. rewrite gbm_row_lookup by done.
      destruct (decide (t ≤ j)%nat).
      * by rewrite decide_True by lia.
      * by rewrite decide_False by lia.
  - rewrite !lookup_ge_None_2; [done|rewrite gbm_row_length; lia|].
    rewrite length_insert, gbm_row_length. lia.
Qed.

Lemma gbm_paths_entry (j p t : nat) :
  (p < npaths)%nat → (t ≤ nsteps)%nat →
  entry (gbm_paths self Z j) p t = if decide (t ≤ j)%nat then gbm_price self Z p t else 0.
Proof.
  intros Hp Ht. unfold entry, gbm_paths. simpl.
  rewrite list_lookup_fmap, lookup_seq_lt by done. simpl.
  by rewrite gbm_row_lookup.
Qed.

(** The first assignment: the spot in column 0. *)
Lemma gbm_initial :
  set_col (zeros npaths (nsteps + 1)) 0 [Stock.s0 (BSModel.stockObj self)]
  = inr (gbm_paths self Z 0).
Proof.
  unfold set_col. simpl. rewrite decide_True by lia.
  unfold nrows. simpl. rewrite length_replicate, broadcast_to_singleton. simpl.
  unfold gbm_paths. do 2 f_equal.
  apply list_eq. intros p.
  destruct (decide (p < npaths)%nat) as [Hp|Hp].
  - rewrite list_lookup_fmap, lookup_seq_lt by done. simpl.
    rewrite lookup_zip_with, !lookup_replicate_2 by done. simpl. f_equal.
    apply list_eq. intros t.
    destruct (decide (t ≤ nsteps)%nat) as [Ht|Ht].
    + rewrite gbm_row_lookup by done.
      destruct t as [|t].
      * rewrite list_lookup_insert_eq by (rewrite length_replicate; lia).
        by rewrite decide_True, gbm_price_0 by lia.
      * rewrite list_lookup_insert_ne by done.
        rewrite lookup_replicate_2 by lia. by rewrite decide_False by lia.
    + rewrite !lookup_ge_None_2; [done|rewrite gbm_row_length; lia|].
      rewrite length_insert, length_replicate. lia.
  - rewrite !lookup_ge_None_2; [done|..].
    + rewrite length_fmap, length_seq. lia.
    + rewrite length_zip_with, !length_replicate. lia.
Qed.

Hypothesis Hrows : nrows Z = npaths.

(** One iteration of the simulation loop. *)
Lemma gbm_step_eq (j : nat) :
  (j < nsteps)%nat → (j < ncols Z)%nat →
  BSModel.gbm_step self (gbm_dt self) Z (S j) (gbm_paths self Z j)
  = inr (gbm_paths self Z (S j)).
Proof.
  intros Hj Hc. unfold BSModel.gbm_step.
  replace (S j - 1)%nat with j by lia.
  rewrite (col_eq Z j) by done. simpl.
  rewrite (col_eq (gbm_paths self Z j) j) by (simpl; lia). simpl.
  rewrite broadcast2_same
    by (rewrite !length_fmap, length_seq; unfold nrows in Hrows; lia).
  simpl.
  rewrite (set_col_eq npaths (nsteps + 1));
    [|apply gbm_paths_shaped|lia
     |rewrite length_zip_with, !length_fmap, length_seq; unfold nrows in Hrows; lia].
  unfold gbm_paths. simpl. do 2 f_equal.
  apply list_eq. intros p.
  destruct (decide (p < npaths)%nat) as [Hp|Hp].
  - assert (is_Some (rows Z !! p)) as [zrow Hz]
      by (apply lookup_lt_is_Some; unfold nrows in Hrows; lia).
    rewrite !lookup_zip_with, !list_lookup_fmap, lookup_seq_lt, Hz by done.
    cbn [fmap option_fmap option_map mbind option_bind]. f_equal.
    rewrite <- gbm_row_S by done. f_equal.
    change (0 + p)%nat with p.
    rewrite gbm_price_S. unfold entry. rewrite Hz. simpl.
    rewrite (gbm_row_lookup j p j), decide_True by lia. reflexivity.
  - rewrite !lookup_ge_None_2; [done|..].
    + rewrite length_fmap, length_seq. lia.
    + rewrite length_zip_with, !length_fmap, length_seq. lia.
Qed.

Lemma gbm_loop (j : nat) :
  (j ≤ nsteps)%nat → (j ≤ ncols Z)%nat →
  for_each (BSModel.gbm_step self (gbm_dt self) Z) (seq 1 j) (gbm_paths self Z 0)
  = inr (gbm_paths self Z j).
Proof.
  induction j as [|j IH]; intros Hj Hc; [done|].
  rewrite seq_S, for_each_app, IH by lia. simpl.
  by rewrite gbm_step_eq by lia.
Qed.

Lemma generateSamplePaths_eq :
  nsteps ≠ 0%nat → (nsteps ≤ ncols Z)%nat →
  BSModel.generateSamplePaths self Z = inr (gbm_paths self Z nsteps).
Proof.
  intros Hn Hc. unfold BSModel.generateSamplePaths.
  rewrite decide_False by done. rewrite gbm_initial. simpl.
  fold (gbm_dt self). by rewrite gbm_loop.
Qed.

Lemma generateSamplePaths_short :
  nsteps ≠ 0%nat → (ncols Z < nsteps)%nat →
  BSModel.generateSamplePaths self Z = inl IndexError.
Proof.
  intros Hn Hc. unfold BSModel.generateSamplePaths.
  rewrite decide_False by done. rewrite gbm_initial. simpl.
  fold (gbm_dt self).
  replace (seq 1 nsteps) with (seq 1 (ncols Z) ++ seq (1 + ncols Z) (nsteps - ncols Z))
    by (rewrite <- seq_app; f_equal; lia).
  rewrite for_each_app, gbm_loop by lia. simpl.
  destruct (nsteps - ncols Z)%nat as [|k] eqn:Hk; [lia|]. simpl.
  unfold BSModel.gbm_step. replace (S (ncols Z) - 1)%nat with (ncols Z) by lia.
  assert (col Z (ncols Z) = inl IndexError) as ->
    by (unfold col; by rewrite decide_False by lia).
  reflexivity.
Qed.
End gbm.

Lemma set_col_entry_other (a a' : ndarray) (j i p : nat) (v : list R) :
  set_col a j v = inr a' → i ≠ j → entry a' p i = entry a p i.
Proof.
  intros (Hj & v' & Hb & ->)%set_col_inr Hne.
  apply broadcast_to_inr in Hb as [Hlen _]. unfold nrows in Hlen.
  unfold entry. simpl. rewrite lookup_zip_with.
  destruct (rows a !! p) as [row|] eqn:Hrow; simpl; [|done].
  destruct (v' !! p) as [x|] eqn:Hx; simpl.
  - by rewrite list_lookup_insert_ne by done.
  - apply lookup_ge_None in Hx. apply lookup_lt_Some in Hrow. lia.
Qed.

Lemma gbm_step_shaped (self : BSModel.t) (dt : R) (Z : ndarray) (t k m : nat)
    (a a' : ndarray) :
  shaped k m a → BSModel.gbm_step self dt Z t a = inr a' → shaped k m a'.
Proof.
  intros Ha H. unfold BSModel.gbm_step in H. repeat inv_bind H.
  by eapply set_col_shaped.
Qed.

Lemma gbm_step_entry_other (self : BSModel.t) (dt : R) (Z : ndarray) (t i p : nat)
    (a a' : ndarray) :
  BSModel.gbm_step self dt Z t a = inr a' → i ≠ t → entry a' p i = entry a p i.
Proof.
  intros H Hne. unfold BSModel.gbm_step in H. repeat inv_bind H.
  by eapply set_col_entry_other.
Qed.

Lemma generateSamplePaths_inr (self : BSModel.t) (Z paths : ndarray) :
  BSModel.generateSamplePaths self Z = inr paths →
  Option.nSteps (BSModel.opnObj self) ≠ 0%nat
  ∧ for_each (BSModel.gbm_step self (gbm_dt self) Z)
      (seq 1 (Option.nSteps (BSModel.opnObj self))) (gbm_paths self Z 0) = inr paths.
Proof.
  unfold BSModel.generateSamplePaths. case_decide as Hn; [discriminate|].
  intros H. rewrite (gbm_initial self Z) in H. by split.
Qed.

(** X1.  Shape of the simulated matrix.  Whenever [generateSamplePaths]
    returns, whatever the shape of the matrix of draws, the result has
    [numberOfPaths] rows of [opnObj.nSteps + 1] entries each, and its column 0
    holds the spot [s0] on every path. *)
Theorem generateSamplePaths_shape (self : BSModel.t) (Z paths : ndarray) :
  BSModel.generateSamplePaths self Z = inr paths →
  shaped (BSModel.numberOfPaths self) (Option.nSteps (BSModel.opnObj self) + 1) paths
  ∧ ∀ p, (p < BSModel.numberOfPaths self)%nat →
         entry paths p 0 = Stock.s0 (BSModel.stockObj self).
Proof.
  intros [Hn Hloop]%generateSamplePaths_inr.
  pose proof (for_each_prefix_ind (BSModel.gbm_step self (gbm_dt self) Z)
    (seq 1 (Option.nSteps (BSModel.opnObj self))) (gbm_paths self Z 0) paths
    (λ _ a, shaped (BSModel.numberOfPaths self)
              (Option.nSteps (BSModel.opnObj self) + 1) a
            ∧ ∀ p, (p < BSModel.numberOfPaths self)%nat →
                   entry a p 0 = Stock.s0 (BSModel.stockObj self))) as Hind.
  apply Hind; [| |exact Hloop]; clear Hind.
  - split; [apply gbm_paths_shaped|].
    intros p Hp. rewrite gbm_paths_entry by (done || lia).
    by rewrite decide_True, gbm_price_0 by lia.
  - intros j t a a' _ Ht Hstep [Ha H0]. split; [by eapply gbm_step_shaped|].
    intros p Hp. rewrite <- (H0 p Hp).
    eapply gbm_step_entry_other; [done|].
    apply lookup_seq in Ht. lia.
Qed.

Lemma generateSamplePaths_success (self : BSModel.t) (Z paths : ndarray) :
  nrows Z = BSModel.numberOfPaths self →
  BSModel.generateSamplePaths self Z = inr paths →
  Option.nSteps (BSModel.opnObj self) ≠ 0%nat
  ∧ (Option.nSteps (BSModel.opnObj self) ≤ ncols Z)%nat
  ∧ paths = gbm_paths self Z (Option.nSteps (BSModel.opnObj self)).
Proof.
  intros Hrows HS.
  destruct (decide (Option.nSteps (BSModel.opnObj self) = 0%nat)) as [Hn|Hn].
  { unfold BSModel.generateSamplePaths in HS. by rewrite decide_True in HS. }
  destruct (decide (Option.nSteps (BSModel.opnObj self) ≤ ncols Z)%nat) as [Hc|Hc].
  - rewrite generateSamplePaths_eq in HS by done. by injection HS as <-.
  - rewrite generateSamplePaths_short in HS by (done || lia). discriminate.
Qed.

(** X2.  The simulation in closed form.  For draws with a row per path, the
    price [generateSamplePaths] puts at path [p] and date [t] is
    [s0 · exp((r - σ²/2)·t·dt + σ·sqrt(dt)·(Z[p,0] + ... + Z[p,t-1]))] with
    [dt = timeToExpiry / nSteps]: the loop's products of one-step growth
    factors telescope.  The expiry is not negative, as [np.sqrt(dt)] needs. *)
Theorem generateSamplePaths_closed_form (self : BSModel.t) (Z paths : ndarray) (p t : nat) :
  0 <= Option.timeToExpiry (BSModel.opnObj self) →
  nrows Z = BSModel.numberOfPaths self →
  BSModel.generateSamplePaths self Z = inr paths →
  (p < BSModel.numberOfPaths self)%nat → (t ≤ Option.nSteps (BSModel.opnObj self))%nat →
  entry paths p t =
    Stock.s0 (BSModel.stockObj self)
    * exp ((Stock.r (BSModel.stockObj self)
            - 0.5 * Stock.sigma (BSModel.stockObj self) ^ 2) * gbm_dt self * INR t
           + Stock.sigma (BSModel.stockObj self) * sqrt (gbm_dt self)
             * sumR ((λ u, entry Z p u) <$> seq 0 t)).
Proof.
  intros _ Hrows HS Hp Ht.
  destruct (generateSamplePaths_success self Z paths Hrows HS) as (_ & _ & ->).
  rewrite gbm_paths_entry by done. by rewrite decide_True by done.
Qed.

(** X3.  When the simulation returns.  For draws with a row per path,
    [generateSamplePaths] returns exactly when the option has at least one
    step and the draws have at least [opnObj.nSteps] columns; it raises
    [ZeroDivisionError] exactly when the step count is 0 (the division for
    [dt]), [IndexError] exactly when there are steps but fewer columns of
    draws, and nothing else.  The step count is that of [opnObj]: the
    [nSteps] of the model itself is not read. *)
Theorem generateSamplePaths_outcome (self : BSModel.t) (Z : ndarray) :
  nrows Z = BSModel.numberOfPaths self →
  match BSModel.generateSamplePaths self Z with
  | inr _ =>
      Option.nSteps (BSModel.opnObj self) ≠ 0%nat
      ∧ (Option.nSteps (BSModel.opnObj self) ≤ ncols Z)%nat
  | inl ZeroDivisionError => Option.nSteps (BSModel.opnObj self) = 0%nat
  | inl IndexError =>
      Option.nSteps (BSModel.opnObj self) ≠ 0%nat
      ∧ (ncols Z < Option.nSteps (BSModel.opnObj self))%nat
  | inl _ => False
  end.
Proof.
  intros Hrows.
  destruct (decide (Option.nSteps (BSModel.opnObj self) = 0%nat)) as [Hn|Hn].
  { unfold BSModel.generateSamplePaths. by rewrite decide_True. }
  destruct (decide (Option.nSteps (BSModel.opnObj self) ≤ ncols Z)%nat) as [Hc|Hc].
  - by rewrite generateSamplePaths_eq.
  - rewrite generateSamplePaths_short by (done || lia). split; [done|lia].
Qed.

(** X5.  Simulated prices are not negative.  With a spot that is not
    negative, no entry of the matrix [generateSamplePaths] returns is
    negative, whatever the rate, the volatility and the draws: a growth
    factor [np.exp(...)] is never negative.  Nothing is said of an entry
    being other than 0: a growth factor that underflows makes the price
    [0.0]. *)
Theorem generateSamplePaths_nonneg (self : BSModel.t) (Z paths : ndarray) (p t : nat) :
  0 <= Option.timeToExpiry (BSModel.opnObj self) →
  nrows Z = BSModel.numberOfPaths self →
  BSModel.generateSamplePaths self Z = inr paths →
  0 <= Stock.s0 (BSModel.stockObj self) →
  (p < BSModel.numberOfPaths self)%nat → (t ≤ Option.nSteps (BSModel.opnObj self))%nat →
  0 <= entry paths p t.
Proof.
  intros _ Hrows HS Hs0 Hp Ht.
  destruct (generateSamplePaths_success self Z paths Hrows HS) as (_ & _ & ->).
  rewrite gbm_paths_entry by done. rewrite decide_True by done.
  unfold gbm_price. apply Rmult_le_pos; [done|apply Rlt_le, exp_pos].
Qed.

Lemma negated_entry (Z : ndarray) (p u : nat) : entry (negated Z) p u = - entry Z p u.
Proof.
  unfold entry, negated. simpl. rewrite list_lookup_fmap.
  destruct (rows Z !! p) as [row|]; simpl; [|lra].
  rewrite list_lookup_fmap. destruct (row !! u); simpl; lra.
Qed.

Lemma negated_nrows (Z : ndarray) : nrows (negated Z) = nrows Z.
Proof. unfold nrows, negated. simpl. by rewrite length_fmap. Qed.

Lemma sumR_fmap_opp {A : Type} (f : A → R) (l : list A) :
  sumR ((λ a, - f a) <$> l) = - sumR (f <$> l).
Proof. unfold sumR. induction l as [|a l IH]; csimpl; [lra|]. rewrite IH. lra. Qed.

(** X6.  Antithetic paths.  If the simulation returns on the draws [Z], it
    returns on [-Z] too, and the two prices of a path at a date multiply to
    [s0² · exp(2·(r - σ²/2)·t·dt)], which does not depend on the draws. *)
Theorem generateSamplePaths_antithetic (self : BSModel.t) (Z paths : ndarray) (p t : nat) :
  0 <= Option.timeToExpiry (BSModel.opnObj self) →
  nrows Z = BSModel.numberOfPaths self →
  BSModel.generateSamplePaths self Z = inr paths →
  (p < BSModel.numberOfPaths self)%nat → (t ≤ Option.nSteps (BSModel.opnObj self))%nat →
  ∃ paths', BSModel.generateSamplePaths self (negated Z) = inr paths'
        ∧ entry paths p t * entry paths' p t
          = Stock.s0 (BSModel.stockObj self) ^ 2
            * exp (2 * (Stock.r (BSModel.stockObj self)
                        - 0.5 * Stock.sigma (BSModel.stockObj self) ^ 2)
                   * gbm_dt self * INR t).
Proof.
  intros _ Hrows HS Hp Ht.
  destruct (generateSamplePaths_success self Z paths Hrows HS) as (Hn & Hc & ->).
  exists (gbm_paths self (negated Z) (Option.nSteps (BSModel.opnObj self))).
  split.
  - apply generateSamplePaths_eq; [by rewrite negated_nrows|done|done].
  - rewrite !gbm_paths_entry by done. rewrite !decide_True by done.
    unfold gbm_price.
    rewrite (sumR_fmap_ext (λ u, entry (negated Z) p u) (λ u, - entry Z p u))
      by (intros; apply negated_entry).
    rewrite sumR_fmap_opp.
    set (d := (Stock.r (BSModel.stockObj self)
               - 0.5 * Stock.sigma (BSModel.stockObj self) ^ 2) * gbm_dt self * INR t).
    set (w := Stock.sigma (BSModel.stockObj self) * sqrt (gbm_dt self)
              * sumR ((λ u, entry Z p u) <$> seq 0 t)).
    replace (Stock.sigma (BSModel.stockObj self) * sqrt (gbm_dt self)
             * - sumR ((λ u, entry Z p u) <$> seq 0 t)) with (- w) by (unfold w; ring).
    replace (2 * (Stock.r (BSModel.stockObj self)
                  - 0.5 * Stock.sigma (BSModel.stockObj self) ^ 2)
             * gbm_dt self * INR t) with ((d + w) + (d + - w)) by (unfold d; ring).
    rewrite (exp_plus (d + w)). ring.
Qed.

Lemma broadcast_to_mismatch (k : nat) (v : list R) :
  length v ≠ k → length v ≠ 1%nat → broadcast_to k v = inl ValueError.
Proof.
  intros Hk H1. unfold broadcast_to. rewrite decide_False by done.
  by destruct v as [|x [|y v]].
Qed.

Lemma broadcast2_mismatch {A B C : Type} (f : A → B → C) (a : list A) (b : list B) :
  length a ≠ length b → length b ≠ 1%nat →
  broadcast2 f a b = inl ValueError
  ∨ length a = 1%nat ∧ ∃ c, broadcast2 f a b = inr c ∧ length c = length b.
Proof.
  intros Hab Hb. unfold broadcast2. rewrite decide_False by done.
  destruct a as [|x [|x' a]].
  - left. by destruct b as [|y [|y' b]].
  - right. split; [done|]. eexists. split; [done|]. by rewrite length_fmap.
  - left. by destruct b as [|y [|y' b]].
Qed.

Lemma gbm_first_step_mismatch (self : BSModel.t) (dt : R) (Z : ndarray) :
  nrows Z ≠ BSModel.numberOfPaths self → nrows Z ≠ 1%nat → (0 < ncols Z)%nat →
  Option.nSteps (BSModel.opnObj self) ≠ 0%nat →
  BSModel.gbm_step self dt Z 1 (gbm_paths self Z 0) = inl ValueError.
Proof.
  intros Hrows H1 Hc Hn. unfold BSModel.gbm_step.
  change (1 - 1)%nat with 0%nat.
  rewrite (col_eq Z 0) by done. cbn [mbind result_bind].
  rewrite (col_eq (gbm_paths self Z 0) 0) by (simpl; lia). cbn [mbind result_bind].
  match goal with
  | |- context [broadcast2 Rmult ?a ?b] =>
      destruct (broadcast2_mismatch Rmult a b) as [->|(Ha & c & -> & Hlen)]
  end.
  - unfold gbm_paths. cbn [rows]. rewrite !length_fmap, length_seq.
    unfold nrows in Hrows. lia.
  - by rewrite !length_fmap.
  - reflexivity.
  - cbn [mbind result_bind]. unfold gbm_paths in Ha. cbn [rows] in Ha.
    rewrite !length_fmap, length_seq in Ha. rewrite !length_fmap in Hlen.
    unfold set_col. rewrite decide_True by (simpl; lia).
    rewrite broadcast_to_mismatch; [done| |].
    + unfold nrows, gbm_paths. simpl. rewrite length_fmap, length_seq.
      unfold nrows in Hrows. lia.
    + unfold nrows in H1. lia.
Qed.

(** X4.  Draws with the wrong number of rows.  When the matrix of draws has
    at least one column and a number of rows that is neither [numberOfPaths]
    nor 1, the first iteration of the simulation raises [ValueError]: the
    product of the previous column and the growth factors cannot be
    broadcast, or cannot be assigned to the column. *)
Theorem generateSamplePaths_row_mismatch (self : BSModel.t) (Z : ndarray) :
  nrows Z ≠ BSModel.numberOfPaths self → nrows Z ≠ 1%nat →
  Option.nSteps (BSModel.opnObj self) ≠ 0%nat → (0 < ncols Z)%nat →
  BSModel.generateSamplePaths self Z = inl ValueError.
Proof.
  intros Hrows H1 Hn Hc. unfold BSModel.generateSamplePaths.
  rewrite decide_False by done. rewrite (gbm_initial self Z).
  cbn [mbind result_bind].
  replace (seq 1 (Option.nSteps (BSModel.opnObj self)))
    with (1%nat :: seq 2 (Option.nSteps (BSModel.opnObj self) - 1))
    by (destruct (Option.nSteps (BSModel.opnObj self)); [done|simpl; do 2 f_equal; lia]).
  cbn [for_each]. by rewrite gbm_first_step_mismatch.
Qed.

(** * The European price by simulation *)

Lemma last_col_eq (a : ndarray) :
  (0 < ncols a)%nat →
  last_col a = inr ((λ p, entry a p (ncols a - 1)) <$> seq 0 (nrows a)).
Proof.
  intros Hc. unfold last_col. rewrite decide_False by lia.
  rewrite col_eq by lia. f_equal.
  apply (col_entries a (ncols a - 1)); [by apply col_eq; lia|].
  by rewrite length_fmap.
Qed.

Lemma priceByBSMC_put_eq (self : EurOption.t) (paths : ndarray) :
  (0 < ncols paths)%nat →
  EurOption.priceByBSMC self paths "put" =
    inr (sumR ((λ p, Rmax (Option.strike (EurOption.optionObj self)
                           - entry paths p (ncols paths - 1)) 0
                     * exp (- Stock.r (EurOption.stockObj self)
                            * Option.timeToExpiry (EurOption.optionObj self)))
                 <$> seq 0 (nrows paths))
         / INR (nrows paths)).
Proof.
  intros Hc. unfold EurOption.priceByBSMC.
  rewrite decide_False, decide_True by done. rewrite last_col_eq by done.
  cbn [mbind result_bind mret result_ret].
  rewrite <- !list_fmap_compose, length_fmap, length_seq. reflexivity.
Qed.

Lemma priceByBSMC_call_eq (self : EurOption.t) (paths : ndarray) :
  (0 < ncols paths)%nat →
  EurOption.priceByBSMC self paths "call" =
    inr (sumR ((λ p, Rmax (entry paths p (ncols paths - 1)
                           - Option.strike (EurOption.optionObj self)) 0
                     * exp (- Stock.r (EurOption.stockObj self)
                            * Option.timeToExpiry (EurOption.optionObj self)))
                 <$> seq 0 (nrows paths))
         / INR (nrows paths)).
Proof.
  intros Hc. unfold EurOption.priceByBSMC.
  rewrite decide_True by done. rewrite last_col_eq by done.
  cbn [mbind result_bind mret result_ret].
  rewrite <- !list_fmap_compose, length_fmap, length_seq. reflexivity.
Qed.

Lemma priceByBSMC_no_columns (self : EurOption.t) (paths : ndarray) (optionType : string) :
  ncols paths = 0%nat → optionType = "call" ∨ optionType = "put" →
  EurOption.priceByBSMC self paths optionType = inl IndexError.
Proof.
  intros Hc Htype. unfold EurOption.priceByBSMC, last_col.
  rewrite (decide_True (P:=ncols paths = 0%nat)) by done.
  destruct Htype as [->| ->]; [by rewrite decide_True by done|].
  by rewrite decide_False, decide_True by done.
Qed.

(** X8.  When [priceByBSMC] returns.  It returns exactly when the option type
    is "call" or "put" and the matrix has a column; it raises [ValueError]
    exactly for another option type, also on a matrix without columns, which
    is never indexed then; it raises [IndexError] exactly for a call or a put
    on a matrix without columns; and nothing else. *)
Theorem priceByBSMC_outcome (self : EurOption.t) (paths : ndarray) (optionType : string) :
  match EurOption.priceByBSMC self paths optionType with
  | inr _ => (optionType = "call" ∨ optionType = "put") ∧ (0 < ncols paths)%nat
  | inl ValueError => optionType ≠ "call" ∧ optionType ≠ "put"
  | inl IndexError => (optionType = "call" ∨ optionType = "put") ∧ ncols paths = 0%nat
  | inl _ => False
  end.
Proof.
  destruct (decide (optionType = "call")) as [Hcall|Hcall];
    [|destruct (decide (optionType = "put")) as [Hput|Hput]].
  - destruct (decide (ncols paths = 0)%nat) as [Hc|Hc].
    + rewrite priceByBSMC_no_columns by auto. auto.
    + subst. rewrite priceByBSMC_call_eq by lia. split; [auto|lia].
  - destruct (decide (ncols paths = 0)%nat) as [Hc|Hc].
    + rewrite priceByBSMC_no_columns by auto. auto.
    + subst. rewrite priceByBSMC_put_eq by lia. split; [auto|lia].
  - unfold EurOption.priceByBSMC. by rewrite !decide_False by done.
Qed.

Lemma sumR_fmap_plus {A : Type} (f g : A → R) (l : list A) :
  sumR ((λ a, f a + g a) <$> l) = sumR (f <$> l) + sumR (g <$> l).
Proof. unfold sumR. induction l as [|a l IH]; csimpl; [lra|]. rewrite IH. lra. Qed.

Lemma sumR_fmap_const {A : Type} (c : R) (l : list A) :
  sumR ((λ _, c) <$> l) = INR (length l) * c.
Proof.
  unfold sumR. induction l as [|a l IH]; [simpl; lra|].
  rewrite fmap_cons, length_cons, S_INR. cbn [foldr]. rewrite IH. lra.
Qed.

(** X9.  Put-call parity in the sample.  On a matrix with at least one row,
    the call price minus the put price that [priceByBSMC] returns is
    [exp(-r·T) · (mean of the last column - strike)]. *)
Theorem priceByBSMC_put_call_parity (self : EurOption.t) (paths : ndarray) (C P : R) :
  (0 < nrows paths)%nat →
  EurOption.priceByBSMC self paths "call" = inr C →
  EurOption.priceByBSMC self paths "put" = inr P →
  C - P = exp (- Stock.r (EurOption.stockObj self)
               * Option.timeToExpiry (EurOption.optionObj self))
          * (terminal_mean paths - Option.strike (EurOption.optionObj self)).
Proof.
  intros Hn HC HP.
  assert (0 < ncols paths)%nat as Hc.
  { destruct (decide (ncols paths = 0)%nat) as [H0|H0]; [|lia].
    rewrite priceByBSMC_no_columns in HC by auto. discriminate. }
  rewrite priceByBSMC_call_eq in HC by done. injection HC as <-.
  rewrite priceByBSMC_put_eq in HP by done. injection HP as <-.
  unfold terminal_mean.
  set (d := exp _). set (K := Option.strike _).
  assert (INR (nrows paths) ≠ 0) as HN by (apply not_0_INR; lia).
  assert (sumR ((λ p, Rmax (entry paths p (ncols paths - 1) - K) 0 * d)
                  <$> seq 0 (nrows paths))
          = sumR ((λ p, Rmax (K - entry paths p (ncols paths - 1)) 0 * d)
                    <$> seq 0 (nrows paths))
            + d * sumR ((λ p, entry paths p (ncols paths - 1)) <$> seq 0 (nrows paths))
            - INR (nrows paths) * (d * K)) as ->.
  { rewrite <- sumR_fmap_scale.
    assert (INR (nrows paths) * (d * K)
            = sumR ((λ _, d * K) <$> seq 0 (nrows paths))) as ->
      by (by rewrite sumR_fmap_const, length_seq).
    rewrite <- sumR_fmap_plus.
    match goal with |- ?a = ?b - ?c => enough (a + c = b) by lra end.
    rewrite <- sumR_fmap_plus. apply sumR_fmap_ext. intros p _.
    set (x := entry paths p (ncols paths - 1)).
    destruct (Rle_dec K x).
    - rewrite (Rmax_left (x - K) 0), (Rmax_right (K - x) 0) by lra. lra.
    - rewrite (Rmax_right (x - K) 0), (Rmax_left (K - x) 0) by lra. lra. }
  field. done.
Qed.

(** X10.  Bounds of the simulated put price.  On a matrix with at least one
    row whose last column holds no negative price, and for a strike that is
    not negative, the put price [priceByBSMC] returns lies between 0 and the
    discounted strike [strike · exp(-r·T)]. *)
Theorem priceByBSMC_put_bounds (self : EurOption.t) (paths : ndarray) (P : R) :
  (0 < nrows paths)%nat →
  0 <= Option.strike (EurOption.optionObj self) →
  (∀ p, (p < nrows paths)%nat → 0 <= entry paths p (ncols paths - 1)) →
  EurOption.priceByBSMC self paths "put" = inr P →
  0 <= P <= Option.strike (EurOption.optionObj self)
            * exp (- Stock.r (EurOption.stockObj self)
                   * Option.timeToExpiry (EurOption.optionObj self)).
Proof.
  intros Hn HK Hpos HP.
  assert (0 < ncols paths)%nat as Hc.
  { destruct (decide (ncols paths = 0)%nat) as [H0|H0]; [|lia].
    rewrite priceByBSMC_no_columns in HP by auto. discriminate. }
  rewrite priceByBSMC_put_eq in HP by done. injection HP as <-.
  set (d := exp _). set (K := Option.strike _) in *.
  assert (0 < d) as Hd by apply exp_pos.
  assert (0 < INR (nrows paths)) as HN by (apply lt_0_INR; lia).
  split.
  - apply Rmult_le_pos; [|left; by apply Rinv_0_lt_compat].
    apply sumR_nonneg, Forall_fmap, Forall_true. intros p. simpl.
    apply Rmult_le_pos; [apply Rmax_r|lra].
  - apply (Rmult_le_reg_r (INR (nrows paths))); [done|].
    replace (sumR _ / INR (nrows paths) * INR (nrows paths)) with
      (sumR ((λ p, Rmax (K - entry paths p (ncols paths - 1)) 0 * d)
               <$> seq 0 (nrows paths))) by (field; lra).
    assert (K * d * INR (nrows paths)
            = sumR ((λ _, K * d) <$> seq 0 (nrows paths))) as ->
      by (rewrite sumR_fmap_const, length_seq; ring).
    apply sumR_fmap_le. intros p [_ Hp]%elem_of_seq.
    apply Rmult_le_compat_r; [lra|].
    apply Rmax_lub; [|done]. specialize (Hpos p ltac:(lia)). lra.
Qed.

Lemma gbm_dt_total (self : BSModel.t) :
  Option.nSteps (BSModel.opnObj self) ≠ 0%nat →
  gbm_dt self * INR (Option.nSteps (BSModel.opnObj self))
  = Option.timeToExpiry (BSModel.opnObj self).
Proof. intros Hn. unfold gbm_dt. field. by apply not_0_INR. Qed.

(** X7.  No volatility.  With [sigma = 0] every simulated path ends at
    [s0 · exp(r·T)], so that [priceByBSMC] on the simulated matrix returns the
    discounted payoff [max(strike - s0·exp(r·T), 0) · exp(-r·T)] of a put,
    whatever the draws. *)
Theorem zero_volatility_put_price (self : BSModel.t) (Z paths : ndarray) :
  0 <= Option.timeToExpiry (BSModel.opnObj self) →
  nrows Z = BSModel.numberOfPaths self → (0 < BSModel.numberOfPaths self)%nat →
  Stock.sigma (BSModel.stockObj self) = 0 →
  BSModel.generateSamplePaths self Z = inr paths →
  EurOption.priceByBSMC (EurOption.Build (BSModel.stockObj self) (BSModel.opnObj self))
    paths "put"
  = inr (Rmax (Option.strike (BSModel.opnObj self)
               - Stock.s0 (BSModel.stockObj self)
                 * exp (Stock.r (BSModel.stockObj self)
                        * Option.timeToExpiry (BSModel.opnObj self))) 0
         * exp (- Stock.r (BSModel.stockObj self)
                * Option.timeToExpiry (BSModel.opnObj self))).
Proof.
  intros _ Hrows HN Hσ HS.
  destruct (generateSamplePaths_success self Z paths Hrows HS) as (Hn & Hc & ->).
  pose proof (gbm_paths_shaped self Z (Option.nSteps (BSModel.opnObj self)))
    as (Hcols & Hnrows & _).
  rewrite priceByBSMC_put_eq by (rewrite Hcols; lia).
  rewrite Hcols, Hnrows. cbn [EurOption.stockObj EurOption.optionObj]. f_equal.
  set (v := Rmax _ 0 * exp _).
  rewrite (sumR_fmap_ext _ (λ _, v)).
  - rewrite sumR_fmap_const, length_seq. field. apply not_0_INR. lia.
  - intros p [_ Hp]%elem_of_seq. unfold v. do 3 f_equal.
    rewrite gbm_paths_entry by lia. rewrite decide_True by lia.
    unfold gbm_price. rewrite Hσ. f_equal. f_equal.
    replace (Option.nSteps (BSModel.opnObj self) + 1 - 1)%nat
      with (Option.nSteps (BSModel.opnObj self)) by lia.
    rewrite <- (gbm_dt_total self Hn). ring.
Qed.

(** * The analytic price *)

(** X11.  When [priceByBSAnalytic] returns.  It returns a price exactly for a
    put with a strike other than 0.  A strike of 0 raises [ZeroDivisionError]
    whatever the option type, since [d1] is computed before the branch; with
    another strike a call raises [AttributeError] (line 116 reads
    [self.stockObj.T], and a [Stock] has no [T]) and any other option type
    raises [ValueError]. *)
Theorem priceByBSAnalytic_outcome (norm_cdf : R → R) (self : EurOption.t)
    (optionType : string) :
  match EurOption.priceByBSAnalytic norm_cdf self optionType with
  | inr _ => optionType = "put" ∧ Option.strike (EurOption.optionObj self) ≠ 0
  | inl ZeroDivisionError => Option.strike (EurOption.optionObj self) = 0
  | inl AttributeError =>
      optionType = "call" ∧ Option.strike (EurOption.optionObj self) ≠ 0
  | inl ValueError =>
      optionType ≠ "call" ∧ optionType ≠ "put"
      ∧ Option.strike (EurOption.optionObj self) ≠ 0
  | inl _ => False
  end.
Proof.
  unfold EurOption.priceByBSAnalytic. cbv zeta.
  repeat case_decide; auto.
Qed.

(** X12.  The analytic put price is at most the discounted strike
    [strike · exp(-r·T)], for any function with values in [0, 1] in the place
    of [norm.cdf].  The spot, the volatility, the strike and the expiry are
    positive, so that [d1] and [d2] are numbers. *)
Theorem priceByBSAnalytic_put_upper_bound (norm_cdf : R → R) (self : EurOption.t) (P : R) :
  (∀ x, 0 <= norm_cdf x <= 1) →
  0 < Stock.s0 (EurOption.stockObj self) →
  0 < Stock.sigma (EurOption.stockObj self) →
  0 < Option.strike (EurOption.optionObj self) →
  0 < Option.timeToExpiry (EurOption.optionObj self) →
  EurOption.priceByBSAnalytic norm_cdf self "put" = inr P →
  P <= Option.strike (EurOption.optionObj self)
       * exp (- Stock.r (EurOption.stockObj self)
              * Option.timeToExpiry (EurOption.optionObj self)).
Proof.
  intros Hcdf Hs0 _ HK _. unfold EurOption.priceByBSAnalytic. cbv zeta.
  case_decide as H0; [discriminate|].
  rewrite decide_False, decide_True by done. intros [= <-].
  set (d1 := (ln _ + _) / _). set (d2 := d1 - _).
  pose proof (Hcdf (- d1)) as [H1 _]. pose proof (Hcdf (- d2)) as [_ H2].
  pose proof (exp_pos (- Stock.r (EurOption.stockObj self)
                       * Option.timeToExpiry (EurOption.optionObj self))) as Hd.
  clearbody d1 d2.
  assert (0 <= Option.strike (EurOption.optionObj self)
               * exp (- Stock.r (EurOption.stockObj self)
                      * Option.timeToExpiry (EurOption.optionObj self))) as HKd
    by (apply Rmult_le_pos; lra).
  pose proof (Rmult_le_compat_l _ _ _ HKd H2) as Hle.
  assert (0 <= Stock.s0 (EurOption.stockObj self)) as Hs0' by lra.
  pose proof (Rmult_le_pos _ _ Hs0' H1). lra.
Qed.

(** * What a run can raise *)

Lemma col_total (a : ndarray) (j : nat) :
  (j < ncols a)%nat → ∃ x, col a j = inr x ∧ length x = nrows a.
Proof.
  intros Hj. eexists. split; [by apply col_eq|]. by rewrite length_fmap.
Qed.

Lemma initialize_total (self : t) (paths : ndarray) :
  nrows paths = N self → (0 < ncols paths)%nat → (0 < M self)%nat →
  ∃ σ0, initialize self paths = inr σ0.
Proof.
  intros Hn Hc HM.
  destruct (col_total paths (ncols paths - 1) ltac:(lia)) as (last & Hlast & Hlen).
  eexists. apply (initialize_eq self paths last); [|lia|done].
  unfold last_col. by rewrite decide_False by lia.
Qed.

Lemma regression_X_length (self : t) (dt : R) (σ : store) (k : nat) :
  length (regression_y self dt σ k) = length (regression_X self σ k).
Proof. unfold regression_y, regression_X. by rewrite !length_fmap. Qed.

(** What an iteration ends in on a store that satisfies the invariant. *)
Lemma loop_body_raises (fit : fitter) (self : t) (dt : R) (paths : ndarray)
    (k : nat) (σ : store) :
  nrows paths = N self → (k + 1 < ncols paths)%nat → (k + 1 < M self)%nat →
  store_inv self dt paths (k + 1) σ →
  match loop_body fit self dt k σ with
  | inr σ' => store_inv self dt paths k σ'
  | inl e => raised_in_loop fit self paths e
  end.
Proof.
  intros Hn Hc Hk Hinv.
  destruct (col_total paths (k + 1) Hc) as (x & Hx & Hlen).
  rewrite <- (inv_paths _ _ _ _ _ Hinv) in Hx.
  destruct (loop_body fit self dt k σ) as [e|σ'] eqn:Hstep;
    [|by apply (loop_body_inv fit self dt paths k σ)].
  rewrite (loop_body_outcome fit self dt paths k σ x) in Hstep by (done || lia).
  case_decide as H0; [left; by injection Hstep as <-|].
  right. exists k. split; [done|]. unfold raised_at.
  destruct (constant_skipped self paths k).
  - destruct (ols_no_const fit _ _) as [e'|b] eqn:Hfit; injection Hstep as <-.
    + right. eexists _, _. split; [|exact Hfit]. apply regression_X_length.
    + by left.
  - destruct (fit _ _) as [e'|β] eqn:Hfit; [|discriminate]. injection Hstep as <-.
    eexists _, _. split; [|exact Hfit]. apply regression_lengths.
Qed.

(** What the first [j] iterations of the backward loop can end in, on a
    matrix with a row per path and a column per step: a store that satisfies
    the invariant, or an exception of the loop. *)
Lemma backward_prefix_outcome (fit : fitter) (self : t) (dt : R) (paths : ndarray)
    (σ0 : store) (j : nat) :
  nrows paths = N self → (M self ≤ ncols paths)%nat →
  initialize self paths = inr σ0 → (j ≤ M self - 1)%nat →
  match for_each (loop_body fit self dt) (take j (backward_range (M self))) σ0 with
  | inr σ => store_inv self dt paths (M self - 1 - j) σ
  | inl e => raised_in_loop fit self paths e
  end.
Proof.
  intros Hn Hc Hinit. induction j as [|j IH]; intros Hj.
  - simpl. replace (M self - 1 - 0)%nat with (M self - 1)%nat by lia.
    by apply initialize_inv.
  - assert (backward_range (M self) !! j = Some (M self - 2 - j)%nat) as Hk
      by (apply backward_range_lookup; lia).
    rewrite (take_S_r _ _ _ Hk), for_each_app.
    specialize (IH ltac:(lia)).
    destruct (for_each _ (take j _) σ0) as [e|σ]; [done|].
    cbn [mbind result_bind for_each].
    set (k := (M self - 2 - j)%nat) in *.
    replace (M self - 1 - j)%nat with (k + 1)%nat in IH by lia.
    replace (M self - 1 - S j)%nat with k by lia.
    pose proof (loop_body_raises fit self dt paths k σ Hn ltac:(lia) ltac:(lia) IH) as H.
    by destruct (loop_body fit self dt k σ).
Qed.

Lemma backward_loop_outcome (fit : fitter) (self : t) (dt : R) (paths : ndarray)
    (σ0 : store) :
  nrows paths = N self → (M self ≤ ncols paths)%nat →
  initialize self paths = inr σ0 →
  match for_each (loop_body fit self dt) (backward_range (M self)) σ0 with
  | inr σ => store_inv self dt paths 0 σ
  | inl e => raised_in_loop fit self paths e
  end.
Proof.
  intros Hn Hc Hinit.
  pose proof (backward_prefix_outcome fit self dt paths σ0 (M self - 1) Hn Hc Hinit
                ltac:(lia)) as H.
  rewrite take_ge in H by (rewrite backward_range_length; lia).
  by replace (M self - 1 - (M self - 1))%nat with 0%nat in H by lia.
Qed.

Lemma priceAmByLSMC_outcome (fit : fitter) (self : t) (paths : ndarray) (dt : R) :
  nrows paths = N self → (M self ≤ ncols paths)%nat → (0 < M self)%nat →
  (Option.nSteps (optionObj self) ≤ M self)%nat →
  match priceAmByLSMC fit self paths dt with
  | inr _ => True
  | inl e => raised_in_loop fit self paths e
  end.
Proof.
  intros Hn Hc HM Hsteps.
  destruct (initialize_total self paths Hn ltac:(lia) HM) as [σ0 Hinit].
  pose proof (backward_loop_outcome fit self dt paths σ0 Hn Hc Hinit) as Hloop.
  unfold priceAmByLSMC, run. rewrite Hinit. cbn [mbind result_bind].
  destruct (for_each _ (backward_range _) σ0) as [e|σ]; [done|].
  cbn [mbind result_bind].
  destruct (store_inv_shaped _ _ _ _ _ Hloop) as [HP _].
  by rewrite (discount_loop_eq self dt (N self) (M self)) by done.
Qed.

(** With a step count of 0 in the option, the first iteration raises: the
    division of [getDt], the first statement of [regressionFunction]. *)
Lemma priceAmByLSMC_stepless (fit : fitter) (self : t) (paths : ndarray) (dt : R) :
  nrows paths = N self → (M self ≤ ncols paths)%nat → (2 ≤ M self)%nat →
  Option.nSteps (optionObj self) = 0%nat →
  priceAmByLSMC fit self paths dt = inl ZeroDivisionError.
Proof.
  intros Hn Hc HM H0.
  destruct (initialize_total self paths Hn ltac:(lia) ltac:(lia)) as [σ0 Hinit].
  pose proof (initialize_inv self dt paths σ0 Hinit) as Hinv.
  destruct (col_total paths (M self - 2 + 1) ltac:(lia)) as (x & Hx & Hlen).
  rewrite <- (inv_paths _ _ _ _ _ Hinv) in Hx.
  unfold priceAmByLSMC, run. rewrite Hinit. cbn [mbind result_bind].
  rewrite backward_range_cons by done. cbn [for_each].
  rewrite (loop_body_outcome fit self dt paths (M self - 2) σ0 x);
    [|lia|by replace (M self - 2 + 1)%nat with (M self - 1)%nat by lia|done|lia].
  by rewrite decide_True.
Qed.

(** A backward loop that returns went through every step with a step count
    other than 0 in the option and a constant in the design. *)
Lemma returning_loop_constants (fit : fitter) (self : t) (dt : R) (paths : ndarray)
    (σ0 σ : store) (k : nat) :
  initialize self paths = inr σ0 →
  for_each (loop_body fit self dt) (backward_range (M self)) σ0 = inr σ →
  (k + 1 < M self)%nat →
  constant_skipped self paths k = false ∧ Option.nSteps (optionObj self) ≠ 0%nat.
Proof.
  intros Hinit Hloop Hk.
  pose proof (for_each_prefix_ind (loop_body fit self dt) (backward_range (M self)) σ0 σ
    (λ j _, ∀ k, (M self - 1 - j ≤ k)%nat → (k + 1 < M self)%nat →
              constant_skipped self paths k = false
              ∧ Option.nSteps (optionObj self) ≠ 0%nat)) as Hind.
  apply Hind; [| |done|rewrite backward_range_length; lia|done]; clear Hind.
  - intros k' H1 H2. lia.
  - intros j x s s' Hpre Hx Hstep IH k' H1 H2.
    pose proof (lookup_lt_Some _ _ _ Hx) as Hj. rewrite backward_range_length in Hj.
    apply backward_range_lookup in Hj as Hx'. rewrite Hx in Hx'. injection Hx' as ->.
    destruct (decide (k' = M self - 2 - j)%nat) as [->|Hne]; [|apply IH; lia].
    assert (store_inv self dt paths (M self - 2 - j + 1) s) as Hinv.
    { replace (M self - 2 - j + 1)%nat with (M self - 1 - j)%nat by lia.
      eapply backward_prefix_inv; [done|lia|done]. }
    destruct (store_inv_shaped _ _ _ _ _ Hinv) as [HP HE].
    destruct (loop_body_inr _ _ _ _ _ _ _ _ HP HE Hstep)
      as (c & _ & _ & _ & Hc & Hlen & _ & _).
    destruct (loop_body_returns fit self dt paths _ s s' c H2 Hinv Hc Hlen Hstep)
      as (Hn & Hadded & _).
    done.
Qed.

Lemma returning_run_constants (fit : fitter) (self : t) (paths : ndarray) (dt : R)
    (out : R * ndarray * ndarray * list (nat * series)) (k : nat) :
  priceAmByLSMC fit self paths dt = inr out →
  (k + 1 < BSModel.nSteps (modelObj self))%nat →
  constant_skipped self paths k = false ∧ Option.nSteps (optionObj self) ≠ 0%nat.
Proof.
  intros Hout Hk. unfold priceAmByLSMC in Hout. inv_bind Hout.
  unfold run in Ha. inv_bind Ha. inv_bind Ha.
  by eapply returning_loop_constants.
Qed.

(** X13.  What a run can raise, and when it returns.  On a matrix with
    [numberOfPaths] rows and at least [nSteps] columns, with [1 <= nSteps]
    and [optionObj.nSteps <= nSteps], numpy raises nothing, and an exception
    of [priceAmByLSMC] is one of three: the [ZeroDivisionError] of [getDt],
    called by [regressionFunction], for an option whose step count is 0; at a
    step whose in-the-money prices, or their squares, are all one number
    other than 0, the [KeyError] of [getContinuationValue], or what the OLS
    routine raised on the design without constant; at another step, what the
    OLS routine raised.  A step count of 0 with at least two steps in the
    model always ends in the [ZeroDivisionError].  A run that returns had a
    step count other than 0 and a constant in the design of every step; and a
    run with both returns if the OLS routine does. *)
Theorem priceAmByLSMC_exceptions (fit : fitter) (self : t) (paths : ndarray) (dt : R) :
  nrows paths = BSModel.numberOfPaths (modelObj self) →
  (BSModel.nSteps (modelObj self) ≤ ncols paths)%nat →
  (0 < BSModel.nSteps (modelObj self))%nat →
  (Option.nSteps (optionObj self) ≤ BSModel.nSteps (modelObj self))%nat →
  (∀ e, priceAmByLSMC fit self paths dt = inl e → raised_in_loop fit self paths e)
  ∧ (Option.nSteps (optionObj self) = 0%nat → (2 ≤ BSModel.nSteps (modelObj self))%nat →
     priceAmByLSMC fit self paths dt = inl ZeroDivisionError)
  ∧ (∀ out k, priceAmByLSMC fit self paths dt = inr out →
              (k + 1 < BSModel.nSteps (modelObj self))%nat →
              constant_skipped self paths k = false
              ∧ Option.nSteps (optionObj self) ≠ 0%nat)
  ∧ (Option.nSteps (optionObj self) ≠ 0%nat →
     (∀ k, (k + 1 < BSModel.nSteps (modelObj self))%nat →
           constant_skipped self paths k = false) →
     (∀ y X, length y = length X → ∃ β, fit y X = inr β) →
     ∃ out, priceAmByLSMC fit self paths dt = inr out).
Proof.
  intros Hn Hc HM Hsteps.
  pose proof (priceAmByLSMC_outcome fit self paths dt Hn Hc HM Hsteps) as H.
  split; [|split; [|split]].
  - intros e He. by rewrite He in H.
  - intros H0 HM2. by apply priceAmByLSMC_stepless.
  - intros out k Hout Hk. by eapply returning_run_constants.
  - intros H0 Hadded Htotal.
    destruct (priceAmByLSMC fit self paths dt) as [e|out]; [|eauto].
    destruct H as [[_ H]|(k & Hk & H)]; [done|].
    unfold raised_at in H. rewrite (Hadded k Hk) in H.
    destruct H as (y & X & Hlen & Hfit).
    destruct (Htotal y X Hlen) as [β Hβ]. congruence.
Qed.

(** * The final discounting for any two step counts *)

Lemma discounted_prefix_applied (self : t) (dt : R) (row : list R) :
  discounted_prefix (final_discount self dt) (Option.nSteps (optionObj self)) row
  = imap (λ i v, v * applied_discount self dt i) row.
Proof.
  unfold discounted_prefix, applied_discount. apply imap_ext. intros i v _. simpl.
  case_decide; lra.
Qed.

Lemma applied_discount_pos (self : t) (dt : R) (i : nat) : 0 < applied_discount self dt i.
Proof. unfold applied_discount, final_discount. case_decide; [apply exp_pos|lra]. Qed.

(** The run after the backward loop, for any two step counts. *)
Lemma run_eq_steps (fit : fitter) (self : t) (paths : ndarray) (dt : R) (σ0 σ : store) :
  initialize self paths = inr σ0 →
  for_each (loop_body fit self dt) (backward_range (M self)) σ0 = inr σ →
  run fit self paths dt =
    if decide (Option.nSteps (optionObj self) ≤ M self)%nat
    then inr (weighted_total (applied_discount self dt) (N self) (M self) (payoffMatrix σ)
                / INR (N self),
              with_payoff σ (imap (λ i v, v * applied_discount self dt i)
                               <$> rows (payoffMatrix σ)))
    else inl IndexError.
Proof.
  intros Hinit Hloop. unfold run. rewrite Hinit. cbn [mbind result_bind].
  rewrite Hloop. cbn [mbind result_bind].
  pose proof (backward_loop_inv _ _ _ _ _ _ Hinit Hloop) as Hinv.
  destruct (store_inv_shaped _ _ _ _ _ Hinv) as [HP _].
  case_decide as Hsteps.
  - rewrite (discount_loop_eq self dt (N self) (M self)) by done.
    cbn [mbind result_bind mret result_ret].
    rewrite (list_fmap_ext _ (imap (λ i v, v * applied_discount self dt i))
               (rows (payoffMatrix σ)))
      by (intros; apply discounted_prefix_applied).
    do 3 f_equal. unfold np_sum. simpl. by apply weighted_total_rows.
  - replace (seq 0 (Option.nSteps (optionObj self)))
      with (seq 0 (M self) ++ seq (M self) (Option.nSteps (optionObj self) - M self))
      by (rewrite <- seq_app; f_equal; lia).
    rewrite for_each_app, (discount_loop_eq self dt (N self) (M self)) by done.
    cbn [mbind result_bind].
    destruct (Option.nSteps (optionObj self) - M self)%nat as [|d] eqn:Hd; [lia|].
    cbn [seq for_each].
    assert (∀ τ, ncols (payoffMatrix τ) = M self →
                 discount_column self dt (M self) τ = inl IndexError) as Hcol.
    { intros τ Hτ. unfold discount_column, col. by rewrite decide_False by lia. }
    rewrite Hcol; [done|]. unfold with_payoff. simpl. by destruct HP.
Qed.

Lemma priceAmByLSMC_inr_steps (fit : fitter) (self : t) (paths : ndarray) (dt : R)
    (V : R) (P E : ndarray) (rd : list (nat * series)) :
  priceAmByLSMC fit self paths dt = inr (V, P, E, rd) →
  ∃ σ0 σ,
    initialize self paths = inr σ0
    ∧ for_each (loop_body fit self dt) (backward_range (M self)) σ0 = inr σ
    ∧ store_inv self dt paths 0 σ
    ∧ (Option.nSteps (optionObj self) ≤ M self)%nat
    ∧ V = weighted_total (applied_discount self dt) (N self) (M self) (payoffMatrix σ)
          / INR (N self)
    ∧ P = NdArray (M self) (imap (λ i v, v * applied_discount self dt i)
                              <$> rows (payoffMatrix σ))
    ∧ E = exerciseDecisionMatrix σ
    ∧ rd = results_dict σ.
Proof.
  intros H. unfold priceAmByLSMC in H. inv_bind H. destruct a as [V' σf].
  injection H as -> <- <- <-.
  assert (∃ σ0 σ, initialize self paths = inr σ0
                  ∧ for_each (loop_body fit self dt) (backward_range (M self)) σ0 = inr σ)
    as (σ0 & σ & Hinit & Hloop).
  { unfold run in Ha. inv_bind Ha. inv_bind Ha. eauto. }
  rewrite (run_eq_steps fit self paths dt σ0 σ Hinit Hloop) in Ha.
  case_decide as Hsteps; [|discriminate]. injection Ha as <- <-.
  pose proof (backward_loop_inv _ _ _ _ _ _ Hinit Hloop) as Hinv.
  exists σ0, σ.
  split; [done|]. split; [done|]. split; [done|]. split; [done|]. split; [done|].
  split; [|done].
  unfold with_payoff. simpl. by rewrite (inv_pcols _ _ _ _ _ Hinv).
Qed.

(** X14.  The final discounting for any two step counts.  The loop of line
    253 ranges over [optionObj.nSteps] while [payoffMatrix] has
    [modelObj.nSteps] columns.  After a backward loop that returned: if
    [optionObj.nSteps] is the larger, [priceAmByLSMC] raises [IndexError];
    otherwise it returns, the columns from [optionObj.nSteps] on enter the
    price and the returned matrix without any discounting, and the others with
    the factor [exp(-r·dt·(i+1))]. *)
Theorem finalization_by_option_steps (fit : fitter) (self : t) (paths : ndarray) (dt : R)
    (σ0 σ : store) :
  (0 < BSModel.numberOfPaths (modelObj self))%nat →
  initialize self paths = inr σ0 →
  for_each (loop_body fit self dt)
    (backward_range (BSModel.nSteps (modelObj self))) σ0 = inr σ →
  if decide (Option.nSteps (optionObj self) ≤ BSModel.nSteps (modelObj self))%nat
  then
    ∃ P,
      priceAmByLSMC fit self paths dt =
        inr (sumR ((λ p, sumR ((λ i, entry (payoffMatrix σ) p i
                                     * applied_discount self dt i)
                                 <$> seq 0 (BSModel.nSteps (modelObj self))))
                     <$> seq 0 (BSModel.numberOfPaths (modelObj self)))
             / INR (BSModel.numberOfPaths (modelObj self)),
             P, exerciseDecisionMatrix σ, results_dict σ)
      ∧ ∀ p i, entry P p i = entry (payoffMatrix σ) p i * applied_discount self dt i
  else priceAmByLSMC fit self paths dt = inl IndexError.
Proof.
  intros _ Hinit Hloop.
  pose proof (run_eq_steps fit self paths dt σ0 σ Hinit Hloop) as Hrun.
  unfold priceAmByLSMC. rewrite Hrun. case_decide; [|done].
  eexists. split; [reflexivity|].
  intros p i. simpl. by rewrite entry_discounted.
Qed.

(** * What a run returns *)

(** One iteration of a run, entry by entry. *)
Lemma step_entries (fit : fitter) (self : t) (dt : R) (paths : ndarray) (σ0 s s' : store)
    (j k : nat) :
  initialize self paths = inr σ0 →
  for_each (loop_body fit self dt) (take j (backward_range (M self))) σ0 = inr s →
  backward_range (M self) !! j = Some k →
  loop_body fit self dt k s = inr s' →
  k = (M self - 2 - j)%nat ∧ (k + 1 < M self)%nat
  ∧ store_inv self dt paths (k + 1) s ∧ store_inv self dt paths k s'
  ∧ ∃ β, ∀ p, (p < N self)%nat →
      let c := exercises self β (entry paths p (k + 1)) in
      entry (payoffMatrix s') p k
        = (if c then intrinsic self (entry paths p (k + 1)) else 0)
      ∧ entry (exerciseDecisionMatrix s') p k = (if c then 1 else 0)
      ∧ ∀ i, (k < i)%nat →
          entry (payoffMatrix s') p i = (if c then 0 else entry (payoffMatrix s) p i)
          ∧ entry (exerciseDecisionMatrix s') p i
            = (if c then 0 else entry (exerciseDecisionMatrix s) p i).
Proof.
  intros Hinit Hpre Hk Hstep.
  pose proof (lookup_lt_Some _ _ _ Hk) as Hj. rewrite backward_range_length in Hj.
  apply backward_range_lookup in Hj as Hk'. rewrite Hk in Hk'. injection Hk' as ->.
  assert (store_inv self dt paths (M self - 2 - j + 1) s) as Hinv.
  { replace (M self - 2 - j + 1)%nat with (M self - 1 - j)%nat by lia.
    eapply backward_prefix_inv; [done|lia|done]. }
  split; [done|]. split; [lia|]. split; [done|].
  split; [by apply (loop_body_inv fit self dt paths _ s); [lia|..]|].
  destruct (store_inv_shaped _ _ _ _ _ Hinv) as [HP HE].
  destruct (loop_body_inr _ _ _ _ _ _ _ _ HP HE Hstep)
    as (x & β & frame & Hkm & Hx & Hlen & Hreg & ->).
  exists β. intros p Hp.
  pose proof (store_after_step_entries self dt _ s x β _ _ p HP HE Hkm Hx Hlen Hp) as H.
  by rewrite (inv_paths _ _ _ _ _ Hinv) in H.
Qed.

Lemma store_inv_entry_nonneg (self : t) (dt : R) (paths : ndarray) (k : nat) (σ : store)
    (p i : nat) :
  store_inv self dt paths k σ → 0 <= entry (payoffMatrix σ) p i.
Proof.
  intros Hinv. unfold entry.
  destruct (rows (payoffMatrix σ) !! p) as [prow|] eqn:Hprow; simpl; [|lra].
  destruct (prow !! i) as [v|] eqn:Hv; simpl; [|lra].
  pose proof (inv_rows _ _ _ _ _ Hinv) as Hrows.
  destruct (Forall2_lookup_l _ _ _ _ _ Hrows Hprow) as (erow & _ & Hrow).
  by eapply row_inv_nonneg.
Qed.

Lemma store_inv_entry_once (self : t) (dt : R) (paths : ndarray) (k : nat) (σ : store)
    (p i j : nat) :
  store_inv self dt paths k σ →
  entry (payoffMatrix σ) p i ≠ 0 → entry (payoffMatrix σ) p j ≠ 0 → i = j.
Proof.
  intros Hinv. unfold entry.
  destruct (rows (payoffMatrix σ) !! p) as [prow|] eqn:Hprow; simpl; [|done].
  pose proof (inv_rows _ _ _ _ _ Hinv) as Hrows.
  destruct (Forall2_lookup_l _ _ _ _ _ Hrows Hprow) as (erow & _ & Hrow).
  destruct (prow !! i) as [v|] eqn:Hv; simpl; [|done].
  destruct (prow !! j) as [w|] eqn:Hw; simpl; [|done].
  intros. by eapply (row_inv_once _ _ _ _ Hrow).
Qed.


(** A sum with at most one nonzero term, each term between 0 and [K]. *)
Lemma sumR_single (f : nat → R) (K : R) (l : list nat) :
  NoDup l → 0 <= K → (∀ i, 0 <= f i <= K) →
  (∀ i j, f i ≠ 0 → f j ≠ 0 → i = j) →
  sumR (f <$> l) <= K.
Proof.
  intros Hnd HK Hf Hone. induction Hnd as [|a l Ha Hnd IH]; [simpl; lra|].
  rewrite fmap_cons. change (sumR (f a :: (f <$> l))) with (f a + sumR (f <$> l)).
  destruct (Req_dec (f a) 0) as [H0|H0]; [lra|].
  rewrite sumR_fmap_zero; [specialize (Hf a); lra|].
  intros i Hi. destruct (Req_dec (f i) 0) as [|Hi0]; [done|].
  rewrite (Hone i a Hi0 H0) in Hi. done.
Qed.

(** X15.  The price is not negative.  Whenever [priceAmByLSMC] returns, for
    at least one path, the price and every entry of the returned payoff matrix
    are at least 0, whatever coefficients the regressions produced. *)
Theorem priceAmByLSMC_nonneg (fit : fitter) (self : t) (paths : ndarray) (dt : R)
    (V : R) (P E : ndarray) (rd : list (nat * series)) :
  (0 < BSModel.numberOfPaths (modelObj self))%nat →
  priceAmByLSMC fit self paths dt = inr (V, P, E, rd) →
  0 <= V ∧ ∀ p i, 0 <= entry P p i.
Proof.
  intros HN H.
  destruct (priceAmByLSMC_inr_steps _ _ _ _ _ _ _ _ H)
    as (σ0 & σ & _ & _ & Hinv & _ & -> & -> & _ & _).
  assert (∀ p i, 0 <= entry (payoffMatrix σ) p i * applied_discount self dt i) as Hnn.
  { intros p i. apply Rmult_le_pos; [by eapply store_inv_entry_nonneg|].
    left. apply applied_discount_pos. }
  split.
  - apply Rmult_le_pos; [|apply inv_INR_nonneg].
    unfold weighted_total. apply sumR_nonneg, Forall_fmap, Forall_true. intros p. simpl.
    apply sumR_nonneg, Forall_fmap, Forall_true. intros i. apply Hnn.
  - intros p i. rewrite entry_discounted.
    replace (entry (NdArray (M self) (rows (payoffMatrix σ))) p i)
      with (entry (payoffMatrix σ) p i) by done.
    apply Hnn.
Qed.


(** X18.  One logged regression per early date.  The [results_dict] that
    [priceAmByLSMC] returns holds one entry for each step
    [nSteps - 2, ..., 1, 0], inserted in that order. *)
Theorem results_dict_keys (fit : fitter) (self : t) (paths : ndarray)
    (dt : R) (V : R) (P E : ndarray) (rd : list (nat * series)) :
  priceAmByLSMC fit self paths dt = inr (V, P, E, rd) →
  rd.*1 = backward_range (BSModel.nSteps (modelObj self)).
Proof.
  intros H.
  destruct (priceAmByLSMC_inr_steps _ _ _ _ _ _ _ _ H)
    as (σ0 & σ & _ & _ & Hinv & _ & _ & _ & _ & ->).
  rewrite (inv_keys _ _ _ _ _ Hinv). unfold backward_range. do 2 f_equal. lia.
Qed.

Lemma intrinsic_le_strike (self : t) (x : R) :
  0 <= Option.strike (optionObj self) → 0 <= x →
  intrinsic self x <= Option.strike (optionObj self).
Proof. intros HK Hx. unfold intrinsic. apply Rmax_lub; lra. Qed.

Lemma initial_entries_bound (self : t) (paths : ndarray) (σ0 : store) (p i : nat) :
  0 <= Option.strike (optionObj self) → (∀ p i, 0 <= entry paths p i) →
  initialize self paths = inr σ0 →
  entry (payoffMatrix σ0) p i <= Option.strike (optionObj self).
Proof.
  intros HK Hpaths Hinit.
  destruct (initialize_inr _ _ _ Hinit) as (last & e & Hlast & HM & He & ->).
  assert (Forall (λ v, v <= Option.strike (optionObj self)) e) as Hall.
  { eapply broadcast_to_Forall; [done|]. unfold payOff. apply Forall_fmap.
    apply last_col_inr in Hlast as [_ Hlast]. apply col_inr in Hlast as [_ ->].
    apply Forall_fmap, Forall_forall. intros row Hrow. simpl.
    apply list_elem_of_lookup in Hrow as [q Hq].
    apply Rmax_lub; [|done].
    specialize (Hpaths q (ncols paths - 1)%nat). unfold entry in Hpaths.
    rewrite Hq in Hpaths. simpl in Hpaths. lra. }
  unfold entry. simpl. rewrite list_lookup_fmap.
  destruct (e !! p) as [v|] eqn:Hv; simpl; [|done].
  rewrite Forall_lookup in Hall. specialize (Hall _ _ Hv). simpl in Hall.
  unfold terminal_row.
  destruct (decide (i = (M self - 1)%nat)) as [->|Hne].
  - rewrite list_lookup_insert_eq by (rewrite length_replicate; lia). done.
  - rewrite list_lookup_insert_ne by done.
    destruct (replicate (M self) 0 !! i) as [u|] eqn:Hu; simpl; [|done].
    apply lookup_replicate in Hu as [-> _]. done.
Qed.

(** Every entry of [payoffMatrix] stays below the strike. *)
Lemma loop_entries_bound (fit : fitter) (self : t) (dt : R) (paths : ndarray)
    (σ0 σ : store) :
  0 <= Option.strike (optionObj self) → (∀ p i, 0 <= entry paths p i) →
  initialize self paths = inr σ0 →
  for_each (loop_body fit self dt) (backward_range (M self)) σ0 = inr σ →
  ∀ p i, (p < N self)%nat → entry (payoffMatrix σ) p i <= Option.strike (optionObj self).
Proof.
  intros HK Hpaths Hinit Hloop.
  pose proof (for_each_prefix_ind (loop_body fit self dt) (backward_range (M self)) σ0 σ
    (λ _ s, ∀ p i, (p < N self)%nat →
                   entry (payoffMatrix s) p i <= Option.strike (optionObj self))) as Hind.
  apply Hind; [| |done]; clear Hind.
  - intros p i _. by apply (initial_entries_bound self paths).
  - intros j k s s' Hpre Hk Hstep IH p i Hp.
    destruct (step_entries _ _ _ _ _ _ _ _ _ Hinit Hpre Hk Hstep)
      as (_ & Hkm & Hinv & Hinv' & β & Hent).
    destruct (Hent p Hp) as (Hat & _ & Hlater).
    destruct (lt_eq_lt_dec i k) as [[Hlt| ->]|Hgt].
    + rewrite (store_inv_entry_zero self dt paths k s') by done. done.
    + rewrite Hat. destruct (exercises _ _ _); [|done].
      by apply intrinsic_le_strike.
    + destruct (Hlater i Hgt) as [-> _]. destruct (exercises _ _ _); [done|].
      by apply IH.
Qed.

(** X16.  The price is at most the strike.  For a matrix without negative
    prices, a strike and a product [r·dt] that are not negative and at least
    one path, the price [priceAmByLSMC] returns is at most the strike: each
    path pays at most once, at most the strike, discounted by at most 1. *)
Theorem priceAmByLSMC_at_most_strike (fit : fitter) (self : t) (paths : ndarray)
    (dt : R) (V : R) (P E : ndarray) (rd : list (nat * series)) :
  (0 < BSModel.numberOfPaths (modelObj self))%nat →
  0 <= Option.strike (optionObj self) →
  0 <= Stock.r (stockObj self) * dt →
  (∀ p i, 0 <= entry paths p i) →
  priceAmByLSMC fit self paths dt = inr (V, P, E, rd) →
  V <= Option.strike (optionObj self).
Proof.
  intros HN HK Hr Hpaths H.
  destruct (priceAmByLSMC_inr_steps _ _ _ _ _ _ _ _ H)
    as (σ0 & σ & Hinit & Hloop & Hinv & _ & -> & _ & _ & _).
  pose proof (loop_entries_bound fit self dt paths σ0 σ HK Hpaths Hinit Hloop) as Hbound.
  assert (0 < INR (N self)) as HNR by (apply lt_0_INR; lia).
  apply (Rmult_le_reg_r (INR (N self))); [done|].
  replace (weighted_total (applied_discount self dt) (N self) (M self) (payoffMatrix σ)
           / INR (N self) * INR (N self))
    with (weighted_total (applied_discount self dt) (N self) (M self) (payoffMatrix σ))
    by (field; lra).
  assert (Option.strike (optionObj self) * INR (N self)
          = sumR ((λ _, Option.strike (optionObj self)) <$> seq 0 (N self))) as ->
    by (rewrite sumR_fmap_const, length_seq; ring).
  unfold weighted_total. apply sumR_fmap_le. intros p [_ Hp]%elem_of_seq.
  assert (∀ i, 0 < applied_discount self dt i <= 1) as Hw.
  { intros i. split; [apply applied_discount_pos|].
    unfold applied_discount, final_discount. case_decide; [|lra].
    assert (0 < INR (i + 1)) by (apply lt_0_INR; lia).
    assert (- Stock.r (stockObj self) * dt * INR (i + 1) <= 0) as Hle by nra.
    rewrite <- exp_0. destruct Hle as [Hlt|Heq].
    - left. by apply exp_increasing.
    - right. by rewrite Heq. }
  apply sumR_single; [apply NoDup_seq|done| |].
  - intros i. pose proof (store_inv_entry_nonneg self dt paths 0 σ p i Hinv).
    specialize (Hbound p i ltac:(lia)). specialize (Hw i). split; nra.
  - intros i j Hi Hj. apply (store_inv_entry_once self dt paths 0 σ p i j Hinv).
    + intros H0. apply Hi. rewrite H0. ring.
    + intros H0. apply Hj. rewrite H0. ring.
Qed.

Lemma exercises_out_of_the_money (self : t) (β : params) (x : R) :
  Option.strike (optionObj self) <= x → exercises self β x = false.
Proof.
  intros Hx. apply exercises_eq_false. right. unfold intrinsic.
  rewrite Rmax_right by lra. lra.
Qed.

(** X19.  A path out of the money is not exercised.  If the price of path
    [p] in the decision column [k + 1] of an early date is at least the
    strike, the returned matrices hold 0 at [(p, k)], whatever the fitted
    continuation value, which may be negative there: the second conjunct of
    the exercise condition excludes the path. *)
Theorem out_of_the_money_never_exercised (fit : fitter) (self : t) (paths : ndarray)
    (dt : R) (V : R) (P E : ndarray) (rd : list (nat * series)) (p k : nat) :
  priceAmByLSMC fit self paths dt = inr (V, P, E, rd) →
  (p < BSModel.numberOfPaths (modelObj self))%nat →
  (k + 1 < BSModel.nSteps (modelObj self))%nat →
  Option.strike (optionObj self) <= entry paths p (k + 1) →
  entry E p k = 0 ∧ entry P p k = 0.
Proof.
  intros H Hp Hk Hotm.
  destruct (priceAmByLSMC_inr_steps _ _ _ _ _ _ _ _ H)
    as (σ0 & σ & Hinit & Hloop & Hinv & _ & _ & -> & -> & _).
  pose proof (for_each_prefix_ind (loop_body fit self dt) (backward_range (M self)) σ0 σ
    (λ j s, (M self - 1 - j ≤ k)%nat →
            entry (payoffMatrix s) p k = 0 ∧ entry (exerciseDecisionMatrix s) p k = 0))
    as Hind.
  assert (entry (payoffMatrix σ) p k = 0 ∧ entry (exerciseDecisionMatrix σ) p k = 0)
    as [HP HE].
  { apply Hind; [| |done|rewrite backward_range_length; lia]; clear Hind.
    - intros Hk0. lia.
    - intros j k' s s' Hpre Hk' Hstep IH Hj.
      destruct (step_entries _ _ _ _ _ _ _ _ _ Hinit Hpre Hk' Hstep)
        as (Hk'eq & Hkm & _ & _ & β & Hent).
      destruct (Hent p Hp) as (HatP & HatE & Hlater).
      destruct (decide (k = k')) as [<-|Hne].
      + rewrite HatP, HatE, exercises_out_of_the_money by done. done.
      + destruct (Hlater k ltac:(lia)) as [-> ->].
        destruct (exercises _ _ _); [done|]. apply IH. lia. }
  split; [done|]. rewrite entry_discounted.
  replace (entry (NdArray (M self) (rows (payoffMatrix σ))) p k)
    with (entry (payoffMatrix σ) p k) by done.
  rewrite HP. ring.
Qed.

(** X20.  A single exercise date.  With [nSteps = 1] in both objects and a
    matrix with a row per path, the backward loop is empty:
    [priceAmByLSMC(samplePaths, getDt())] never calls the OLS routine, logs no
    regression, and returns the price [priceByBSMC] returns for a put, or
    raises the exception that it raises. *)
Theorem single_step_is_european (fit : fitter) (self : t) (paths : ndarray) :
  BSModel.nSteps (modelObj self) = 1%nat → Option.nSteps (optionObj self) = 1%nat →
  nrows paths = BSModel.numberOfPaths (modelObj self) →
  (0 < BSModel.numberOfPaths (modelObj self))%nat →
  ∃ dt,
    getDt self = inr dt
    ∧ match priceAmByLSMC fit self paths dt with
      | inr (V, _, _, rd) =>
          EurOption.priceByBSMC (EurOption.Build (stockObj self) (optionObj self))
            paths "put" = inr V
          ∧ rd = []
      | inl e =>
          EurOption.priceByBSMC (EurOption.Build (stockObj self) (optionObj self))
            paths "put" = inl e
      end.
Proof.
  intros HM Ho Hn _.
  assert (Option.nSteps (optionObj self) ≠ 0%nat) as H0 by lia.
  pose proof (getDt_eq self H0) as Hdt. eexists. split; [exact Hdt|].
  set (dt := Option.timeToExpiry (optionObj self) / INR (Option.nSteps (optionObj self)))
    in *.
  destruct (decide (ncols paths = 0)%nat) as [Hc|Hc].
  - rewrite (priceAmByLSMC_init_error fit self paths _ IndexError).
    + by apply priceByBSMC_no_columns; auto.
    + unfold initialize, last_col. by rewrite decide_True.
  - destruct (initialize_total self paths Hn ltac:(lia) ltac:(lia)) as [σ0 Hinit].
    assert (for_each (loop_body fit self dt) (backward_range (M self)) σ0
            = inr σ0) as Hloop by (by rewrite HM).
    rewrite (priceAmByLSMC_eq fit self paths dt σ0 σ0) by (done || lia).
    split.
    + rewrite (european_price self paths σ0 dt) by (done || lia). done.
    + by destruct (initialize_inr _ _ _ Hinit) as (? & ? & _ & _ & _ & ->).
Qed.

(** X21.  Simulated paths in the two pricers.  For an [AmOption] whose option
    is the option of its model and whose two step counts agree, the matrix
    [generateSamplePaths] returns on draws with a row per path is priced by
    [priceByBSMC] without an exception.  [priceAmByLSMC] raises on it nothing
    but what an iteration of the backward loop raises: at a step whose
    in-the-money prices, or their squares, are all one number other than 0
    (a single path in the money, or paths without volatility), the
    [KeyError] of [getContinuationValue] or the exception of the OLS routine
    on the design without constant; at another step, the exception of the
    OLS routine.  And it does raise when there is such a step. *)
Theorem generated_paths_are_priced (fit : fitter) (self : t) (Z paths : ndarray) (dt : R) :
  optionObj self = BSModel.opnObj (modelObj self) →
  BSModel.nSteps (modelObj self) = Option.nSteps (optionObj self) →
  nrows Z = BSModel.numberOfPaths (modelObj self) →
  BSModel.generateSamplePaths (modelObj self) Z = inr paths →
  (∃ Ve, EurOption.priceByBSMC (EurOption.Build (stockObj self) (optionObj self))
           paths "put" = inr Ve)
  ∧ match priceAmByLSMC fit self paths dt with
    | inr _ => True
    | inl e => ∃ k, (k + 1 < BSModel.nSteps (modelObj self))%nat
                    ∧ raised_at fit self paths k e
    end
  ∧ ∀ k, (k + 1 < BSModel.nSteps (modelObj self))%nat →
         constant_skipped self paths k = true →
         ∃ e, priceAmByLSMC fit self paths dt = inl e.
Proof.
  intros Ho HM Hrows HS.
  destruct (generateSamplePaths_success _ Z paths Hrows HS) as (Hn & Hc & ->).
  pose proof (gbm_paths_shaped (modelObj self) Z
                (Option.nSteps (BSModel.opnObj (modelObj self)))) as (Hcols & Hnrows & _).
  split; [|split].
  - eexists. apply priceByBSMC_put_eq. rewrite Hcols. lia.
  - match goal with
    | |- match priceAmByLSMC _ _ ?paths _ with _ => _ end =>
        pose proof (priceAmByLSMC_outcome fit self paths dt) as H
    end.
    rewrite Hcols, Hnrows, HM, Ho in H.
    specialize (H eq_refl ltac:(lia) ltac:(lia) ltac:(lia)).
    destruct (priceAmByLSMC _ _ _ _) as [e|out]; [|done].
    destruct H as [[_ H0]|H]; [|done]. rewrite Ho in H0. done.
  - intros k Hk Hskip.
    destruct (priceAmByLSMC _ _ _ _) as [e|out] eqn:Hrun; [by exists e|].
    destruct (returning_run_constants _ _ _ _ _ k Hrun Hk) as [Hadded _].
    congruence.
Qed.

(** * The further statements at examples *)

Lemma draws_paths :
  BSModel.generateSamplePaths hold_model draws = inr (gbm_paths hold_model draws 2).
Proof. apply generateSamplePaths_eq; [reflexivity|discriminate|simpl; lia]. Qed.

Lemma calm_paths :
  BSModel.generateSamplePaths calm_model draws = inr (gbm_paths calm_model draws 2).
Proof. apply generateSamplePaths_eq; [reflexivity|discriminate|simpl; lia]. Qed.

(** X1 for three paths of two steps. *)
Lemma generateSamplePaths_shape_witness :
  BSModel.generateSamplePaths hold_model draws = inr (gbm_paths hold_model draws 2)
  ∧ shaped 3 3 (gbm_paths hold_model draws 2)
  ∧ ∀ p, (p < 3)%nat → entry (gbm_paths hold_model draws 2) p 0 = 10.
Proof.
  split; [exact draws_paths|].
  exact (generateSamplePaths_shape hold_model draws _ draws_paths).
Defined.

(** X2 at path 1 and the last date of the same simulation. *)
Lemma generateSamplePaths_closed_form_witness :
  0 <= Option.timeToExpiry (BSModel.opnObj hold_model)
  ∧ nrows draws = 3%nat
  ∧ BSModel.generateSamplePaths hold_model draws = inr (gbm_paths hold_model draws 2)
  ∧ entry (gbm_paths hold_model draws 2) 1 2
    = 10 * exp ((0.06 - 0.5 * 0.2 ^ 2) * gbm_dt hold_model * INR 2
                + 0.2 * sqrt (gbm_dt hold_model)
                  * sumR ((λ u, entry draws 1 u) <$> seq 0 2)).
Proof.
  assert (0 <= Option.timeToExpiry (BSModel.opnObj hold_model)) as HT by (simpl; lra).
  split; [exact HT|]. split; [reflexivity|]. split; [exact draws_paths|].
  exact (generateSamplePaths_closed_form hold_model draws _ 1 2 HT eq_refl draws_paths
           ltac:(simpl; lia) ltac:(simpl; lia)).
Defined.

(** X3 for draws of the shape the model expects. *)
Lemma generateSamplePaths_outcome_witness :
  nrows draws = 3%nat
  ∧ match BSModel.generateSamplePaths hold_model draws with
    | inr _ => 2%nat ≠ 0%nat ∧ (2 ≤ ncols draws)%nat
    | inl ZeroDivisionError => 2%nat = 0%nat
    | inl IndexError => 2%nat ≠ 0%nat ∧ (ncols draws < 2)%nat
    | inl _ => False
    end.
Proof.
  split; [reflexivity|].
  exact (generateSamplePaths_outcome hold_model draws eq_refl).
Defined.

(** X4 for two rows of draws and a model of three paths. *)
Lemma generateSamplePaths_row_mismatch_witness :
  nrows few_draws = 2%nat ∧ BSModel.numberOfPaths hold_model = 3%nat
  ∧ (0 < ncols few_draws)%nat
  ∧ BSModel.generateSamplePaths hold_model few_draws = inl ValueError.
Proof.
  split; [reflexivity|]. split; [reflexivity|]. split; [simpl; lia|].
  apply generateSamplePaths_row_mismatch; [discriminate|discriminate|discriminate|simpl; lia].
Defined.

(** X5 at path 2 and date 1. *)
Lemma generateSamplePaths_nonneg_witness :
  nrows draws = 3%nat
  ∧ BSModel.generateSamplePaths hold_model draws = inr (gbm_paths hold_model draws 2)
  ∧ 0 <= Stock.s0 (BSModel.stockObj hold_model)
  ∧ 0 <= entry (gbm_paths hold_model draws 2) 2 1.
Proof.
  assert (0 <= Stock.s0 (BSModel.stockObj hold_model)) as Hs0 by (simpl; lra).
  assert (0 <= Option.timeToExpiry (BSModel.opnObj hold_model)) as HT by (simpl; lra).
  split; [reflexivity|]. split; [exact draws_paths|]. split; [exact Hs0|].
  exact (generateSamplePaths_nonneg hold_model draws _ 2 1 HT eq_refl draws_paths Hs0
           ltac:(simpl; lia) ltac:(simpl; lia)).
Defined.

(** X6 at path 0 and the last date. *)
Lemma generateSamplePaths_antithetic_witness :
  nrows draws = 3%nat
  ∧ BSModel.generateSamplePaths hold_model draws = inr (gbm_paths hold_model draws 2)
  ∧ ∃ paths', BSModel.generateSamplePaths hold_model (negated draws) = inr paths'
          ∧ entry (gbm_paths hold_model draws 2) 0 2 * entry paths' 0 2
            = 10 ^ 2 * exp (2 * (0.06 - 0.5 * 0.2 ^ 2) * gbm_dt hold_model * INR 2).
Proof.
  assert (0 <= Option.timeToExpiry (BSModel.opnObj hold_model)) as HT by (simpl; lra).
  split; [reflexivity|]. split; [exact draws_paths|].
  exact (generateSamplePaths_antithetic hold_model draws _ 0 2 HT eq_refl draws_paths
           ltac:(simpl; lia) ltac:(simpl; lia)).
Defined.

(** X7 for a stock of volatility 0. *)
Lemma zero_volatility_put_price_witness :
  nrows draws = 3%nat
  ∧ Stock.sigma (BSModel.stockObj calm_model) = 0
  ∧ BSModel.generateSamplePaths calm_model draws = inr (gbm_paths calm_model draws 2)
  ∧ EurOption.priceByBSMC (EurOption.Build calm_stock hold_option)
      (gbm_paths calm_model draws 2) "put"
    = inr (Rmax (10 - 10 * exp (0.06 * 2)) 0 * exp (- Stock.r calm_stock * 2)).
Proof.
  split; [reflexivity|]. split; [reflexivity|]. split; [exact calm_paths|].
  exact (zero_volatility_put_price calm_model draws _ ltac:(simpl; lra) eq_refl
           ltac:(simpl; lia) eq_refl calm_paths).
Defined.

Lemma lsm_call_price :
  ∃ C, EurOption.priceByBSMC lsm_eur lsm_paths "call" = inr C.
Proof. eexists. apply priceByBSMC_call_eq. simpl. lia. Qed.

Lemma lsm_paths_nonneg (p i : nat) : 0 <= entry lsm_paths p i.
Proof.
  unfold entry, lsm_paths. simpl.
  do 8 (destruct p as [|p]; [do 4 (destruct i as [|i]; [simpl; lra|]); simpl; lra|]).
  simpl. lra.
Qed.

(** X9 on the matrix of the worked example. *)
Lemma priceByBSMC_put_call_parity_witness :
  ∃ C P,
    (0 < nrows lsm_paths)%nat
    ∧ EurOption.priceByBSMC lsm_eur lsm_paths "call" = inr C
    ∧ EurOption.priceByBSMC lsm_eur lsm_paths "put" = inr P
    ∧ C - P = exp (- Stock.r lsm_stock * 3) * (terminal_mean lsm_paths - 1.1).
Proof.
  destruct lsm_call_price as [C HC].
  exists C, (0.54 * (lsm_d * lsm_d * lsm_d) / 8).
  assert (0 < nrows lsm_paths)%nat as Hn by (unfold nrows; simpl; lia).
  split; [exact Hn|]. split; [exact HC|]. split; [exact lsm_european|].
  exact (priceByBSMC_put_call_parity lsm_eur lsm_paths _ _ Hn HC lsm_european).
Defined.

(** X10 on the matrix of the worked example. *)
Lemma priceByBSMC_put_bounds_witness :
  (0 < nrows lsm_paths)%nat
  ∧ 0 <= Option.strike (EurOption.optionObj lsm_eur)
  ∧ EurOption.priceByBSMC lsm_eur lsm_paths "put"
    = inr (0.54 * (lsm_d * lsm_d * lsm_d) / 8)
  ∧ 0 <= 0.54 * (lsm_d * lsm_d * lsm_d) / 8 <= 1.1 * exp (- Stock.r lsm_stock * 3).
Proof.
  assert (0 < nrows lsm_paths)%nat as Hn by (unfold nrows; simpl; lia).
  assert (0 <= Option.strike (EurOption.optionObj lsm_eur)) as HK by (simpl; lra).
  split; [exact Hn|]. split; [exact HK|]. split; [exact lsm_european|].
  exact (priceByBSMC_put_bounds lsm_eur lsm_paths _ Hn HK
           (λ p _, lsm_paths_nonneg p _) lsm_european).
Defined.

Lemma logistic_bounds (x : R) : 0 <= logistic x <= 1.
Proof.
  unfold logistic. pose proof (exp_pos (- x)) as He.
  assert (0 < 1 + exp (- x)) as Hd by lra.
  split.
  - apply Rmult_le_pos; [lra|]. left. by apply Rinv_0_lt_compat.
  - apply (Rmult_le_reg_r (1 + exp (- x))); [done|]. field_simplify; lra.
Qed.

Lemma hold_analytic_put :
  ∃ P, EurOption.priceByBSAnalytic logistic hold_eur "put" = inr P.
Proof.
  unfold EurOption.priceByBSAnalytic. cbv zeta.
  rewrite decide_False by (simpl; lra).
  rewrite decide_False, decide_True by done. by eexists.
Qed.

(** X12 with the logistic distribution function. *)
Lemma priceByBSAnalytic_put_upper_bound_witness :
  ∃ P,
    (∀ x, 0 <= logistic x <= 1)
    ∧ EurOption.priceByBSAnalytic logistic hold_eur "put" = inr P
    ∧ P <= 10 * exp (- Stock.r hold_stock * 2).
Proof.
  destruct hold_analytic_put as [P HP]. exists P.
  split; [exact logistic_bounds|]. split; [exact HP|].
  exact (priceByBSAnalytic_put_upper_bound logistic hold_eur P logistic_bounds
           ltac:(simpl; lra) ltac:(simpl; lra) ltac:(simpl; lra) ltac:(simpl; lra) HP).
Defined.

Lemma lsm_ols_price :
  priceAmByLSMC normal_equations_fit lsm_am lsm_paths 1 =
    inr (weighted_total (final_discount lsm_am 1) (N lsm_am) (M lsm_am)
           (payoffMatrix lsm_σ2) / INR (N lsm_am),
         NdArray (ncols (payoffMatrix lsm_σ2))
           (imap (λ i v, v * final_discount lsm_am 1 i) <$> rows (payoffMatrix lsm_σ2)),
         exerciseDecisionMatrix lsm_σ2, results_dict lsm_σ2).
Proof.
  exact (priceAmByLSMC_eq normal_equations_fit lsm_am lsm_paths 1 lsm_σ0 lsm_σ2 eq_refl
           lsm_initialize lsm_ols_loop).
Qed.

Lemma two_ols_price :
  priceAmByLSMC normal_equations_fit two_am two_paths 1 = inl LinAlgError.
Proof.
  unfold priceAmByLSMC, run. rewrite two_initialize. cbn [mbind result_bind].
  change (backward_range (BSModel.nSteps (modelObj two_am))) with [0%nat].
  cbn [for_each]. by rewrite two_rejected.
Qed.

(** The option without steps: [getDt] raises, and so does the run, whatever
    the OLS routine. *)
Lemma stepless_raises (fit : fitter) (dt : R) :
  getDt stepless_am = inl ZeroDivisionError
  ∧ priceAmByLSMC fit stepless_am hold_paths dt = inl ZeroDivisionError.
Proof.
  split; [reflexivity|].
  apply priceAmByLSMC_stepless; [reflexivity|simpl; lia|simpl; lia|reflexivity].
Qed.

(** X13 at the run with one path in the money, which ends in [KeyError]. *)
Lemma priceAmByLSMC_exceptions_witness :
  nrows lone_paths = BSModel.numberOfPaths (modelObj two_am)
  ∧ (BSModel.nSteps (modelObj two_am) ≤ ncols lone_paths)%nat
  ∧ priceAmByLSMC normal_equations_fit two_am lone_paths 1 = inl KeyError
  ∧ constant_skipped two_am lone_paths 0 = true
  ∧ (∀ e, priceAmByLSMC normal_equations_fit two_am lone_paths 1 = inl e →
          raised_in_loop normal_equations_fit two_am lone_paths e)
  ∧ (Option.nSteps (optionObj two_am) = 0%nat →
     (2 ≤ BSModel.nSteps (modelObj two_am))%nat →
     priceAmByLSMC normal_equations_fit two_am lone_paths 1 = inl ZeroDivisionError)
  ∧ (∀ out k, priceAmByLSMC normal_equations_fit two_am lone_paths 1 = inr out →
              (k + 1 < BSModel.nSteps (modelObj two_am))%nat →
              constant_skipped two_am lone_paths k = false
              ∧ Option.nSteps (optionObj two_am) ≠ 0%nat)
  ∧ (Option.nSteps (optionObj two_am) ≠ 0%nat →
     (∀ k, (k + 1 < BSModel.nSteps (modelObj two_am))%nat →
           constant_skipped two_am lone_paths k = false) →
     (∀ y X, length y = length X → ∃ β, normal_equations_fit y X = inr β) →
     ∃ out, priceAmByLSMC normal_equations_fit two_am lone_paths 1 = inr out).
Proof.
  split; [reflexivity|]. split; [simpl; lia|]. split; [exact lone_key_error|].
  split; [exact lone_skipped|].
  exact (priceAmByLSMC_exceptions normal_equations_fit two_am lone_paths 1
           eq_refl ltac:(simpl; lia) ltac:(simpl; lia) ltac:(simpl; lia)).
Defined.

(** X14 at the worked example. *)
Lemma finalization_by_option_steps_witness :
  (0 < BSModel.numberOfPaths (modelObj lsm_am))%nat
  ∧ initialize lsm_am lsm_paths = inr lsm_σ0
  ∧ for_each (loop_body normal_equations_fit lsm_am 1)
      (backward_range (BSModel.nSteps (modelObj lsm_am))) lsm_σ0 = inr lsm_σ2
  ∧ if decide (Option.nSteps (optionObj lsm_am) ≤ BSModel.nSteps (modelObj lsm_am))%nat
    then
      ∃ P,
        priceAmByLSMC normal_equations_fit lsm_am lsm_paths 1 =
          inr (sumR ((λ p, sumR ((λ i, entry (payoffMatrix lsm_σ2) p i
                                       * applied_discount lsm_am 1 i)
                                   <$> seq 0 (BSModel.nSteps (modelObj lsm_am))))
                       <$> seq 0 (BSModel.numberOfPaths (modelObj lsm_am)))
               / INR (BSModel.numberOfPaths (modelObj lsm_am)),
               P, exerciseDecisionMatrix lsm_σ2, results_dict lsm_σ2)
        ∧ ∀ p i, entry P p i = entry (payoffMatrix lsm_σ2) p i * applied_discount lsm_am 1 i
    else priceAmByLSMC normal_equations_fit lsm_am lsm_paths 1 = inl IndexError.
Proof.
  assert (0 < BSModel.numberOfPaths (modelObj lsm_am))%nat as HN by (simpl; lia).
  split; [exact HN|]. split; [exact lsm_initialize|]. split; [exact lsm_ols_loop|].
  exact (finalization_by_option_steps normal_equations_fit lsm_am lsm_paths 1
           lsm_σ0 lsm_σ2 HN lsm_initialize lsm_ols_loop).
Defined.

(** X15 at the worked example. *)
Lemma priceAmByLSMC_nonneg_witness :
  ∃ V P E rd,
    (0 < BSModel.numberOfPaths (modelObj lsm_am))%nat
    ∧ priceAmByLSMC normal_equations_fit lsm_am lsm_paths 1 = inr (V, P, E, rd)
    ∧ 0 <= V ∧ ∀ p i, 0 <= entry P p i.
Proof.
  assert (0 < BSModel.numberOfPaths (modelObj lsm_am))%nat as HN by (simpl; lia).
  eexists _, _, _, _. split; [exact HN|]. split; [exact lsm_ols_price|].
  exact (priceAmByLSMC_nonneg normal_equations_fit lsm_am lsm_paths 1 _ _ _ _ HN
           lsm_ols_price).
Defined.

(** X16 at the worked example. *)
Lemma priceAmByLSMC_at_most_strike_witness :
  ∃ V P E rd,
    0 <= Option.strike (optionObj lsm_am)
    ∧ 0 <= Stock.r (stockObj lsm_am) * 1
    ∧ (∀ p i, 0 <= entry lsm_paths p i)
    ∧ priceAmByLSMC normal_equations_fit lsm_am lsm_paths 1 = inr (V, P, E, rd)
    ∧ V <= Option.strike (optionObj lsm_am).
Proof.
  assert (0 < BSModel.numberOfPaths (modelObj lsm_am))%nat as HN by (simpl; lia).
  assert (0 <= Option.strike (optionObj lsm_am)) as HK by (simpl; lra).
  assert (0 <= Stock.r (stockObj lsm_am) * 1) as Hr by (simpl; lra).
  eexists _, _, _, _. split; [exact HK|]. split; [exact Hr|].
  split; [exact lsm_paths_nonneg|]. split; [exact lsm_ols_price|].
  exact (priceAmByLSMC_at_most_strike normal_equations_fit lsm_am lsm_paths 1 _ _ _ _
           HN HK Hr lsm_paths_nonneg lsm_ols_price).
Defined.


(** X18 at the worked example. *)
Lemma results_dict_keys_witness :
  ∃ V P E rd,
    priceAmByLSMC normal_equations_fit lsm_am lsm_paths 1 = inr (V, P, E, rd)
    ∧ rd.*1 = backward_range 3.
Proof.
  eexists _, _, _, _. split; [exact lsm_ols_price|].
  exact (results_dict_keys normal_equations_fit lsm_am lsm_paths 1 _ _ _ _
           lsm_ols_price).
Defined.

(** X19 at path 1 of the worked example, whose price at date 1 is 1.16. *)
Lemma out_of_the_money_never_exercised_witness :
  ∃ V P E rd,
    priceAmByLSMC normal_equations_fit lsm_am lsm_paths 1 = inr (V, P, E, rd)
    ∧ Option.strike (optionObj lsm_am) <= entry lsm_paths 1 (0 + 1)
    ∧ entry E 1 0 = 0 ∧ entry P 1 0 = 0.
Proof.
  assert (Option.strike (optionObj lsm_am) <= entry lsm_paths 1 (0 + 1)) as Hotm
    by (unfold entry; simpl; lra).
  eexists _, _, _, _. split; [exact lsm_ols_price|]. split; [exact Hotm|].
  exact (out_of_the_money_never_exercised normal_equations_fit lsm_am lsm_paths 1
           _ _ _ _ 1 0 lsm_ols_price ltac:(simpl; lia) ltac:(simpl; lia) Hotm).
Defined.

(** X20 for an option with one exercise date. *)
Lemma single_step_is_european_witness :
  BSModel.nSteps (modelObj one_am) = 1%nat
  ∧ Option.nSteps (optionObj one_am) = 1%nat
  ∧ nrows hold_paths = BSModel.numberOfPaths (modelObj one_am)
  ∧ ∃ dt,
      getDt one_am = inr dt
      ∧ match priceAmByLSMC normal_equations_fit one_am hold_paths dt with
        | inr (V, _, _, rd) =>
            EurOption.priceByBSMC (EurOption.Build (stockObj one_am) (optionObj one_am))
              hold_paths "put" = inr V
            ∧ rd = []
        | inl e =>
            EurOption.priceByBSMC (EurOption.Build (stockObj one_am) (optionObj one_am))
              hold_paths "put" = inl e
        end.
Proof.
  split; [reflexivity|]. split; [reflexivity|]. split; [reflexivity|].
  exact (single_step_is_european normal_equations_fit one_am hold_paths eq_refl eq_refl
           eq_refl ltac:(simpl; lia)).
Defined.

(** The simulation without volatility under the put struck at 12: the three
    paths stand at [10 · exp(0.06)] after one step, below the strike. *)
Lemma deep_paths :
  BSModel.generateSamplePaths deep_model draws = inr (gbm_paths deep_model draws 2).
Proof. apply generateSamplePaths_eq; [reflexivity|discriminate|simpl; lia]. Qed.

Lemma exp_6_percent : 1 < exp 0.06 < 1.2.
Proof.
  pose proof (exp_ineq1 0.06 ltac:(lra)) as Hlo.
  pose proof (exp_ineq1_le (Ropp 0.06)) as Hhi. rewrite exp_Ropp in Hhi.
  pose proof (exp_pos 0.06) as Hpos.
  split; [lra|].
  apply (Rmult_le_compat_r (exp 0.06)) in Hhi; [|lra].
  rewrite Rinv_l in Hhi by lra. nra.
Qed.

Lemma deep_entry (p : nat) :
  (p < 3)%nat → entry (gbm_paths deep_model draws 2) p 1 = 10 * exp 0.06.
Proof.
  intros Hp. rewrite (gbm_paths_entry deep_model draws 2 p 1) by (simpl; lia).
  rewrite decide_True by lia. unfold gbm_price, gbm_dt. cbn.
  f_equal. f_equal. field.
Qed.

Lemma deep_skipped : constant_skipped deep_am (gbm_paths deep_model draws 2) 0 = true.
Proof.
  pose proof exp_6_percent as [Hlo Hhi].
  apply constant_skipped_true. split.
  - assert (0%nat ∈ in_the_money deep_am (gbm_paths deep_model draws 2) 0) as Hin.
    { unfold in_the_money. apply list_elem_of_filter. split.
      - change (0 + 1)%nat with 1%nat. rewrite (deep_entry 0) by lia. cbn. lra.
      - apply elem_of_seq. simpl. lia. }
    intros Hnil. rewrite Hnil in Hin. by apply elem_of_nil in Hin.
  - exists (10 * exp 0.06). split; [lra|]. left. intros p Hp.
    unfold in_the_money in Hp. apply list_elem_of_filter in Hp as [_ Hp].
    apply elem_of_seq in Hp. apply deep_entry. simpl in Hp. lia.
Qed.

(** X21 for three simulated paths without volatility under that put: the
    first regression has three equal prices, and the run raises [KeyError]. *)
Lemma generated_paths_are_priced_witness :
  optionObj deep_am = BSModel.opnObj (modelObj deep_am)
  ∧ nrows draws = BSModel.numberOfPaths (modelObj deep_am)
  ∧ BSModel.generateSamplePaths (modelObj deep_am) draws
    = inr (gbm_paths deep_model draws 2)
  ∧ constant_skipped deep_am (gbm_paths deep_model draws 2) 0 = true
  ∧ (∃ Ve, EurOption.priceByBSMC (EurOption.Build (stockObj deep_am) (optionObj deep_am))
             (gbm_paths deep_model draws 2) "put" = inr Ve)
  ∧ priceAmByLSMC normal_equations_fit deep_am (gbm_paths deep_model draws 2) 1
    = inl KeyError.
Proof.
  split; [reflexivity|]. split; [reflexivity|]. split; [exact deep_paths|].
  split; [exact deep_skipped|].
  destruct (generated_paths_are_priced normal_equations_fit deep_am draws _ 1 eq_refl
              eq_refl eq_refl deep_paths) as (Heur & Hraised & Hskipped).
  split; [exact Heur|].
  destruct (Hskipped 0%nat ltac:(simpl; lia) deep_skipped) as [e He].
  rewrite He in Hraised |- *. destruct Hraised as (k & Hk & Hr).
  assert (k = 0%nat) as -> by (simpl in Hk; lia).
  unfold raised_at in Hr. rewrite deep_skipped in Hr.
  destruct Hr as [->|(y & X & _ & Hr)]; [done|].
  destruct (pinv_fit_total y X) as [b Hb].
  change (ols_no_const normal_equations_fit) with pinv_fit in Hr. congruence.
Defined.
